(** * PineNode: resolution-aware nodes of the pine tree

    A shallow embedding of [src/pineNode.js] and a verification of the
    properties its specification states.

    The class extends the tree shell of another package
    ([GiveNonLeafNode]) and works with its leaves ([DataNode]), its
    interval values ([ChromRegion]) and a pluggable summary type.  These
    collaborators are not part of the sources; what is needed of them is
    modelled from their description in the specification, and marked so.

    Numbers.  Coordinates, resolutions and the two scaling factors of the
    tree are integers ([Z]), except in [Fractional], which has the
    resolution of a tier for factors that are not integers; quotients such
    as [value / resolution] and
    [resolution / bufferingRatio] are exact rationals ([Q]).  [Math.floor],
    [Math.ceil] and [Math.round] take a rational to an integer.  JavaScript
    evaluates the same expressions in IEEE binary64; the two agree as long
    as every intermediate integer stays below 2^53, with one exception that
    is kept visible in the model: the quotient of two [Math.log] values,
    which is taken as a parameter wherever the source computes it. *)

From Stdlib Require Import ZArith QArith Qround Qabs Qpower Qfield List Sorted Bool Lia String.
From Stdlib Require Import Floats.
From Stdlib Require Import Reals Qreals Lqa Lra.
Import ListNotations.

Set Implicit Arguments.
Local Open Scope Z_scope.

(** ** JavaScript number primitives *)

Module Js.

Definition Math_floor (x : Q) : Z := Qfloor x.
Definition Math_ceil (x : Q) : Z := Qceiling x.

(** [Math.round] rounds to the nearest integer, ties towards +infinity. *)
Definition Math_round (x : Q) : Z := Qfloor (x + (1 # 2)).

(** [Math.min] / [Math.max] on integers. *)
Definition Math_min (a b : Z) : Z := Z.min a b.
Definition Math_max (a b : Z) : Z := Z.max a b.

(** [parseInt] of a number that is already an integer gives it back. *)
Definition parseInt (z : Z) : Z := z.

(** [a / b] of two integers. *)
Definition div (a b : Z) : Q := inject_Z a / inject_Z b.

(** [b ** k] for an integer base. *)
Definition pow (b : Z) (k : Z) : Q := Qpower (inject_Z b) k.

(** [x || y || 1] on optional positive numbers: [undefined] and [0] are
    falsy. *)
Definition truthyZ (o : option Z) : option Z :=
  match o with
  | Some z => if z =? 0 then None else Some z
  | None => None
  end.

Definition orElse {A} (o : option A) (d : A) : A :=
  match o with Some a => a | None => d end.

(** Array reads: [a[i]] is [undefined] out of range, and every comparison
    with [undefined] is false. *)
Definition idx {A} (a : list A) (i : Z) : option A :=
  if i <? 0 then None else nth_error a (Z.to_nat i).

Definition leU (o : option Z) (x : Z) : bool :=
  match o with Some k => k <=? x | None => false end.
Definition ltU (o : option Z) (x : Z) : bool :=
  match o with Some k => k <? x | None => false end.
Definition gtU (o : option Z) (x : Z) : bool :=
  match o with Some k => x <? k | None => false end.

(** [a.splice(i, 0, x)] and [a.splice(i, 1)]. *)
Definition splice_in {A} (a : list A) (i : Z) (x : A) : list A :=
  firstn (Z.to_nat i) a ++ x :: skipn (Z.to_nat i) a.
Definition splice_out {A} (a : list A) (i : Z) : list A :=
  firstn (Z.to_nat i) a ++ skipn (S (Z.to_nat i)) a.

(** [a[i] = x] for [i] inside the array. *)
Fixpoint set_nth {A} (a : list A) (i : nat) (x : A) : list A :=
  match a, i with
  | [], _ => []
  | _ :: t, O => x :: t
  | h :: t, S j => h :: set_nth t j x
  end.
Definition assign {A} (a : list A) (i : Z) (x : A) : list A :=
  if i <? 0 then a else set_nth a (Z.to_nat i) x.

End Js.

(** ** Exact integer logarithms

    [floorLog b x] is the largest [k >= 0] with [b^k <= x]: the value of
    [Math.floor(Math.log(x) / Math.log(b))] in exact arithmetic, for
    [x >= 1] and [b > 1].  [ceilLog b x] is the least [k >= 0] with
    [x <= b^k]. *)

Fixpoint floorLog_aux (fuel : nat) (b : Z) (x : Q) (p k : Z) : Z :=
  match fuel with
  | O => k
  | S f =>
      if Qle_bool (inject_Z (p * b)) x
      then floorLog_aux f b x (p * b) (k + 1)
      else k
  end.

Definition floorLog (b : Z) (x : Q) : Z :=
  floorLog_aux (S (Z.to_nat (Z.log2 (Qfloor x)))) b x 1 0.

Fixpoint ceilLog_aux (fuel : nat) (b : Z) (x : Q) (p k : Z) : Z :=
  match fuel with
  | O => k
  | S f =>
      if Qle_bool x (inject_Z p)
      then k
      else ceilLog_aux f b x (p * b) (k + 1)
  end.

Definition ceilLog (b : Z) (x : Q) : Z :=
  ceilLog_aux (S (S (Z.to_nat (Z.log2 (Qceiling x))))) b x 1 0.

(** ** The tree handle *)

Record GiveTree : Type := mkTree {
  scalingFactor : Z;
  leafScalingFactor : Z;
  (** [typeof this.tree._SummaryCtor === 'function'] *)
  hasSummaryCtor : bool
}.

(** ** Resolution arithmetic (the methods of [PineNode] that only read the
    tree handle and [reverseDepth]) *)

Section Resolution.

(** The value of [Math.floor(Math.log(x) / Math.log(b))]. *)
Variable logQuotFloor : Z -> Q -> Z.
Variable tree : GiveTree.

(** [_getResolutionAtDepth (revDepth)] *)
Definition _getResolutionAtDepth (revDepth : Z) : Z :=
  Js.parseInt (Js.Math_floor
    (Js.pow (scalingFactor tree) revDepth *
     inject_Z (leafScalingFactor tree))).

(** [_getClosestResolution (requiredRes)] *)
Definition _getClosestResolution (requiredRes : Q) : Z :=
  if Qle_bool (inject_Z (leafScalingFactor tree)) requiredRes then
    Js.parseInt (Js.Math_floor
      (Js.pow (scalingFactor tree)
         (logQuotFloor (scalingFactor tree)
            (requiredRes / inject_Z (leafScalingFactor tree))) *
       inject_Z (leafScalingFactor tree)))
  else 1.

End Resolution.

(** [static fitResolution (value, resolution, roundingFunc)]; the
    resolution is an integer, so that the product is one. *)
Definition fitResolution (value : Q) (resolution : Z)
    (roundingFunc : option (Q -> Z)) : Z :=
  let roundingFunc := Js.orElse roundingFunc Js.Math_round in
  Js.parseInt (roundingFunc (value / inject_Z resolution)%Q * resolution).

(** The two places where the source takes a quotient of logarithms. *)
Record LogNumerics : Type := mkLogs {
  (** [Math.floor(Math.log(x) / Math.log(b))] *)
  floorLogQuot : Z -> Q -> Z;
  (** [Math.ceil((Math.log(span) - Math.log(lsf)) / Math.log(b))] *)
  ceilLogDiffQuot : Z -> Z -> Z -> Z
}.

(** Their values in exact arithmetic. *)
Definition exactLogs : LogNumerics :=
  {| floorLogQuot := floorLog;
     ceilLogDiffQuot := fun b span lsf => ceilLog b (Js.div span lsf) |}.

(** ** Outcomes of a call *)

Inductive Result (A : Type) : Type :=
| Ok (a : A)
| Throw (msg : string)
    (** a JavaScript exception unwinding to the caller *)
| Unmodelled
    (** the iteration bound of the model was reached, or the call left the
        part of the language that is modelled (a write past the end of an
        array, a method of a collaborator that is not described) *).
Arguments Ok {A} a.
Arguments Throw {A} msg.
Arguments Unmodelled {A}.

Definition bind {A B} (r : Result A) (k : A -> Result B) : Result B :=
  match r with
  | Ok a => k a
  | Throw m => Throw m
  | Unmodelled => Unmodelled
  end.

Declare Scope result_scope.
Delimit Scope result_scope with result.
Notation "'do' x <- r ; k" := (bind r (fun x => k))
  (at level 10, x pattern, r at level 100, k at level 200) : result_scope.
Local Open Scope result_scope.

(** ** Data model *)

Section DataModel.

(** The payload an interval value carries, and the summary value. *)
Variables D Smry : Type.

(** Modelled from the spec: the interval value (the external
    [ChromRegion]): start, end, an optional resolution tag, and whatever
    else the entry carries. *)
Record ChromRegion : Type := mkRegion {
  start : Z;
  end_ : Z;
  resolution : option Z;
  payload : option D
}.

(** What [updateSummary] is handed and what [_summaryChromRegion] holds:
    an interval value, or (from the confirmed-empty branch of [insert]) a
    summary object itself. *)
Inductive JsVal : Type :=
| Region (c : ChromRegion)
| SummaryObj (s : Smry).

(** The result of [_SummaryCtor.extract (chromEntry)] as [updateSummary]
    tests it: falsy, truthy but not an instance of [_SummaryCtor], or an
    instance. *)
Inductive Extracted : Type :=
| NotThere
| WrongType
| Instance (s : Smry).

(** Modelled from the spec: the leaf (the external [DataNode]), holding
    the raw intervals that start in its cell and the carried-over intervals
    that started before it, and exposing [hasData]. *)
Record DataNode : Type := mkLeaf {
  leafStart : Z;
  startList : list ChromRegion;
  leafContinuedList : list ChromRegion;
  leafHasData : bool
}.

(** A node, and the four kinds of bucket value: [null], [false], a child
    node, a leaf. *)
Inductive PineNode : Type :=
| mkNode (isRoot : bool) (nstart nend : Z) (reverseDepth : Z)
         (keys : list Z) (values : list Bucket)
         (_summary : option Smry) (_summaryChromRegion : option JsVal)
with Bucket : Type :=
| Unknown
| KnownEmpty
| Branch (n : PineNode)
| Leaf (d : DataNode).

Definition isRoot (n : PineNode) : bool :=
  let 'mkNode r _ _ _ _ _ _ _ := n in r.
Definition nstart (n : PineNode) : Z :=
  let 'mkNode _ s _ _ _ _ _ _ := n in s.
Definition nend (n : PineNode) : Z :=
  let 'mkNode _ _ e _ _ _ _ _ := n in e.
Definition reverseDepth (n : PineNode) : Z :=
  let 'mkNode _ _ _ d _ _ _ _ := n in d.
Definition keys (n : PineNode) : list Z :=
  let 'mkNode _ _ _ _ k _ _ _ := n in k.
Definition values (n : PineNode) : list Bucket :=
  let 'mkNode _ _ _ _ _ v _ _ := n in v.
Definition _summary (n : PineNode) : option Smry :=
  let 'mkNode _ _ _ _ _ _ s _ := n in s.
Definition _summaryChromRegion (n : PineNode) : option JsVal :=
  let 'mkNode _ _ _ _ _ _ _ c := n in c.

Definition with_values (n : PineNode) (ks : list Z) (vs : list Bucket)
  : PineNode :=
  let 'mkNode r s e d _ _ sm c := n in mkNode r s e d ks vs sm c.
Definition with_summary (n : PineNode) (sm : option Smry)
    (c : option JsVal) : PineNode :=
  let 'mkNode r s e d k v _ _ := n in mkNode r s e d k v sm c.

(** Modelled from the spec: the pluggable summary type
    [tree._SummaryCtor] (external), with the operations [updateSummary]
    calls. *)
Class SummaryCtor : Type := {
  (** [new _SummaryCtor()] *)
  newSummary : Smry;
  (** [_SummaryCtor.extract (chromEntry)] *)
  extract : JsVal -> Extracted;
  (** [acc.addSummary (node, childSummary)]; the node is given by its
      range, and [childSummary] is [undefined] when the child has no
      [summary] property *)
  addSummary : Z * Z -> Smry -> option Smry -> Smry;
  (** [acc.addDataFromChromEntry (node, entry)] *)
  addDataFromChromEntry : Z * Z -> Smry -> ChromRegion -> Smry;
  (** [summary.attach (chromRegion)] *)
  attach : Smry -> ChromRegion -> ChromRegion
}.

End DataModel.

Arguments newSummary {D Smry _}.
Arguments extract {D Smry _} _.
Arguments addSummary {D Smry _} _ _ _.
Arguments addDataFromChromEntry {D Smry _} _ _ _.
Arguments attach {D Smry _} _ _.
Arguments mkRegion {D} start end_ resolution payload.
Arguments Region {D Smry} c.
Arguments SummaryObj {D Smry} s.
Arguments NotThere {Smry}.
Arguments WrongType {Smry}.
Arguments Instance {Smry} s.
Arguments mkNode {D Smry} isRoot nstart nend reverseDepth keys values _summary _summaryChromRegion.
Arguments Branch {D Smry} n.
Arguments Leaf {D Smry} d.
Arguments Unknown {D Smry}.
Arguments KnownEmpty {D Smry}.
Arguments mkLeaf {D} leafStart startList leafContinuedList leafHasData.

(** ** The node: constructor, getters and summary cache *)

Section Node.

Context {D Smry : Type} {SC : SummaryCtor D Smry}.
Variable num : LogNumerics.
Variable tree : GiveTree.

Local Notation Node := (PineNode D Smry).
Local Notation Slot := (Bucket D Smry).
Local Notation CR := (ChromRegion D).

(** [chrRange.resolution || props.resolution || 1] *)
Definition requestedResolution (cr : CR) (propsRes : option Z) : Z :=
  Js.orElse (Js.truthyZ (resolution cr))
    (Js.orElse (Js.truthyZ propsRes) 1).

(** The tier of a span, as the constructor of [PineNode] computes it. *)
Definition tierFor (span : Z) : Z :=
  if span <=? leafScalingFactor tree then 0
  else ceilLogDiffQuot num (scalingFactor tree) span
         (leafScalingFactor tree).

(** Modelled from the spec: what the constructor of the external tree
    shell ([GiveNonLeafNode]) sets up for
    [new PineNode ({isRoot, start, end, tree})]: the node owns
    [start, end) as one bucket that is not yet determined.  The reverse
    depth and the absent summary are those of the constructor of
    [PineNode]. *)
Definition newPineNode (root : bool) (s e : Z) : Node :=
  mkNode root s e (tierFor (e - s)) [s; e] [Unknown] None None.

(** [get summary ()] *)
Definition summary (n : Node) : option Smry := _summary n.

(** [get hasData ()] *)
Definition hasData (n : Node) : bool :=
  match summary n with Some _ => true | None => false end.

(** [get summaryChromRegion ()] *)
Definition summaryChromRegion (n : Node) : option (JsVal D Smry) :=
  _summaryChromRegion n.

(** The test of [childHasData] on the bucket value itself. *)
Definition bucketHasData (b : Slot) : bool :=
  match b with
  | KnownEmpty => true
  | Unknown => false
  | Branch c => hasData c
  | Leaf d => leafHasData d
  end.

(** [childHasData (index)]; every caller keeps [index] inside
    [values]. *)
Definition childHasData (n : Node) (index : Z) : bool :=
  match Js.idx (values n) index with
  | Some b => bucketHasData b
  | None => false
  end.

(** [get resolution ()] *)
Definition nodeResolution (n : Node) : Z :=
  _getResolutionAtDepth tree (reverseDepth n).

(** The generalised child resolution of [getChildResolution]. *)
Definition generalChildResolution (n : Node) : Z :=
  if reverseDepth n >? 0
  then _getResolutionAtDepth tree (reverseDepth n - 1)
  else 1.

(** Modelled from the spec: [resolution] of a leaf.  The leaf is external;
    the spec has it expose a resolution of 1, a truthy value, whatever the
    tier of the node that holds it. *)
Definition leafResolution (d : DataNode D) : Z := 1.

(** [getChildResolution (index)] on the bucket value [values[index]]:
    1 at reverse depth 0 and for [false]; the [resolution] of the value
    when the value and its [resolution] are truthy; the generalised child
    resolution otherwise. *)
Definition bucketResolution (n : Node) (b : option Slot) : Z :=
  if (reverseDepth n <=? 0) ||
     match b with Some KnownEmpty => true | _ => false end
  then 1
  else match b with
       | Some (Branch c) =>
           if nodeResolution c =? 0 then generalChildResolution n
           else nodeResolution c
       | Some (Leaf d) =>
           if leafResolution d =? 0 then generalChildResolution n
           else leafResolution d
       | _ => generalChildResolution n
       end.

(** [getChildResolution (index)] *)
Definition getChildResolution (n : Node) (index : option Z) : Z :=
  match index with
  | Some i => bucketResolution n (Js.idx (values n) i)
  | None => generalChildResolution n
  end.

(** [resolutionEnough (resolution)] *)
Definition resolutionEnough (n : Node) (res : option Z) : bool :=
  nodeResolution n <=? Js.orElse res 1.

(** [childResolutionEnough (resolution, index)] *)
Definition childResolutionEnough (n : Node) (res : option Z)
    (index : option Z) : bool :=
  getChildResolution n index <=? Js.orElse res 1.

Definition bucketResolutionEnough (n : Node) (res : Z) (b : Slot)
  : bool :=
  bucketResolution n (Some b) <=? res.

(** The callback of [this.values.every (...)] in [updateSummary], folded
    from the left over the buckets: [Ok None] when a bucket makes it
    return [false].  At reverse depth 0 the bucket is traversed with a
    [null] range and [notFirstCall] set: a leaf then hands over its raw
    entries (its traversal is external; the spec has a present leaf
    contribute by folding each of its raw entries), and a child node
    rejects the [null] range.  Above reverse depth 0 a leaf has no
    [summary] property, and [addSummary] is handed [undefined]. *)
Fixpoint foldBuckets (rd : Z) (range : Z * Z) (vs : list Slot) (acc : Smry)
  : Result (option Smry) :=
  match vs with
  | [] => Ok (Some acc)
  | KnownEmpty :: vs' => foldBuckets rd range vs' acc
  | Unknown :: _ => Ok None
  | Branch c :: vs' =>
      if rd >? 0 then
        match summary c with
        | None => Ok None
        | Some s => foldBuckets rd range vs' (addSummary range acc (Some s))
        end
      else Throw "null is not a valid chrRegion."
  | Leaf d :: vs' =>
      if rd >? 0 then foldBuckets rd range vs' (addSummary range acc None)
      else foldBuckets rd range vs'
             (fold_left (addDataFromChromEntry range) (startList d) acc)
  end.

(** [updateSummary (chromEntry)]; the second component is the log. *)
Definition updateSummary (n : Node) (chromEntry : option (JsVal D Smry))
    (log : list string) : Result (Node * list string) :=
  if hasSummaryCtor tree then
    let extracted :=
      match chromEntry with Some v => extract v | None => NotThere end in
    match extracted with
    | Instance s => Ok (with_summary n (Some s) chromEntry, log)
    | _ =>
        match summary n with
        | Some _ => Ok (n, log)
        | None =>
            let log :=
              match extracted with
              | WrongType =>
                  log ++ ["not a correct summary type. Will be regenerated from tree data."%string]
              | _ => log
              end in
            do r <- foldBuckets (reverseDepth n) (nstart n, nend n)
                      (values n) newSummary;
            match r with
            | Some acc =>
                Ok (with_summary n (Some acc)
                      (Some (Region
                         (attach acc
                            (mkRegion (nstart n) (nend n) None None)))),
                    log)
            | None => Ok (with_summary n None None, log)
            end
        end
    end
  else Ok (n, log).


(** ** The external tree shell and leaf, as far as insertion uses them *)

(** Modelled from the spec: [truncateChrRange (chrRange, true, true)] of
    the tree shell.  The interval value supports clipping; the result is a
    fresh interval clipped to the range of the node, so that what a node
    does to its range is not seen by its caller. *)
Definition truncateChrRange (n : Node) (c : CR) : CR :=
  mkRegion (Z.max (start c) (nstart n)) (Z.min (end_ c) (nend n))
    (resolution c) (payload c).

(** Modelled from the spec: [_splitChild (index, newKey, newLatterChild)]
    of the tree shell.  [splitChildAt (index, coordinate, fillValue?)]
    subdivides bucket [index] at [coordinate], preserving the payload on
    both halves; a fill value, when given, becomes the latter half. *)
Definition _splitChild (n : Node) (index newKey : Z) (fill : option Slot)
  : Result Node :=
  match Js.idx (values n) index with
  | Some b =>
      Ok (with_values n
            (Js.splice_in (keys n) (index + 1) newKey)
            (Js.splice_in (values n) (index + 1) (Js.orElse fill b)))
  | None => Unmodelled
  end.

Definition isKnownEmpty (b : option Slot) : bool :=
  match b with Some KnownEmpty => true | _ => false end.

Definition isPresent (b : option Slot) : bool :=
  match b with Some (Branch _) | Some (Leaf _) => true | _ => false end.

(** Modelled from the spec: [_mergeChild (index, mergeNext, false)] of
    the tree shell.  [mergeChild (index, forward, force)] coalesces bucket
    [index] with a neighbour when both are KnownEmpty: with the bucket
    before it, and with the bucket after it too when [forward] is set.
    The result tells whether the bucket before absorbed it, which is when
    the callers step their cursor back. *)
Definition _mergeChild (n : Node) (index : Z) (mergeNext : bool)
  : Node * bool :=
  let front := (0 <? index) && isKnownEmpty (Js.idx (values n) (index - 1))
               && isKnownEmpty (Js.idx (values n) index) in
  let n1 := if front
            then with_values n (Js.splice_out (keys n) index)
                   (Js.splice_out (values n) index)
            else n in
  let i1 := if front then index - 1 else index in
  let back := mergeNext && isKnownEmpty (Js.idx (values n1) i1)
              && isKnownEmpty (Js.idx (values n1) (i1 + 1)) in
  let n2 := if back
            then with_values n1 (Js.splice_out (keys n1) (i1 + 1))
                   (Js.splice_out (values n1) (i1 + 1))
            else n1 in
  (n2, front).

(** Modelled from the spec: [super.isEmpty] of the tree shell.  A node
    holds nothing when it has at most one bucket and that bucket is not a
    present child or leaf (the condition under which [remove] reports the
    node collapsible). *)
Definition shellIsEmpty (n : Node) : bool :=
  match values n with
  | [] => true
  | [b] => negb (isPresent (Some b))
  | _ => false
  end.

(** [get isEmpty ()] *)
Definition isEmpty (n : Node) : bool :=
  negb (hasData n) && shellIsEmpty n.

(** Modelled from the spec: [restructure ()] of the tree shell, which
    reports node validity ([true] stands for [this], [false] for
    [false]).  The pine tree does not rebalance, and a node other than
    the root that is empty is reported invalid, for its parent to
    collapse. *)
Definition restructure (n : Node) : bool :=
  negb (negb (isRoot n) && isEmpty n).

(** The shared mutable context of an insertion: [props], the queue [data],
    and what the calls left behind (the arguments [props.callback] was
    called with, and the log). *)
Record Props : Type := mkProps {
  propsResolution : option Z;
  continuedList : option (list CR);
  dataIndex : option Z;
  (** [typeof props.callback === 'function'] *)
  hasCallback : bool;
  (** [props.LeafNodeCtor] is a constructor of tree nodes *)
  leafNodeCtorOk : bool
}.

Record Ctx : Type := mkCtx {
  data : list CR;
  props : Props;
  fired : list CR;
  logged : list string
}.

Definition setData (c : Ctx) (d : list CR) : Ctx :=
  mkCtx d (props c) (fired c) (logged c).
Definition setLogged (c : Ctx) (l : list string) : Ctx :=
  mkCtx (data c) (props c) (fired c) l.
Definition fire (c : Ctx) (es : list CR) : Ctx :=
  if hasCallback (props c)
  then mkCtx (data c) (props c) (fired c ++ es) (logged c)
  else c.
Definition setContinued (c : Ctx) (l : option (list CR)) : Ctx :=
  let p := props c in
  mkCtx (data c)
    (mkProps (propsResolution p) l (dataIndex p) (hasCallback p)
       (leafNodeCtorOk p))
    (fired c) (logged c).
Definition setDataIndex (c : Ctx) (i : option Z) : Ctx :=
  let p := props c in
  mkCtx (data c)
    (mkProps (propsResolution p) (continuedList p) i (hasCallback p)
       (leafNodeCtorOk p))
    (fired c) (logged c).

Fixpoint takeWhile {A} (f : A -> bool) (l : list A) : list A :=
  match l with
  | [] => []
  | x :: t => if f x then x :: takeWhile f t else []
  end.

Fixpoint dropWhile {A} (f : A -> bool) (l : list A) : list A :=
  match l with
  | [] => []
  | x :: t => if f x then dropWhile f t else l
  end.

(** [a.slice (i, j)] *)
Definition slice {A} (a : list A) (i j : Z) : list A :=
  firstn (Z.to_nat (j - i)) (skipn (Z.to_nat i) a).

(** Modelled from the spec: [_traverseData (data, index, critFunc,
    callback)] of the tree shell.  The queue cursor is advanced over the
    entries that satisfy the criterion, and the optional per-entry
    callback is fired on each of them; the result is the new cursor. *)
Definition _traverseData (c : Ctx) (index : Z) (crit : CR -> bool)
  : Z * Ctx :=
  let passed := takeWhile crit (skipn (Z.to_nat index) (data c)) in
  (index + Z.of_nat (List.length passed), fire c passed).

(** Modelled from the spec:
    [new LeafNodeCtor ({start}).insert (data, chrRange, props)] of the
    leaf.  A leaf holds the raw intervals that start at its coordinate and
    the carried-over intervals that started before it and extend into it.
    Its insertion takes over the continuation list of [props] (with the
    queued entries before its start folded in), consumes from the queue
    the entries starting at its coordinate, and adds them to the
    continuation list for the cells that follow. *)
Definition leafInsert (s : Z) (c : Ctx) : DataNode D * Ctx :=
  let i0 := Js.orElse (dataIndex (props c)) 0 in
  let '(i1, c) := _traverseData c i0 (fun e => start e <? s) in
  let cl := filter (fun e => s <? end_ e)
              (Js.orElse (continuedList (props c)) [] ++ slice (data c) i0 i1) in
  let '(i2, c) := _traverseData c i1 (fun e => start e =? s) in
  let sl := slice (data c) i1 i2 in
  let c := setContinued c (Some (cl ++ sl)) in
  let c := match dataIndex (props c) with
           | Some _ => setDataIndex c (Some i2)
           | None => setData c (skipn (Z.to_nat i2) (data c))
           end in
  (mkLeaf s sl cl true, c).

(** [while (this.keys[currIndex + 1] <= x) { currIndex++ }]; it stops at
    the last key at the latest. *)
Fixpoint skipKeys_loop (fuel : nat) (ks : list Z) (x currIndex : Z) : Z :=
  match fuel with
  | O => currIndex
  | S f =>
      if Js.leU (Js.idx ks (currIndex + 1)) x
      then skipKeys_loop f ks x (currIndex + 1)
      else currIndex
  end.
Definition skipKeys (ks : list Z) (x currIndex : Z) : Z :=
  skipKeys_loop (List.length ks) ks x currIndex.

Definition setStart (c : CR) (s : Z) : CR :=
  mkRegion s (end_ c) (resolution c) (payload c).

(** [values[index] = b].  A write at [values.length] appends.  The model
    stops at a write further out, which would leave holes in the array,
    and at a negative index, which is not an element of the array. *)
Definition setBucket (n : Node) (index : Z) (b : Slot) : Result Node :=
  if (0 <=? index) && (index <? Z.of_nat (List.length (values n)))
  then Ok (with_values n (keys n) (Js.assign (values n) index b))
  else if index =? Z.of_nat (List.length (values n))
  then Ok (with_values n (keys n) (values n ++ [b]))
  else Unmodelled.

(** ** Insertion *)

(** The branch of [insert] taken when the resolution of the node is
    enough: the node itself stands for the data. *)
Definition insertResolutionEnough (n : Node) (ctx : Ctx)
  : Result (Node * Ctx) :=
  let ctx := setData ctx (dropWhile (fun e => start e <? nstart n) (data ctx)) in
  match data ctx with
  | [] => Ok (n, ctx)
  | e :: rest =>
      if negb (nstart n =? start e) || negb (nend n =? end_ e) then
        if negb (hasData n) then
          if nend n <=? start e then
            if hasSummaryCtor tree then
              do r <- updateSummary n (Some (SummaryObj newSummary))
                        (logged ctx);
              Ok (fst r, setLogged ctx (snd r))
            else Throw "this.tree._SummaryCtor is not a constructor"
          else Throw "Summary range does not match!"
        else Ok (n, ctx)
      else
        do r <- updateSummary n (Some (Region e)) (logged ctx);
        Ok (fst r, setData (fire (setLogged ctx (snd r)) [e]) rest)
  end.

(** The [while (chrRange.start < chrRange.end)] loop of
    [_addNonLeafRecords]; [childInsert] is [insert] on a child.  A bucket
    that is [null], [false] or [undefined] (past the end of [values]) gets
    a new child node; a leaf in a bucket above reverse depth 0 would have
    its own [insert] called, which belongs to the leaf and is not
    modelled. *)
Fixpoint _addNonLeafRecords_loop
    (childInsert : Node -> option CR -> Ctx -> Result (Node * Ctx * bool))
    (fuel : nat) (childRes : Z) (n : Node) (currIndex : Z) (chrRange : CR)
    (ctx : Ctx) : Result (Node * Ctx) :=
  if start chrRange <? end_ chrRange then
    match fuel with
    | O => Unmodelled
    | S fuel' =>
        let newRangeStart :=
          fitResolution (inject_Z (start chrRange)) childRes
            (Some Js.Math_floor) in
        let newRangeEnd :=
          Js.Math_min (nend n)
            (Js.Math_min
               (fitResolution (inject_Z (end_ chrRange)) childRes
                  (Some Js.Math_ceil))
               (newRangeStart + childRes)) in
        let currIndex := skipKeys (keys n) newRangeStart currIndex in
        do s1 <-
          (if Js.ltU (Js.idx (keys n) currIndex) newRangeStart
           then do n' <- _splitChild n currIndex newRangeStart None;
                Ok (n', currIndex + 1)
           else Ok (n, currIndex));
        let '(n, currIndex) := s1 in
        do n <-
          (if Js.gtU (Js.idx (keys n) (currIndex + 1)) newRangeEnd
           then _splitChild n currIndex newRangeEnd None
           else Ok n);
        let live :=
          match data ctx with
          | e :: _ => start e <? newRangeEnd
          | [] => false
          end
          || match continuedList (props ctx) with
             | Some cl => existsb (fun e => newRangeStart <? end_ e) cl
             | None => false
             end
          || ((newRangeStart <? start chrRange)
              || (end_ chrRange <? newRangeEnd)) in
        do s2 <-
          (if live then
             do child <-
               match Js.idx (values n) currIndex with
               | Some (Branch c) => Ok c
               | Some Unknown | Some KnownEmpty | None =>
                   Ok (newPineNode false newRangeStart newRangeEnd)
               | Some (Leaf _) => Unmodelled
               end;
             do r <- childInsert child (Some chrRange) ctx;
             let '(child', ctx', valid) := r in
             do n' <- setBucket n currIndex (Branch child');
             Ok (n', ctx', negb valid)
           else Ok (n, ctx, true));
        let '(n, ctx, fixChildFlag) := s2 in
        do s3 <-
          (if fixChildFlag then
             do n' <- setBucket n currIndex KnownEmpty;
             let '(n'', merged) := _mergeChild n' currIndex true in
             Ok (n'', if merged then currIndex - 1 else currIndex)
           else Ok (n, currIndex));
        let '(n, currIndex) := s3 in
        _addNonLeafRecords_loop childInsert fuel' childRes n (currIndex + 1)
          (setStart chrRange (Js.Math_min newRangeEnd (end_ chrRange))) ctx
    end
  else Ok (n, ctx).

(** [_addNonLeafRecords (data, chrRange, props)] *)
Definition _addNonLeafRecords
    (childInsert : Node -> option CR -> Ctx -> Result (Node * Ctx * bool))
    (n : Node) (chrRange : CR) (ctx : Ctx) : Result (Node * Ctx) :=
  let childRes := getChildResolution n None in
  _addNonLeafRecords_loop childInsert
    (Z.to_nat ((end_ chrRange - start chrRange) / childRes) + 2)
    childRes n 0 chrRange ctx.

(** The [while (chrRange.start < chrRange.end)] loop of [_addLeafRecords];
    the third component of the result is [prevDataIndex]. *)
Fixpoint _addLeafRecords_loop (fuel : nat) (n : Node) (currIndex : Z)
    (chrRange : CR) (ctx : Ctx) (prevDataIndex : option Z)
  : Result (Node * Ctx * option Z * CR) :=
  if start chrRange <? end_ chrRange then
    match fuel with
    | O => Unmodelled
    | S fuel' =>
        let currIndex := skipKeys (keys n) (start chrRange) currIndex in
        let prev := Js.orElse (dataIndex (props ctx)) 0 in
        let '(di, ctx) :=
          _traverseData ctx prev (fun e => start e <? start chrRange) in
        let ctx := setDataIndex ctx (Some di) in
        let ctx :=
          setContinued ctx
            (Some (filter (fun e => start chrRange <? end_ e)
                     (Js.orElse (continuedList (props ctx)) []
                      ++ slice (data ctx) prev di))) in
        do s1 <-
          (if Js.ltU (Js.idx (keys n) currIndex) (start chrRange)
           then do n' <- _splitChild n currIndex (start chrRange)
                           (Some KnownEmpty);
                Ok (n', currIndex + 1)
           else Ok (n, currIndex));
        let '(n, currIndex) := s1 in
        do s2 <-
          match Js.idx (data ctx) di, Js.idx (keys n) currIndex with
          | Some e, Some k =>
              if start e =? k then
                let '(leaf, ctx') := leafInsert k ctx in
                do n' <- setBucket n currIndex (Leaf leaf);
                Ok (n', currIndex, ctx')
              else if k <? end_ chrRange then
                let cl := Js.orElse (continuedList (props ctx)) [] in
                do n' <- setBucket n currIndex
                           (match cl with
                            | [] => KnownEmpty
                            | _ => Leaf (mkLeaf k [] cl true)
                            end);
                let '(n'', merged) := _mergeChild n' currIndex false in
                Ok (n'', (if merged then currIndex - 1 else currIndex), ctx)
              else Ok (n, currIndex, ctx)
          | None, Some k =>
              if k <? end_ chrRange then
                let cl := Js.orElse (continuedList (props ctx)) [] in
                do n' <- setBucket n currIndex
                           (match cl with
                            | [] => KnownEmpty
                            | _ => Leaf (mkLeaf k [] cl true)
                            end);
                let '(n'', merged) := _mergeChild n' currIndex false in
                Ok (n'', (if merged then currIndex - 1 else currIndex), ctx)
              else Ok (n, currIndex, ctx)
          | _, None => Ok (n, currIndex, ctx)
          end;
        let '(n, currIndex, ctx) := s2 in
        let next :=
          match Js.idx (data ctx) (Js.orElse (dataIndex (props ctx)) 0) with
          | Some e =>
              if start e <? end_ chrRange then start e else end_ chrRange
          | None => end_ chrRange
          end in
        _addLeafRecords_loop fuel' n currIndex (setStart chrRange next) ctx
          (Some prev)
    end
  else Ok (n, ctx, prevDataIndex, chrRange).

(** [_addLeafRecords (data, chrRange, props)] *)
Definition _addLeafRecords (n : Node) (chrRange : CR) (ctx : Ctx)
  : Result (Node * Ctx) :=
  let ctx := setDataIndex ctx (Some 0) in
  let ctx :=
    setContinued ctx (Some (Js.orElse (continuedList (props ctx)) [])) in
  if negb (leafNodeCtorOk (props ctx)) then
    Throw "LeafNodeCtor is not a constructor for a tree node!"
  else
    let currIndex := skipKeys (keys n) (start chrRange) 0 in
    do s1 <-
      (if Js.ltU (Js.idx (keys n) currIndex) (start chrRange)
       then do n' <- _splitChild n currIndex (start chrRange) None;
            Ok (n', currIndex + 1)
       else Ok (n, currIndex));
    let '(n, currIndex) := s1 in
    do n <-
      (if Js.gtU (Js.idx (keys n) (currIndex + 1)) (end_ chrRange)
       then _splitChild n currIndex (end_ chrRange) None
       else Ok n);
    do s2 <-
      _addLeafRecords_loop (List.length (data ctx) + 2) n currIndex chrRange
        ctx None;
    let '(n, ctx, prevDataIndex, chrRange) := s2 in
    let di := Js.orElse (dataIndex (props ctx)) 0 in
    let ctx :=
      setContinued ctx
        (Some (filter (fun e => end_ chrRange <? end_ e)
                 (Js.orElse (continuedList (props ctx)) []
                  ++ slice (data ctx) (Js.orElse prevDataIndex 0) di))) in
    let ctx := setData ctx (skipn (Z.to_nat di) (data ctx)) in
    Ok (n, setDataIndex ctx None).

(** [insert (data, chrRange, props)]; [data] and [props] are in [ctx].
    The Boolean of the result is the verdict of [restructure ()]. *)
Fixpoint insert (fuel : nat) (n : Node) (chrRange : option CR) (ctx : Ctx)
  : Result (Node * Ctx * bool) :=
  match fuel with
  | O => Unmodelled
  | S fuel' =>
      let chrRange :=
        match data ctx, chrRange with
        | [e], None => Some e
        | _, _ => chrRange
        end in
      match chrRange with
      | Some chrRange =>
          let res :=
            requestedResolution chrRange (propsResolution (props ctx)) in
          let chrRange := truncateChrRange n chrRange in
          do s <-
            (if resolutionEnough n (Some res) then
               insertResolutionEnough n ctx
             else if reverseDepth n >? 0 then
               _addNonLeafRecords (insert fuel') n chrRange ctx
             else _addLeafRecords n chrRange ctx);
          let '(n, ctx) := s in
          do r <- updateSummary n None (logged ctx);
          Ok (fst r, setLogged ctx (snd r), restructure (fst r))
      | None => Throw "undefined is not a valid chrRegion."
      end
  end.

(** ** Traversal *)

Section Traverse.

(** The state of the caller that [callback] works on, the callback, the
    optional filter and [breakOnFalse].  The entry handed over is what the
    getter [summaryChromRegion] gives ([None] for [null]), or a raw entry
    of a leaf. *)
Variable U : Type.
Variable callback : option (JsVal D Smry) -> U -> U * bool.
Variable filter : option (option (JsVal D Smry) -> bool).
Variable breakOnFalse : bool.
(** [props.resolution] *)
Variable propsRes : option Z.

(** Modelled from the spec: [_callFuncOnDataEntry (callback, filter,
    breakOnFalse, entry, props)] of the tree shell.  The entry is handed
    to the callback unless the filter rejects it; the result tells whether
    the walk goes on, which it always does unless [breakOnFalse] is set
    and the callback returned a falsy value. *)
Definition _callFuncOnDataEntry (entry : option (JsVal D Smry)) (u : U)
  : U * bool :=
  if match filter with Some f => f entry | None => true end
  then let '(u', r) := callback entry u in (u', r || negb breakOnFalse)
  else (u, true).

(** [entries.every (callFunc)] *)
Fixpoint everyEntry (es : list CR) (u : U) : U * bool :=
  match es with
  | [] => (u, true)
  | e :: t =>
      let '(u', go) := _callFuncOnDataEntry (Some (Region e)) u in
      if go then everyEntry t u' else (u', false)
  end.

(** Modelled from the spec: [traverse] of the leaf, a traverse-compatible
    walk over its raw entries; the carried-over intervals are walked by
    the first leaf of a series of calls only.  The state carries
    [props.notFirstCall]. *)
Definition leafTraverse (d : DataNode D) (st : U * bool)
  : (U * bool) * option bool :=
  let '(u, notFirstCall) := st in
  if notFirstCall then
    let '(u', go) := everyEntry (startList d) u in ((u', true), Some go)
  else
    let '(u1, go1) := everyEntry (leafContinuedList d) u in
    if go1 then
      let '(u2, go2) := everyEntry (startList d) u1 in ((u2, true), Some go2)
    else ((u1, false), Some false).

Definition falsy (r : option bool) : bool :=
  match r with Some true => false | _ => true end.

(** Modelled from the spec: [super.traverse], the generic per-bucket
    depth-first walk of the tree shell over the buckets that intersect
    [chrRange], in order.  It sets [props.notFirstCall] after each bucket
    and stops with [false] as soon as the traversal of a present bucket
    returns a falsy value.  [ks] and [vs] are [keys] and [values] from
    [currIndex] on, and [child] is [traverse] on a child node. *)
Fixpoint superTraverse
    (child : Node -> U * bool -> Result ((U * bool) * option bool))
    (cr : CR) (skipping : bool) (ks : list Z) (vs : list Slot)
    (st : U * bool) {struct vs} : Result ((U * bool) * option bool) :=
  match vs with
  | [] => Ok (st, Some true)
  | b :: vs' =>
      if skipping && Js.leU (hd_error (tl ks)) (start cr)
      then superTraverse child cr true (tl ks) vs' st
      else if Js.ltU (hd_error ks) (end_ cr) then
        do r <-
          match b with
          | Branch c => child c st
          | Leaf d => Ok (leafTraverse d st)
          | _ => Ok (st, Some true)
          end;
        let '(st', ret) := r in
        if isPresent (Some b) && falsy ret
        then Ok (st', Some false)
        else superTraverse child cr false (tl ks) vs' (fst st', true)
      else Ok (st, Some true)
  end.

(** [traverse (chrRange, callback, filter, breakOnFalse, props)].  The
    result is the returned value ([None] for [undefined]). *)
Fixpoint traverse (n : Node) (chrRange : option CR) (st : U * bool)
    {struct n} : Result ((U * bool) * option bool) :=
  match chrRange with
  | Some cr =>
      let res := requestedResolution cr propsRes in
      if (nstart n <? end_ cr) && (start cr <? nend n) then
        if resolutionEnough n (Some res) && hasData n then
          let '(u', r) :=
            _callFuncOnDataEntry (summaryChromRegion n) (fst st) in
          Ok ((u', snd st), Some r)
        else
          match n with
          | mkNode _ _ _ _ ks0 vs0 _ _ =>
              superTraverse (fun c => traverse c chrRange) cr true ks0 vs0 st
          end
      else Ok (st, None)
  | None => Throw "undefined is not a valid chrRegion."
  end.

End Traverse.

(** ** Uncached ranges *)

(** [props] of the two queries. *)
Record QueryProps : Type := mkQuery {
  queryResolution : option Z;
  bufferingRatio : option Q;
  _result : option (list CR)
}.

(** [props.bufferingRatio = props.bufferingRatio || 1], then the
    correction of a ratio below 1, with its diagnostic. *)
Definition normalizeRatio (p : QueryProps) (log : list string)
  : Q * list string :=
  let ratio :=
    match bufferingRatio p with
    | Some q => if Qeq_bool q 0 then 1%Q else q
    | None => 1%Q
    end in
  if Qle_bool 1 ratio then (ratio, log)
  else (1%Q,
        log ++ ["Invalid bufferingRatio. Should be greater than 1. Changed to 1 instead."%string]).

Definition setEnd (c : CR) (e : Z) : CR :=
  mkRegion (start c) e (resolution c) (payload c).

Definition sameResolution (a : option Z) (b : Z) : bool :=
  match a with Some x => x =? b | None => false end.

(** The last step of the loop body of [getUncachedRange]: the range
    extends the last entry of [props._result] when that entry has the same
    resolution and ends where the range starts, and is pushed otherwise. *)
Fixpoint pushRange (res : list CR) (closest rs re : Z) : list CR :=
  match res with
  | [] => [mkRegion rs re (Some closest) None]
  | l :: t =>
      match t with
      | [] =>
          if sameResolution (resolution l) closest && (end_ l =? rs)
          then [setEnd l re]
          else [l; mkRegion rs re (Some closest) None]
      | _ => l :: pushRange t closest rs re
      end
  end.

(** The range [getUncachedRange] reports for a bucket [keys[i], keys[i+1])
    that lacks data. *)
Definition retrieveRange (cr : CR) (closest k0 k1 : Z) : Z * Z :=
  (Js.Math_max k0
     (fitResolution (inject_Z (start cr)) closest (Some Js.Math_floor)),
   Js.Math_min k1
     (fitResolution (inject_Z (end_ cr)) closest (Some Js.Math_ceil))).

(** The two loops of [getUncachedRange]: the first skips the buckets that
    end at or before [chrRange.start], the second works on the buckets that
    start before [chrRange.end].  [ks] and [vs] are [keys] and [values]
    from [currIndex] on, and [child] is [getUncachedRange] on a child. *)
Fixpoint uncachedWalk
    (child : Node -> QueryProps -> list string
             -> Result (QueryProps * list string))
    (n : Node) (cr : CR) (res : Z) (ratio : Q)
    (skipping : bool) (ks : list Z) (vs : list Slot)
    (p : QueryProps) (log : list string) {struct vs}
  : Result (QueryProps * list string) :=
  match vs with
  | [] => Ok (p, log)
  | b :: vs' =>
      if skipping && Js.leU (hd_error (tl ks)) (start cr)
      then uncachedWalk child n cr res ratio true (tl ks) vs' p log
      else if Js.ltU (hd_error ks) (end_ cr) then
        do r <-
          (if isPresent (Some b) && negb (bucketResolutionEnough n res b)
           then
             match b with
             | Branch c => child c p log
             | _ => Unmodelled
             end
           else if negb (bucketHasData b) then
             let closest :=
               _getClosestResolution (floorLogQuot num) tree
                 (inject_Z res / ratio) in
             match hd_error ks, hd_error (tl ks) with
             | Some k0, Some k1 =>
                 let '(rs, re) := retrieveRange cr closest k0 k1 in
                 Ok (mkQuery (queryResolution p) (bufferingRatio p)
                       (Some (pushRange (Js.orElse (_result p) [])
                                closest rs re)),
                     log)
             | _, _ => Unmodelled
             end
           else Ok (p, log));
        uncachedWalk child n cr res ratio false (tl ks) vs' (fst r) (snd r)
      else Ok (p, log)
  end.

(** [getUncachedRange (chrRange, props)].  The returned array is
    [props._result] of the resulting [props]; the second component is the
    log. *)
Fixpoint getUncachedRange (n : Node) (chrRange : option CR)
    (p : QueryProps) (log : list string) {struct n}
  : Result (QueryProps * list string) :=
  match chrRange with
  | Some cr =>
      let res := requestedResolution cr (queryResolution p) in
      let '(ratio, log) := normalizeRatio p log in
      let p :=
        mkQuery (queryResolution p) (Some ratio)
          (Some (Js.orElse (_result p) [])) in
      match n with
      | mkNode _ _ _ _ ks0 vs0 _ _ =>
          uncachedWalk (fun c => getUncachedRange c chrRange)
            n cr res ratio true ks0 vs0 p log
      end
  | None => Throw "TypeError: Cannot read property 'resolution' of undefined"
  end.

(** The two loops of [hasUncachedRange]. *)
Fixpoint hasUncachedWalk (child : Node -> Result bool)
    (n : Node) (cr : CR) (res : Z)
    (skipping : bool) (ks : list Z) (vs : list Slot) {struct vs}
  : Result bool :=
  match vs with
  | [] => Ok false
  | b :: vs' =>
      if skipping && Js.leU (hd_error (tl ks)) (start cr)
      then hasUncachedWalk child n cr res true (tl ks) vs'
      else if Js.ltU (hd_error ks) (end_ cr) then
        if isPresent (Some b) && negb (bucketResolutionEnough n res b)
        then
          match b with
          | Branch c =>
              do found <- child c;
              if found then Ok true
              else hasUncachedWalk child n cr res false (tl ks) vs'
          | _ => Unmodelled
          end
        else if negb (bucketHasData b) then Ok true
        else hasUncachedWalk child n cr res false (tl ks) vs'
      else Ok false
  end.

(** [hasUncachedRange (chrRange, props)] *)
Fixpoint hasUncachedRange (n : Node) (chrRange : option CR)
    (p : QueryProps) {struct n} : Result bool :=
  match chrRange with
  | Some cr =>
      let res := requestedResolution cr (queryResolution p) in
      match n with
      | mkNode _ _ _ _ ks0 vs0 _ _ =>
          hasUncachedWalk (fun c => hasUncachedRange c chrRange p)
            n cr res true ks0 vs0
      end
  | None => Throw "TypeError: Cannot read property 'resolution' of undefined"
  end.

End Node.

Arguments mkProps {D} propsResolution continuedList dataIndex hasCallback
  leafNodeCtorOk.
Arguments mkCtx {D} data props fired logged.
Arguments mkQuery {D} queryResolution bufferingRatio _result.
Arguments Props : clear implicits.
Arguments Ctx : clear implicits.
Arguments QueryProps : clear implicits.

(** ** A concrete summary type: the number of raw entries

    An interval value carries either an identifier of a raw entry or a
    precomputed count.  [extract] recognises a count carried by an
    interval, and a summary object handed over in place of one. *)

Module Count.

Inductive Payload : Type :=
| Raw (id : nat)
| Counted (count : Z).

#[global] Instance protocol : SummaryCtor Payload Z := {
  newSummary := 0;
  extract v :=
    match v with
    | Region c =>
        match payload c with
        | Some (Counted z) => Instance z
        | _ => NotThere
        end
    | SummaryObj s => Instance s
    end;
  addSummary _ acc child :=
    match child with Some s => acc + s | None => acc end;
  addDataFromChromEntry _ acc _ := acc + 1;
  attach s c := mkRegion (start c) (end_ c) (resolution c) (Some (Counted s))
}.

(** The callback of the scenarios records what it is handed and asks to
    go on. *)
Definition record (e : option (JsVal Payload Z))
    (u : list (option (JsVal Payload Z)))
  : list (option (JsVal Payload Z)) * bool :=
  (u ++ [e], true).

End Count.

(** ** Scenario A of the specification *)

Module ScenarioA.

Import Count.

Definition tree : GiveTree := mkTree 10 100 true.

Definition root : PineNode Payload Z :=
  newPineNode exactLogs tree true 0 100000.

Definition E : ChromRegion Payload := mkRegion 500 600 None (Some (Raw 1)).
Definition R : ChromRegion Payload := mkRegion 0 100000 None None.

Definition ctx0 : Ctx Payload :=
  mkCtx [E] (mkProps None None None false true) [] [].

(** [root.insert ([E])]: the range of the insertion is the entry. *)
Definition inserted : Result (PineNode Payload Z * Ctx Payload * bool) :=
  insert exactLogs tree 5 root None ctx0.

(** [root.insert ([E], R)]: the range of the insertion is the span. *)
Definition insertedOverSpan
  : Result (PineNode Payload Z * Ctx Payload * bool) :=
  insert exactLogs tree 5 root (Some R) ctx0.

Definition emitted (n : PineNode Payload Z) (q : ChromRegion Payload)
  : Result (list (option (JsVal Payload Z))) :=
  do r <- traverse tree record None false None n (Some q) ([], false);
  Ok (fst (fst r)).

(** Scenario B: no data over [0, 10000). *)
Definition insertedEmpty
  : Result (PineNode Payload Z * Ctx Payload * bool) :=
  insert exactLogs tree 5 root (Some (mkRegion 0 10000 None None))
    (mkCtx [] (mkProps None None None false true) [] []).

(** A precomputed summary for the whole span, inserted at the resolution
    of the root. *)
Definition E5 : ChromRegion Payload :=
  mkRegion 0 100000 None (Some (Counted 5)).
Definition R5 : ChromRegion Payload := mkRegion 0 100000 (Some 100000) None.

Definition insertedCoarse
  : Result (PineNode Payload Z * Ctx Payload * bool) :=
  insert exactLogs tree 5 root (Some R5)
    (mkCtx [E5] (mkProps None None None false true) [] []).

(** The root once the precomputed summary is installed. *)
Definition coarseRoot : PineNode Payload Z :=
  mkNode true 0 100000 3 [0; 100000] [Unknown] (Some 5) (Some (Region E5)).

(** A precomputed summary for the cell [0, 100), inserted at resolution
    100 into the empty tree. *)
Definition E3 : ChromRegion Payload := mkRegion 0 100 None (Some (Counted 3)).
Definition R3 : ChromRegion Payload := mkRegion 0 100 (Some 100) None.

Definition insertedCell
  : Result (PineNode Payload Z * Ctx Payload * bool) :=
  insert exactLogs tree 5 root (Some R3)
    (mkCtx [E3] (mkProps None None None false true) [] []).

(** The query over that cell: at the requested resolution [res], with the
    buffering ratio [ratio]. *)
Definition cellQuery (res : Z) : ChromRegion Payload :=
  mkRegion 0 100 (Some res) None.
Definition cellProps (ratio : option Q) : QueryProps Payload :=
  mkQuery None ratio None.

End ScenarioA.

(** ** [Math.log] in IEEE binary64 *)

Module Binary64.

(** [Math.floor] of a finite binary64 number. *)
Definition Math_floor (x : float) : Z :=
  match Prim2SF x with
  | S754_finite sign m e =>
      let down := if 0 <=? e then Zpos m * 2 ^ e else Zpos m / 2 ^ (- e) in
      let up := if 0 <=? e then Zpos m * 2 ^ e
                else (Zpos m + 2 ^ (- e) - 1) / 2 ^ (- e) in
      if sign then - up else down
  | _ => 0
  end.

(** The values of [Math.log] at the two arguments used below (the
    binary64 numbers nearest to ln 1000 and ln 10, which is what the
    JavaScript engines return: 6.907755278982137 and
    2.302585092994046). *)
Definition Math_log (x : Q) : float :=
  if Qeq_bool x 1000 then 0x1.ba18a998fffa0p+2%float
  else if Qeq_bool x 10 then 0x1.26bb1bbb55516p+1%float
  else nan.

(** The quotients of logarithms with the binary64 quotient where the
    table above has the arguments. *)
Definition logs : LogNumerics :=
  {| floorLogQuot := fun b x =>
       if Qeq_bool x 1000 && (b =? 10)
       then Math_floor (Math_log x / Math_log (inject_Z b))%float
       else floorLog b x;
     ceilLogDiffQuot := ceilLogDiffQuot exactLogs |}.

End Binary64.

(** ** Well-formed nodes, and where data is missing *)

Section Shape.

Context {D Smry : Type}.
Variable tree : GiveTree.

Local Notation Node := (PineNode D Smry).
Local Notation Slot := (Bucket D Smry).
Local Notation CR := (ChromRegion D).

(** The invariant of the data model on [keys] and [values]: one key more
    than buckets, keys strictly increasing, and a child node owning
    exactly the range of its bucket. *)
Fixpoint bucketsWellFormed (child : Node -> bool) (ks : list Z)
    (vs : list Slot) {struct vs} : bool :=
  match vs with
  | [] => match ks with [_] => true | _ => false end
  | b :: vs' =>
      match ks with
      | k0 :: ((k1 :: _) as ks') =>
          (k0 <? k1)
          && match b with
             | Branch c => child c && (nstart c =? k0) && (nend c =? k1)
             | _ => true
             end
          && bucketsWellFormed child ks' vs'
      | _ => false
      end
  end.

Fixpoint wellFormed (n : Node) : bool :=
  match n with
  | mkNode _ s e _ ks vs _ _ =>
      match ks with k :: _ => k =? s | [] => false end
      && (last ks s =? e)
      && bucketsWellFormed wellFormed ks vs
  end.

(** Whether the bucket is one the two queries descend into, and whether it
    is one they report. *)
Definition descends (n : Node) (res : Z) (b : Slot) : bool :=
  isPresent (Some b) && negb (bucketResolutionEnough tree n res b).
Definition lacksData (b : Slot) : bool := negb (bucketHasData b).

(** The buckets [keys[i], keys[i+1]) without data that the walk of the two
    queries meets over [s, e), in order. *)
Fixpoint gapsWalk (child : Node -> list (Z * Z)) (n : Node) (s e res : Z)
    (skipping : bool) (ks : list Z) (vs : list Slot) {struct vs}
  : list (Z * Z) :=
  match vs with
  | [] => []
  | b :: vs' =>
      if skipping && Js.leU (hd_error (tl ks)) s
      then gapsWalk child n s e res true (tl ks) vs'
      else if Js.ltU (hd_error ks) e then
        (if descends n res b then
           match b with Branch c => child c | _ => [] end
         else if lacksData b then
           match hd_error ks, hd_error (tl ks) with
           | Some k0, Some k1 => [(k0, k1)]
           | _, _ => []
           end
         else [])
        ++ gapsWalk child n s e res false (tl ks) vs'
      else []
  end.

Fixpoint gaps (n : Node) (s e res : Z) {struct n} : list (Z * Z) :=
  match n with
  | mkNode _ _ _ _ ks vs _ _ =>
      gapsWalk (fun c => gaps c s e res) n s e res true ks vs
  end.

(** Whether the coordinate [x] lies in a bucket without data, descending
    as the queries do. *)
Fixpoint gapAtWalk (child : Node -> bool) (n : Node) (res x : Z)
    (ks : list Z) (vs : list Slot) {struct vs} : bool :=
  match vs with
  | [] => false
  | b :: vs' =>
      match hd_error ks, hd_error (tl ks) with
      | Some k0, Some k1 =>
          if (k0 <=? x) && (x <? k1) then
            if descends n res b then
              match b with Branch c => child c | _ => false end
            else lacksData b
          else gapAtWalk child n res x (tl ks) vs'
      | _, _ => false
      end
  end.

Fixpoint gapAt (n : Node) (res x : Z) {struct n} : bool :=
  match n with
  | mkNode _ _ _ _ ks vs _ _ =>
      gapAtWalk (fun c => gapAt c res x) n res x ks vs
  end.

(** What [getUncachedRange] makes of a list of buckets without data: each
    is reported through [retrieveRange] and [pushRange], in order. *)
Definition reportAll (cr : CR) (closest : Z) (gs : list (Z * Z))
    (acc : list CR) : list CR :=
  fold_left
    (fun acc g =>
       let '(rs, re) := retrieveRange cr closest (fst g) (snd g) in
       pushRange acc closest rs re)
    gs acc.

(** Buckets in order between [lo] and [hi], none of them empty. *)
Fixpoint chain (lo : Z) (gs : list (Z * Z)) (hi : Z) : Prop :=
  match gs with
  | [] => lo <= hi
  | g :: t => lo <= fst g /\ fst g < snd g /\ chain (snd g) t hi
  end.

Definition nonEmpty {A : Type} (l : list A) : bool :=
  match l with [] => false | _ => true end.

(** The ranges of a result cover [x]. *)
Definition covers (l : list CR) (x : Z) : Prop :=
  exists r, In r l /\ start r <= x < end_ r.

(** A start-ordered sequence of disjoint, non-empty ranges. *)
Fixpoint orderedDisjoint (l : list CR) : Prop :=
  match l with
  | [] => True
  | a :: t =>
      start a < end_ a
      /\ match t with b :: _ => end_ a <= start b | [] => True end
      /\ orderedDisjoint t
  end.

(** The summary a full recomputation can fold a bucket into: the test of
    the callback of [every] in [updateSummary]. *)
Definition bucketFolds (rd : Z) (b : Slot) : bool :=
  match b with
  | KnownEmpty => true
  | Unknown => false
  | Branch c => if rd >? 0 then hasData c else true
  | Leaf _ => true
  end.


(** The buckets of a node of reverse depth 0 are leaves, not nodes. *)
Definition tierTyped (n : Node) : Prop :=
  0 < reverseDepth n \/ forall c, ~ In (Branch c) (values n).

End Shape.

(** No valid precomputed summary is handed to [updateSummary]. *)
Definition noPrecomputed {D Smry : Type} {SC : SummaryCtor D Smry}
    (chromEntry : option (JsVal D Smry)) : Prop :=
  match chromEntry with
  | Some v => forall s, extract v <> Instance s
  | None => True
  end.

(** ** Outcomes with a postcondition

    [post P Q r]: when the call returns, its result satisfies [P]; when it
    throws, the message satisfies [Q]. *)

Definition post {A : Type} (P : A -> Prop) (Q : string -> Prop)
    (r : Result A) : Prop :=
  match r with
  | Ok a => P a
  | Throw m => Q m
  | Unmodelled => True
  end.

(** ** What an insertion keeps *)

Section Kept.

Context {D Smry : Type}.
Variable tree : GiveTree.

Local Notation Node := (PineNode D Smry).
Local Notation Slot := (Bucket D Smry).
Local Notation CR := (ChromRegion D).

(** The part of a node that no method of [PineNode] assigns after the
    constructor. *)
Definition header (n : Node) : bool * Z * Z * Z :=
  (isRoot n, nstart n, nend n, reverseDepth n).

(** The keys run from the start of the node to its end, and there is one
    key more than there are buckets. *)
Definition spans (n : Node) : Prop :=
  hd_error (keys n) = Some (nstart n)
  /\ last (keys n) (nstart n) = nend n
  /\ List.length (keys n) = S (List.length (values n)).

(** The summary is there whenever a recomputation would succeed: whenever
    every bucket is one that [updateSummary] folds. *)
Definition complete (n : Node) : Prop :=
  hasSummaryCtor tree = true ->
  forallb (bucketFolds (reverseDepth n)) (values n) = true ->
  hasData n = true.

(** A property of every child node among the buckets. *)
Fixpoint bucketsAll (child : Node -> Prop) (vs : list Slot) : Prop :=
  match vs with
  | [] => True
  | Branch c :: vs' => child c /\ bucketsAll child vs'
  | _ :: vs' => bucketsAll child vs'
  end.

(** [complete] at every node of the tree. *)
Fixpoint sound (n : Node) : Prop :=
  complete n
  /\ match n with
     | mkNode _ _ _ _ _ vs _ _ => bucketsAll sound vs
     end.

(** What a step of an insertion keeps of a node. *)
Definition preserved (n n' : Node) : Prop :=
  header n' = header n
  /\ (bucketsAll sound (values n) -> bucketsAll sound (values n')).

(** [spans] at every node of the tree. *)
Fixpoint framed (n : Node) : Prop :=
  spans n
  /\ match n with
     | mkNode _ _ _ _ _ vs _ _ => bucketsAll framed vs
     end.

(** The keys are one coordinate for each bucket, all before the end of
    the node and the first of them its start, followed by the end of the
    node. *)
Definition shaped (n : Node) : Prop :=
  exists front,
    keys n = front ++ [nend n]
    /\ List.length front = List.length (values n)
    /\ hd_error (keys n) = Some (nstart n)
    /\ Forall (fun k => k < nend n) front.

Definition notKnownEmpty (b : Slot) : Prop := b <> KnownEmpty.

(** A tree in which no range has been marked as empty yet: every node is
    [shaped], and no bucket is KnownEmpty. *)
Fixpoint unmarked (n : Node) : Prop :=
  shaped n
  /\ match n with
     | mkNode _ _ _ _ _ vs _ _ =>
         Forall notKnownEmpty vs /\ bucketsAll unmarked vs
     end.

(** What an insertion does to its context: entries leave the queue from
    the front, the callback is handed entries of the queue only (and none
    without a callback), the log grows, and the settings of [props] stay. *)
Definition consumed (c c' : Ctx D) : Prop :=
  (exists k, data c' = skipn k (data c))
  /\ (exists fs, fired c' = fired c ++ fs
        /\ (forall x, In x fs -> In x (data c))
        /\ (hasCallback (props c) = false -> fs = []))
  /\ (exists ls, logged c' = logged c ++ ls)
  /\ hasCallback (props c') = hasCallback (props c)
  /\ leafNodeCtorOk (props c') = leafNodeCtorOk (props c)
  /\ propsResolution (props c') = propsResolution (props c).

(** What the leaf fan-out does to its context while it works: the queue
    itself stays, the cursor [props.dataIndex] moves from [d] to [d'], and
    the callback is handed the entries the cursor passes, in order. *)
Definition moved (d d' : Z) (c c' : Ctx D) : Prop :=
  data c' = data c
  /\ d <= d'
  /\ fired c'
     = fired c ++ (if hasCallback (props c) then slice (data c) d d' else [])
  /\ logged c' = logged c
  /\ hasCallback (props c') = hasCallback (props c)
  /\ leafNodeCtorOk (props c') = leafNodeCtorOk (props c)
  /\ propsResolution (props c') = propsResolution (props c).

End Kept.

(** ** Results of [getUncachedRange] *)

(** Consecutive ranges do not touch: each ends before the next starts. *)
Fixpoint separated {D : Type} (l : list (ChromRegion D)) : Prop :=
  match l with
  | [] => True
  | a :: t =>
      match t with b :: _ => end_ a < start b | [] => True end
      /\ separated t
  end.

(** A range tagged with the resolution [c] that lies in [a, b]. *)
Definition taggedWithin {D : Type} (c a b : Z) (r : ChromRegion D) : Prop :=
  resolution r = Some c /\ a <= start r /\ end_ r <= b.

(** The message of [insert] for a missing range. *)
Definition missingRange : string := "undefined is not a valid chrRegion.".

(** ** Removal *)

Section Remove.

Context {D Smry : Type}.

Local Notation Node := (PineNode D Smry).
Local Notation Slot := (Bucket D Smry).
Local Notation CR := (ChromRegion D).

(** The state of the caller that [props.callback] works on, and the parts
    of [remove] that belong to other classes: the value equality
    [_compareData (data, this)] of the tree shell, its [clear (convertTo)],
    the optional callback, and [remove] of a leaf (with [data],
    [exactMatch], [convertTo] and [props] already supplied), which gives
    the leaf and the state it leaves and whether what it returns is
    truthy.  Nothing is assumed of them. *)
Variable U : Type.
Variable _compareData : CR -> Node -> bool.
Variable clear : Node -> Slot -> Node.
Variable callback : option (Node -> U -> Node * U).
Variable leafRemove : DataNode D -> U -> Result (DataNode D * U * bool).

(** [while (i < this.values.length && this.keys[i + 1] <= x) { i++ }];
    [ks] and [vs] are [keys] and [values] from [i] on. *)
Fixpoint locate (ks : list Z) (vs : list Slot) (x i : Z) : Z :=
  match vs with
  | [] => i
  | _ :: vs' =>
      if Js.leU (hd_error (tl ks)) x
      then locate (tl ks) vs' x (i + 1)
      else i
  end.

(** [this.values[i].remove (...)] when [this.values[i]] is truthy: the
    bucket after the call and whether the call returned a truthy value;
    [None] when [this.values[i]] is [null], [false] or [undefined].
    [child] is [remove] on a child node. *)
Fixpoint removeBelow
    (child : Node -> U -> list string -> Result (Node * U * list string * bool))
    (vs : list Slot) (i : nat) (u : U) (log : list string) {struct vs}
  : Result (option (Slot * bool) * U * list string) :=
  match vs with
  | [] => Ok (None, u, log)
  | b :: vs' =>
      match i with
      | O =>
          match b with
          | Branch c =>
              do r <- child c u log;
              let '(c', u', log', kept) := r in
              Ok (Some (Branch c', kept), u', log')
          | Leaf l =>
              do r <- leafRemove l u;
              let '(l', u', kept) := r in
              Ok (Some (Leaf l', kept), u', log)
          | _ => Ok (None, u, log)
          end
      | S j => removeBelow child vs' j u log
      end
  end.

(** Modelled from the spec: [this.firstChild !== null &&
    this.firstChild !== false], with the getter [firstChild] of the tree
    shell giving the first bucket ([undefined] when there is none); a node
    is kept when it holds more than one bucket or a first bucket that is
    a child or a leaf. *)
Definition firstChildHeld (n : Node) : bool :=
  match values n with
  | [] => true
  | b :: _ => isPresent (Some b)
  end.

(** [remove (data, exactMatch, convertTo, props)].  The result is the
    node, the state of the caller, the log, and whether the returned
    value is truthy ([this], or [true] for the root that was cleared). *)
Fixpoint remove (n : Node) (target : CR) (exactMatch : bool)
    (convertTo : Slot) (u : U) (log : list string) {struct n}
  : Result (Node * U * list string * bool) :=
  if (nstart n =? start target) && (nend n =? end_ target)
     && (negb exactMatch || _compareData target n)
  then
    let '(n, u) := match callback with Some f => f n u | None => (n, u) end in
    Ok (clear n convertTo, u, log, isRoot n)
  else
    let i := locate (keys n) (values n) (start target) 0 in
    do r <-
      match n with
      | mkNode _ _ _ _ _ vs _ _ =>
          removeBelow (fun c => remove c target exactMatch convertTo)
            vs (Z.to_nat i) u log
      end;
    let '(found, u, log) := r in
    let '(n, log) :=
      match found with
      | Some (b, kept) =>
          let n := with_values n (keys n) (Js.assign (values n) i b) in
          (if kept then n
           else fst (_mergeChild
                       (with_values n (keys n)
                          (Js.assign (values n) i convertTo))
                       i true),
           log)
      | None => (n, log ++ ["Data is not found in the tree."%string])
      end in
    Ok (n, u, log, (1 <? Z.of_nat (List.length (values n)))
                   || firstChildHeld n).

End Remove.

(** ** Scenario D of the specification

    The tree of scenario A after [root.insert ([E])], from which [E] is
    removed again. *)
Module ScenarioD.

Import Count.

Definition holding : PineNode Payload Z :=
  Eval vm_compute in
    match ScenarioA.inserted with
    | Ok (n, _, _) => n
    | _ => ScenarioA.root
    end.

(** Modelled from the spec: [clear (convertTo)] of the tree shell, which
    clears the contents of the node to [convertTo]: one bucket over the
    range of the node. *)
Definition clear (n : PineNode Payload Z) (convertTo : Bucket Payload Z)
  : PineNode Payload Z :=
  with_values n [nstart n; nend n] [convertTo].

(** A region outside every child of [holding]. *)
Definition elsewhere : ChromRegion Payload := mkRegion 20000 20100 None None.

End ScenarioD.

(** ** Factors that are not integers

    The factors of a tree are plain numbers: the tree handle asks for
    [scalingFactor > 1] and [leafScalingFactor >= 1] only.  This is
    [_getResolutionAtDepth] and the getter [resolution] for such factors,
    in exact arithmetic; with integer factors they are the functions of
    the same names above. *)

Module Fractional.

(** [_getResolutionAtDepth (revDepth)] *)
Definition _getResolutionAtDepth (scalingFactor leafScalingFactor : Q)
    (revDepth : Z) : Z :=
  Js.parseInt (Js.Math_floor
    (Qpower scalingFactor revDepth * leafScalingFactor)).

(** [get resolution ()] *)
Definition nodeResolution {D Smry : Type}
    (scalingFactor leafScalingFactor : Q) (n : PineNode D Smry) : Z :=
  _getResolutionAtDepth scalingFactor leafScalingFactor (reverseDepth n).

End Fractional.

(** ** A summary type that reads embedded summaries only

    Modelled from the spec: the summary type extracts a summary from an
    interval that carries one.  The spec does not say what [extract] makes
    of a bare summary object; this summary type counts entries like
    [Count.protocol] but does not recognise one. *)

Module Embedded.

Import Count.

Definition protocol : SummaryCtor Payload Z := {|
  newSummary := 0;
  extract := fun v =>
    match v with
    | Region c =>
        match payload c with
        | Some (Counted z) => Instance z
        | _ => NotThere
        end
    | SummaryObj _ => NotThere
    end;
  addSummary := fun _ acc child =>
    match child with Some s => acc + s | None => acc end;
  addDataFromChromEntry := fun _ acc _ => acc + 1;
  attach := fun s c =>
    mkRegion (start c) (end_ c) (resolution c) (Some (Counted s))
|}.

End Embedded.

(** * Verification *)

Unset Implicit Arguments.

(** ** Rounding of rationals *)

Lemma Qfloor_unique (z : Z) (x : Q) :
  (inject_Z z <= x)%Q -> (x < inject_Z (z + 1))%Q -> Qfloor x = z.
Proof.
  intros Hlo Hhi.
  pose proof (Qfloor_le x) as Hf1.
  pose proof (Qlt_floor x) as Hf2.
  assert (Qfloor x < z + 1).
  { rewrite Zlt_Qlt. eapply Qle_lt_trans; eauto. }
  assert (z < Qfloor x + 1).
  { rewrite Zlt_Qlt. eapply Qle_lt_trans; eauto. }
  lia.
Qed.

Lemma inject_Z_pos (r : Z) : 0 < r -> (0 < inject_Z r)%Q.
Proof. intros H. change 0%Q with (inject_Z 0). now rewrite <- Zlt_Qlt. Qed.

Lemma Qfloor_div (a r : Z) : 0 < r -> Qfloor (Js.div a r) = a / r.
Proof.
  intros Hr. unfold Js.div. apply Qfloor_unique.
  - apply Qle_shift_div_l; [now apply inject_Z_pos|].
    rewrite <- inject_Z_mult. rewrite <- Zle_Qle.
    rewrite Z.mul_comm. apply Z.mul_div_le. lia.
  - apply Qlt_shift_div_r; [now apply inject_Z_pos|].
    rewrite <- inject_Z_mult. rewrite <- Zlt_Qlt.
    pose proof (Z.mul_succ_div_gt a r Hr). lia.
Qed.

Lemma Qceiling_div (a r : Z) : 0 < r -> Qceiling (Js.div a r) = - ((- a) / r).
Proof.
  intros Hr. unfold Qceiling. f_equal.
  rewrite <- (Qfloor_div (- a) r Hr).
  apply Qfloor_comp. unfold Js.div. rewrite inject_Z_opp.
  field. intro H0. apply inject_Z_pos in Hr. rewrite H0 in Hr.
  now apply Qlt_irrefl in Hr.
Qed.

Lemma Math_round_div (a r : Z) :
  0 < r -> Js.Math_round (Js.div a r) = (2 * a + r) / (2 * r).
Proof.
  intros Hr. unfold Js.Math_round.
  rewrite <- (Qfloor_div (2 * a + r) (2 * r)) by lia.
  apply Qfloor_comp. unfold Js.div.
  rewrite inject_Z_plus, !inject_Z_mult.
  assert (~ inject_Z r == 0)%Q.
  { intro H0. apply inject_Z_pos in Hr. rewrite H0 in Hr.
    now apply Qlt_irrefl in Hr. }
  field. assumption.
Qed.

Lemma pow_inject (b d : Z) : 0 <= d -> (Js.pow b d == inject_Z (b ^ d))%Q.
Proof. intros Hd. unfold Js.pow. symmetry. now apply Zpower_Qpower. Qed.

(** [fitResolution] of a coordinate with [Math.floor] and with
    [Math.ceil], on the grid of a positive resolution. *)
Lemma fit_floor (v r : Z) :
  0 < r -> fitResolution (inject_Z v) r (Some Js.Math_floor) = v / r * r.
Proof.
  intros Hr. unfold fitResolution, Js.parseInt, Js.orElse, Js.Math_floor.
  change (inject_Z v / inject_Z r)%Q with (Js.div v r).
  now rewrite Qfloor_div.
Qed.

Lemma fit_ceil (v r : Z) :
  0 < r ->
  fitResolution (inject_Z v) r (Some Js.Math_ceil) = - (- v / r) * r.
Proof.
  intros Hr. unfold fitResolution, Js.parseInt, Js.orElse, Js.Math_ceil.
  change (inject_Z v / inject_Z r)%Q with (Js.div v r).
  now rewrite Qceiling_div.
Qed.

Lemma fit_floor_le (v r : Z) :
  0 < r -> fitResolution (inject_Z v) r (Some Js.Math_floor) <= v.
Proof.
  intros Hr. rewrite fit_floor by assumption.
  rewrite Z.mul_comm. apply Z.mul_div_le. lia.
Qed.

Lemma fit_ceil_ge (v r : Z) :
  0 < r -> v <= fitResolution (inject_Z v) r (Some Js.Math_ceil).
Proof.
  intros Hr. rewrite fit_ceil by assumption.
  pose proof (Z.mul_div_le (- v) r Hr). lia.
Qed.

(** ** Resolution at a tier *)

Lemma tier_resolution_value (t : GiveTree) (d : Z) :
  0 <= d ->
  _getResolutionAtDepth t d = leafScalingFactor t * scalingFactor t ^ d.
Proof.
  intros Hd. unfold _getResolutionAtDepth, Js.parseInt, Js.Math_floor.
  rewrite (Qfloor_comp _ (inject_Z (leafScalingFactor t * scalingFactor t ^ d))).
  - apply Qfloor_Z.
  - rewrite pow_inject by assumption. rewrite inject_Z_mult. ring.
Qed.

Lemma Qpower_step (q : Q) (k k' : Z) :
  (1 <= q)%Q -> 0 <= k < k' -> (q ^ k * q <= q ^ k')%Q.
Proof.
  intros Hq Hk.
  assert (Hq0 : ~ (q == 0)%Q)
    by (intros E; rewrite E in Hq; apply Hq; reflexivity).
  setoid_replace (q ^ k * q)%Q with (q ^ (k + 1))%Q.
  - apply Qpower_le_compat_l; [lia | exact Hq].
  - rewrite Qpower_plus by exact Hq0. reflexivity.
Qed.

Lemma fractional_integer (t : GiveTree) (d : Z) :
  Fractional._getResolutionAtDepth (inject_Z (scalingFactor t))
    (inject_Z (leafScalingFactor t)) d
  = _getResolutionAtDepth t d.
Proof. reflexivity. Qed.

(** C4. In exact arithmetic, for factors [scalingFactor > 1] and
    [leafScalingFactor >= 1] that need not be integers and every reverse
    depth [d >= 0]: [_getResolutionAtDepth d] is
    [floor (leafScalingFactor * scalingFactor ^ d)], which is at least 1
    and does not decrease with [d]; it is strictly increasing in [d] when
    [scalingFactor >= 2], and so for every tree with integer factors,
    where it is [leafScalingFactor * scalingFactor ^ d] itself; and the
    [resolution] getter of every node is this value at the reverse depth
    of the node. *)
Theorem resolution_at_depth (D Smry : Type) (sf lsf : Q) (d : Z) :
  (1 < sf)%Q -> (1 <= lsf)%Q -> 0 <= d ->
  Fractional._getResolutionAtDepth sf lsf d = Qfloor (lsf * sf ^ d)%Q
  /\ 1 <= Fractional._getResolutionAtDepth sf lsf d
  /\ (forall d', d <= d' ->
        Fractional._getResolutionAtDepth sf lsf d
        <= Fractional._getResolutionAtDepth sf lsf d')
  /\ ((2 <= sf)%Q -> forall d', d < d' ->
        Fractional._getResolutionAtDepth sf lsf d
        < Fractional._getResolutionAtDepth sf lsf d')
  /\ (forall n : PineNode D Smry, reverseDepth n = d ->
        Fractional.nodeResolution sf lsf n
        = Qfloor (lsf * sf ^ reverseDepth n)%Q)
  /\ (forall t : GiveTree,
        sf = inject_Z (scalingFactor t) ->
        lsf = inject_Z (leafScalingFactor t) ->
        _getResolutionAtDepth t d = Fractional._getResolutionAtDepth sf lsf d
        /\ _getResolutionAtDepth t d
           = leafScalingFactor t * scalingFactor t ^ d
        /\ (forall d', d < d' ->
              _getResolutionAtDepth t d < _getResolutionAtDepth t d')
        /\ (forall n : PineNode D Smry, reverseDepth n = d ->
              nodeResolution t n
              = Qfloor (lsf * sf ^ reverseDepth n)%Q)).
Proof.
  intros Hsf Hlsf Hd.
  assert (Hsf1 : (1 <= sf)%Q) by now apply Qlt_le_weak.
  assert (Hfloor : forall k,
    Fractional._getResolutionAtDepth sf lsf k = Qfloor (lsf * sf ^ k)%Q).
  { intros k.
    unfold Fractional._getResolutionAtDepth, Js.parseInt, Js.Math_floor.
    apply Qfloor_comp. ring. }
  assert (Hval : forall k, 0 <= k -> (1 <= lsf * sf ^ k)%Q).
  { intros k Hk. setoid_replace 1%Q with (1 * 1)%Q at 1 by ring.
    apply Qmult_le_compat_nonneg; split;
      solve [assumption | discriminate | apply Qpower_1_le; assumption]. }
  assert (Hone : forall k, 0 <= k ->
    1 <= Fractional._getResolutionAtDepth sf lsf k).
  { intros k Hk. rewrite Hfloor. rewrite <- (Qfloor_Z 1).
    apply Qfloor_resp_le. now apply Hval. }
  assert (Hmono : forall k k', 0 <= k <= k' ->
    Fractional._getResolutionAtDepth sf lsf k
    <= Fractional._getResolutionAtDepth sf lsf k').
  { intros k k' Hk. rewrite !Hfloor. apply Qfloor_resp_le.
    apply Qmult_le_compat_nonneg; split;
      [ apply Qle_trans with 1%Q; [discriminate|exact Hlsf]
      | apply Qle_refl
      | apply Qle_trans with 1%Q;
          [discriminate|apply Qpower_1_le; [assumption|lia]]
      | apply Qpower_le_compat_l; [lia|assumption] ]. }
  assert (Hstrict : (2 <= sf)%Q -> forall k k', 0 <= k < k' ->
    Fractional._getResolutionAtDepth sf lsf k
    < Fractional._getResolutionAtDepth sf lsf k').
  { intros H2 k k' Hk.
    pose proof (Hone k ltac:(lia)) as H1. rewrite Hfloor in H1.
    rewrite !Hfloor.
    set (x := (lsf * sf ^ k)%Q) in *.
    assert (Hx0 : (0 <= x)%Q)
      by (apply Qle_trans with 1%Q; [discriminate|apply Hval; lia]).
    assert (Hdouble : (inject_Z (2 * Qfloor x) <= lsf * sf ^ k')%Q).
    { apply Qle_trans with (x * 2)%Q.
      - rewrite inject_Z_mult, Qmult_comm.
        apply Qmult_le_compat_r; [apply Qfloor_le | discriminate].
      - apply Qle_trans with (x * sf)%Q.
        + rewrite !(Qmult_comm x). apply Qmult_le_compat_r; assumption.
        + unfold x. rewrite <- Qmult_assoc.
          rewrite !(Qmult_comm lsf).
          apply Qmult_le_compat_r;
            [ now apply Qpower_step
            | apply Qle_trans with 1%Q; [discriminate|exact Hlsf] ]. }
    apply Qfloor_resp_le in Hdouble. rewrite Qfloor_Z in Hdouble. lia. }
  split; [apply Hfloor|]. split; [now apply Hone|].
  split; [intros d' Hd'; apply Hmono; lia|].
  split; [intros H2 d' Hd'; apply Hstrict; [exact H2 | lia]|].
  split; [intros n Hn; unfold Fractional.nodeResolution; apply Hfloor|].
  intros t -> ->.
  assert (Hint : (2 <= inject_Z (scalingFactor t))%Q).
  { change 2%Q with (inject_Z 2). rewrite <- Zle_Qle.
    change 1%Q with (inject_Z 1) in Hsf. rewrite <- Zlt_Qlt in Hsf. lia. }
  split; [reflexivity|]. split.
  { apply tier_resolution_value. exact Hd. }
  split.
  - intros d' Hd'. rewrite <- !fractional_integer.
    apply Hstrict; [exact Hint | lia].
  - intros n Hn. unfold nodeResolution. rewrite <- fractional_integer.
    apply Hfloor.
Qed.

Lemma resolution_at_depth_witness :
  _getResolutionAtDepth (mkTree 10 100 true) 2 = 10000
  /\ _getResolutionAtDepth (mkTree 10 100 true) 2
     < _getResolutionAtDepth (mkTree 10 100 true) 3
  /\ Fractional._getResolutionAtDepth (3 # 2) 1 1
     <= Fractional._getResolutionAtDepth (3 # 2) 1 2.
Proof.
  destruct (resolution_at_depth unit unit 10 100 2)
    as (_ & _ & _ & _ & _ & Hint);
    [reflexivity | discriminate | lia |].
  destruct (Hint (mkTree 10 100 true) eq_refl eq_refl)
    as (_ & Hv & Hinc & _).
  destruct (resolution_at_depth unit unit (3 # 2) 1 1)
    as (_ & _ & Hmono & _);
    [reflexivity | discriminate | lia |].
  split; [rewrite Hv; reflexivity|].
  split; [apply Hinc; lia | apply Hmono; lia].
Defined.

(** C4 (counterexample). With [scalingFactor] 1.5 and [leafScalingFactor]
    1, which are above 1 and at least 1, the resolutions at the reverse
    depths 0 and 1 are both 1: [floor (1)] and [floor (1.5)]. *)
Lemma resolution_not_increasing :
  (1 < 3 # 2)%Q /\ (1 <= 1)%Q
  /\ Fractional._getResolutionAtDepth (3 # 2) 1 0 = 1
  /\ Fractional._getResolutionAtDepth (3 # 2) 1 1 = 1.
Proof.
  split; [reflexivity|]. split; [discriminate|]. split; reflexivity.
Qed.

(** ** Fitting a coordinate to the grid *)

(** C10. Without a rounding function, [fitResolution (v, r)] rounds
    [v / r] with [Math.round], to the nearest integer and upwards at a
    tie, and multiplies by [r]: the result is a multiple of [r] nearest
    to [v], at most [r / 2] away from it, not the multiple below it. *)
Theorem fitResolution_default_rounds (v : Q) (r : Z) :
  0 < r ->
  fitResolution v r None = Js.Math_round (v / inject_Z r)%Q * r
  /\ (Qabs (inject_Z (fitResolution v r None) - v) <= inject_Z r / 2)%Q
  /\ (forall z, (v == inject_Z z)%Q ->
        fitResolution v r None = (2 * z + r) / (2 * r) * r).
Proof.
  intros Hr.
  assert (HR : (0 < inject_Z r)%Q) by now apply inject_Z_pos.
  assert (HR0 : ~ (inject_Z r == 0)%Q).
  { intro H0. rewrite H0 in HR. now apply Qlt_irrefl in HR. }
  split; [reflexivity|]. split.
  - unfold fitResolution, Js.parseInt, Js.orElse, Js.Math_round.
    set (q := (v / inject_Z r)%Q).
    pose proof (Qfloor_le (q + (1 # 2))) as Hlo.
    pose proof (Qlt_floor (q + (1 # 2))) as Hhi.
    rewrite inject_Z_plus in Hhi.
    set (m := inject_Z (Qfloor (q + (1 # 2)))) in *.
    assert (Hv : (v == q * inject_Z r)%Q) by (unfold q; field; assumption).
    rewrite inject_Z_mult. fold m. rewrite Hv.
    set (R := inject_Z r) in *. change (inject_Z 1) with 1%Q in Hhi.
    clearbody m. clearbody q. clearbody R.
    setoid_replace (m * R - q * R)%Q with ((m - q) * R)%Q by ring.
    rewrite Qabs_Qmult. rewrite (Qabs_pos R) by Lqa.lra.
    setoid_replace (R / 2)%Q with ((1 # 2) * R)%Q by field.
    apply Qmult_le_compat_r; [|Lqa.lra].
    apply Qabs_Qle_condition. split; Lqa.lra.
  - intros z Hz. unfold fitResolution, Js.parseInt, Js.orElse.
    rewrite <- (Math_round_div z r Hr). f_equal.
    unfold Js.Math_round, Js.div. apply Qfloor_comp. now rewrite Hz.
Qed.

Lemma fitResolution_default_rounds_witness :
  fitResolution 17 10 None = 20
  /\ fitResolution 17 10 (Some Js.Math_floor) = 10
  /\ fitResolution 15 10 None = 20
  /\ fitResolution 14 10 None = 10
  /\ fitResolution (25 # 2) 10 None = 10.
Proof.
  destruct (fitResolution_default_rounds 17 10) as (_ & _ & H17); [lia|].
  destruct (fitResolution_default_rounds 15 10) as (_ & _ & H15); [lia|].
  destruct (fitResolution_default_rounds 14 10) as (_ & _ & H14); [lia|].
  rewrite (H17 17), (H15 15), (H14 14) by reflexivity. repeat split.
Defined.

(** ** The closest resolution *)

Lemma floorLog_aux_spec (fuel : nat) :
  forall (b : Z) (x : Q) (p k : Z),
    1 < b -> 0 <= k -> p = b ^ k ->
    (inject_Z p <= x)%Q ->
    (x < inject_Z (b ^ (k + Z.of_nat fuel)))%Q ->
    let r := floorLog_aux fuel b x p k in
    k <= r /\ (inject_Z (b ^ r) <= x)%Q /\ (x < inject_Z (b ^ (r + 1)))%Q.
Proof.
  induction fuel as [|f IH]; intros b x p k Hb Hk Hp Hle Hlt; cbn zeta.
  - exfalso. rewrite Z.add_0_r, <- Hp in Hlt.
    exact (Qlt_irrefl _ (Qle_lt_trans _ _ _ Hle Hlt)).
  - cbn [floorLog_aux].
    destruct (Qle_bool (inject_Z (p * b)) x) eqn:Hstep.
    + apply Qle_bool_iff in Hstep.
      assert (Hpb : p * b = b ^ (k + 1)).
      { rewrite Z.pow_add_r, Z.pow_1_r by lia. now rewrite Hp. }
      destruct (IH b x (p * b) (k + 1)) as (H1 & H2 & H3); try assumption; try lia.
      * replace (k + 1 + Z.of_nat f) with (k + Z.of_nat (S f)) by lia.
        exact Hlt.
      * repeat split; try assumption; lia.
    + assert (Hnle : ~ (inject_Z (p * b) <= x)%Q).
      { intro H. apply Qle_bool_iff in H. congruence. }
      apply Qnot_le_lt in Hnle.
      repeat split; try lia.
      * now rewrite <- Hp.
      * rewrite Z.pow_add_r, Z.pow_1_r, <- Hp by lia. exact Hnle.
Qed.

Lemma floorLog_spec (b : Z) (x : Q) :
  1 < b -> (1 <= x)%Q ->
  0 <= floorLog b x
  /\ (inject_Z (b ^ floorLog b x) <= x)%Q
  /\ (x < inject_Z (b ^ (floorLog b x + 1)))%Q.
Proof.
  intros Hb Hx. unfold floorLog.
  assert (Hfl : 1 <= Qfloor x).
  { rewrite <- (Qfloor_Z 1). now apply Qfloor_resp_le. }
  pose proof (Z.log2_spec (Qfloor x) ltac:(lia)) as [_ Hlog].
  pose proof (Z.log2_nonneg (Qfloor x)) as Hnn.
  apply floorLog_aux_spec; [assumption | lia | reflexivity | exact Hx |].
  eapply Qlt_le_trans; [apply Qlt_floor|].
  rewrite <- Zle_Qle.
  rewrite Nat2Z.inj_succ, Z2Nat.id by assumption.
  rewrite Z.add_0_l.
  transitivity (2 ^ Z.succ (Z.log2 (Qfloor x))); [lia|].
  apply Z.pow_le_mono_l. lia.
Qed.

Lemma ceilLog_aux_spec (fuel : nat) :
  forall (b : Z) (x : Q) (p k : Z),
    1 < b -> 0 <= k -> p = b ^ k ->
    (k = 0 \/ (inject_Z (b ^ (k - 1)) < x)%Q) ->
    (x <= inject_Z (b ^ (k + Z.of_nat fuel)))%Q ->
    let r := ceilLog_aux fuel b x p k in
    k <= r /\ (x <= inject_Z (b ^ r))%Q
    /\ (r = 0 \/ (inject_Z (b ^ (r - 1)) < x)%Q).
Proof.
  induction fuel as [|f IH]; intros b x p k Hb Hk Hp Hprev Hle; cbn zeta.
  - cbn [ceilLog_aux]. rewrite Z.add_0_r in Hle. repeat split; try assumption; lia.
  - cbn [ceilLog_aux].
    destruct (Qle_bool x (inject_Z p)) eqn:Hstep.
    + apply Qle_bool_iff in Hstep. rewrite Hp in Hstep.
      repeat split; try assumption; lia.
    + assert (Hlt : (inject_Z p < x)%Q).
      { apply Qnot_le_lt. intro H. apply Qle_bool_iff in H. congruence. }
      destruct (IH b x (p * b) (k + 1)) as (H1 & H2 & H3); try assumption; try lia.
      * rewrite Z.pow_add_r, Z.pow_1_r by lia. now rewrite Hp.
      * right. replace (k + 1 - 1) with k by lia. now rewrite <- Hp.
      * replace (k + 1 + Z.of_nat f) with (k + Z.of_nat (S f)) by lia.
        exact Hle.
      * repeat split; try assumption; lia.
Qed.

Lemma ceilLog_spec (b : Z) (x : Q) :
  1 < b -> (1 < x)%Q ->
  0 < ceilLog b x
  /\ (inject_Z (b ^ (ceilLog b x - 1)) < x)%Q
  /\ (x <= inject_Z (b ^ ceilLog b x))%Q.
Proof.
  intros Hb Hx. unfold ceilLog.
  assert (Hc : 1 <= Qceiling x).
  { rewrite <- (Qceiling_Z 1). apply Qceiling_resp_le. now apply Qlt_le_weak. }
  pose proof (Z.log2_spec (Qceiling x) ltac:(lia)) as [_ Hlog].
  pose proof (Z.log2_nonneg (Qceiling x)) as Hnn.
  set (fuel := S (S (Z.to_nat (Z.log2 (Qceiling x))))).
  destruct (ceilLog_aux_spec fuel b x 1 0 Hb (Z.le_refl 0) eq_refl
              (or_introl eq_refl)) as (H1 & H2 & H3).
  - eapply Qle_trans; [apply Qle_ceiling|].
    rewrite <- Zle_Qle. unfold fuel.
    rewrite !Nat2Z.inj_succ, Z2Nat.id by assumption.
    rewrite Z.add_0_l.
    transitivity (2 ^ Z.succ (Z.log2 (Qceiling x))); [lia|].
    transitivity (2 ^ Z.succ (Z.succ (Z.log2 (Qceiling x)))).
    + apply Z.pow_le_mono_r; lia.
    + apply Z.pow_le_mono_l. lia.
  - cbn zeta in *. destruct H3 as [H0|H3].
    + exfalso. rewrite H0 in H2. cbn in H2.
      exact (Qlt_irrefl _ (Qlt_le_trans _ _ _ Hx H2)).
    + repeat split; try assumption.
      destruct (Z.eq_dec (ceilLog_aux fuel b x 1 0) 0) as [E|E]; [|lia].
      exfalso. rewrite E in H2. cbn in H2.
      exact (Qlt_irrefl _ (Qlt_le_trans _ _ _ Hx H2)).
Qed.

Lemma Q2R_inject_Z (z : Z) : Q2R (inject_Z z) = IZR z.
Proof. unfold Q2R, inject_Z. cbn. field. Qed.

Lemma IZR_pow_nonneg (b k : Z) :
  0 <= k -> IZR (b ^ k) = (IZR b ^ Z.to_nat k)%R.
Proof. intros Hk. rewrite pow_IZR. now rewrite Z2Nat.id. Qed.

Lemma ln_base_pos (b : Z) : 1 < b -> (0 < ln (IZR b))%R.
Proof.
  intros Hb. rewrite <- ln_1. apply ln_increasing; [lra|]. now apply IZR_lt.
Qed.

Lemma ln_pow_base (b k : Z) :
  1 < b -> 0 <= k -> ln (IZR (b ^ k)) = (IZR k * ln (IZR b))%R.
Proof.
  intros Hb Hk. rewrite IZR_pow_nonneg by assumption.
  rewrite ln_pow by (apply IZR_lt; lia).
  now rewrite INR_IZR_INZ, Z2Nat.id.
Qed.

Lemma ln_monotone (x y : R) : (0 < x)%R -> (x <= y)%R -> (ln x <= ln y)%R.
Proof.
  intros Hx Hle. destruct Hle as [Hlt|Heq].
  - left. now apply ln_increasing.
  - right. now rewrite Heq.
Qed.

Lemma Rdiv_bounds (y L lo hi : R) :
  (0 < L)%R ->
  ((lo * L <= y)%R -> (lo <= y / L)%R)
  /\ ((lo * L < y)%R -> (lo < y / L)%R)
  /\ ((y <= hi * L)%R -> (y / L <= hi)%R)
  /\ ((y < hi * L)%R -> (y / L < hi)%R).
Proof.
  intros HL.
  assert (E : (y / L * L = y)%R) by (field; lra).
  repeat split; intros H.
  - apply Rmult_le_reg_r with L; [assumption|]. now rewrite E.
  - apply Rmult_lt_reg_r with L; [assumption|]. now rewrite E.
  - apply Rmult_le_reg_r with L; [assumption|]. now rewrite E.
  - apply Rmult_lt_reg_r with L; [assumption|]. now rewrite E.
Qed.

(** [floorLog b x] is the floor of the quotient of the real logarithms of
    [x] and [b]. *)
Lemma floorLog_real (b : Z) (x : Q) :
  1 < b -> (1 <= x)%Q ->
  (IZR (floorLog b x) <= ln (Q2R x) / ln (IZR b)
   < IZR (floorLog b x) + 1)%R.
Proof.
  intros Hb Hx.
  destruct (floorLog_spec b x Hb Hx) as (Hk & Hlo & Hhi).
  pose proof (ln_base_pos b Hb) as HL.
  apply Qle_Rle in Hlo. apply Qlt_Rlt in Hhi.
  rewrite Q2R_inject_Z in Hlo, Hhi.
  assert (Hpos : (0 < IZR (b ^ floorLog b x))%R).
  { apply IZR_lt. apply Z.pow_pos_nonneg; lia. }
  assert (HX : (0 < Q2R x)%R) by lra.
  apply ln_monotone in Hlo; [|assumption].
  apply ln_increasing in Hhi; [|assumption].
  rewrite ln_pow_base in Hlo, Hhi by lia.
  rewrite plus_IZR in Hhi.
  destruct (Rdiv_bounds (ln (Q2R x)) (ln (IZR b)) (IZR (floorLog b x))
              (IZR (floorLog b x) + 1) HL) as (B1 & _ & _ & B4).
  split; [apply B1; exact Hlo | apply B4; exact Hhi].
Qed.

(** [ceilLog b (span / lsf)] is the ceiling of the difference of the real
    logarithms of [span] and [lsf] over the logarithm of [b]. *)
Lemma ceilLog_real (b span lsf : Z) :
  1 < b -> 0 < lsf -> lsf < span ->
  (IZR (ceilLog b (Js.div span lsf)) - 1
   < (ln (IZR span) - ln (IZR lsf)) / ln (IZR b)
   <= IZR (ceilLog b (Js.div span lsf)))%R.
Proof.
  intros Hb Hlsf Hspan.
  assert (HlsfQ : (0 < inject_Z lsf)%Q) by (apply inject_Z_pos; lia).
  assert (Hx : (1 < Js.div span lsf)%Q).
  { unfold Js.div. apply Qlt_shift_div_l; [assumption|].
    rewrite Qmult_1_l. now rewrite <- Zlt_Qlt. }
  destruct (ceilLog_spec b _ Hb Hx) as (Hk & Hlo & Hhi).
  pose proof (ln_base_pos b Hb) as HL.
  assert (HlsfR : (0 < IZR lsf)%R) by (apply IZR_lt; lia).
  assert (HspanR : (0 < IZR span)%R) by (apply IZR_lt; lia).
  assert (Hq : Q2R (Js.div span lsf) = (IZR span / IZR lsf)%R).
  { unfold Js.div. rewrite Q2R_div, !Q2R_inject_Z; [reflexivity|].
    intro H0. rewrite H0 in HlsfQ. now apply Qlt_irrefl in HlsfQ. }
  apply Qlt_Rlt in Hlo. apply Qle_Rle in Hhi.
  rewrite Q2R_inject_Z, Hq in Hlo, Hhi.
  assert (Hlnq : ln (IZR span / IZR lsf) = (ln (IZR span) - ln (IZR lsf))%R).
  { unfold Rdiv. rewrite ln_mult, ln_Rinv; try assumption; [lra|].
    now apply Rinv_0_lt_compat. }
  assert (Hqpos : (0 < IZR span / IZR lsf)%R)
    by (apply Rdiv_lt_0_compat; assumption).
  apply ln_increasing in Hlo; [|apply IZR_lt; apply Z.pow_pos_nonneg; lia].
  apply ln_monotone in Hhi; [|assumption].
  rewrite ln_pow_base in Hlo, Hhi by lia.
  rewrite Hlnq in Hlo, Hhi. rewrite minus_IZR in Hlo.
  destruct (Rdiv_bounds (ln (IZR span) - ln (IZR lsf)) (ln (IZR b))
              (IZR (ceilLog b (Js.div span lsf)) - 1)
              (IZR (ceilLog b (Js.div span lsf))) HL) as (_ & B2 & B3 & _).
  split; [apply B2; exact Hlo | apply B3; exact Hhi].
Qed.

Lemma floorLog_nonneg (b : Z) (x : Q) : 0 <= floorLog b x.
Proof.
  unfold floorLog.
  generalize (S (Z.to_nat (Z.log2 (Qfloor x)))) as fuel.
  assert (Hge : forall fuel pw k, 0 <= k -> 0 <= floorLog_aux fuel b x pw k).
  { induction fuel as [|f IH]; intros pw k Hk; cbn [floorLog_aux];
      [exact Hk|].
    destruct (Qle_bool _ _); [apply IH; lia | exact Hk]. }
  intros fuel. apply Hge. lia.
Qed.

(** In exact arithmetic [_getClosestResolution] is the largest step of
    the ladder [leafScalingFactor * scalingFactor ^ k] that does not
    exceed the request, and 1 below the ladder. *)
Lemma closest_resolution_exact (t : GiveTree) (r : Q) :
  1 < scalingFactor t -> 1 <= leafScalingFactor t ->
  ((inject_Z (leafScalingFactor t) <= r)%Q ->
     exists k, 0 <= k
       /\ _getClosestResolution floorLog t r
          = leafScalingFactor t * scalingFactor t ^ k
       /\ (inject_Z (leafScalingFactor t * scalingFactor t ^ k) <= r)%Q
       /\ (r < inject_Z (leafScalingFactor t * scalingFactor t ^ (k + 1)))%Q)
  /\ ((r < inject_Z (leafScalingFactor t))%Q ->
        _getClosestResolution floorLog t r = 1).
Proof.
  intros Hsf Hlsf.
  assert (Hpos : (0 < inject_Z (leafScalingFactor t))%Q)
    by (apply inject_Z_pos; lia).
  split.
  - intros Hle.
    set (x := (r / inject_Z (leafScalingFactor t))%Q).
    assert (Hx : (1 <= x)%Q).
    { unfold x. apply Qle_shift_div_l; [assumption|]. now rewrite Qmult_1_l. }
    destruct (floorLog_spec (scalingFactor t) x Hsf Hx) as (Hk & Hlo & Hhi).
    exists (floorLog (scalingFactor t) x). split; [assumption|].
    split; [|split].
    + unfold _getClosestResolution.
      apply Qle_bool_iff in Hle. rewrite Hle. fold x.
      unfold Js.parseInt, Js.Math_floor.
      rewrite (Qfloor_comp _
        (inject_Z (leafScalingFactor t
                   * scalingFactor t ^ floorLog (scalingFactor t) x))).
      * apply Qfloor_Z.
      * rewrite pow_inject by assumption. rewrite inject_Z_mult. ring.
    + rewrite inject_Z_mult, Qmult_comm.
      unfold x in Hlo.
      apply (Qmult_le_r _ _ (inject_Z (leafScalingFactor t))) in Hlo;
        [|assumption].
      eapply Qle_trans; [exact Hlo|].
      apply Qle_lteq. right. field.
      intro H0. rewrite H0 in Hpos. now apply Qlt_irrefl in Hpos.
    + rewrite inject_Z_mult, Qmult_comm.
      unfold x in Hhi.
      apply (Qmult_lt_r _ _ (inject_Z (leafScalingFactor t))) in Hhi;
        [|assumption].
      eapply Qle_lt_trans; [|exact Hhi].
      apply Qle_lteq. right. field.
      intro H0. rewrite H0 in Hpos. now apply Qlt_irrefl in Hpos.
  - intros Hlt. unfold _getClosestResolution.
    destruct (Qle_bool (inject_Z (leafScalingFactor t)) r) eqn:Hb;
      [|reflexivity].
    apply Qle_bool_iff in Hb.
    exfalso. exact (Qlt_irrefl _ (Qle_lt_trans _ _ _ Hb Hlt)).
Qed.

(** The closest resolution is positive whenever the floor of the quotient
    of logarithms is not negative. *)
Lemma closest_resolution_pos (flq : Z -> Q -> Z) (t : GiveTree) (r : Q) :
  1 <= scalingFactor t -> 1 <= leafScalingFactor t ->
  (forall b x, 0 <= flq b x) ->
  0 < _getClosestResolution flq t r.
Proof.
  intros Hsf Hlsf Hflq. unfold _getClosestResolution.
  destruct (Qle_bool _ _); [|lia].
  unfold Js.parseInt, Js.Math_floor.
  set (k := flq _ _).
  rewrite (Qfloor_comp _
    (inject_Z (leafScalingFactor t * scalingFactor t ^ k))).
  - rewrite Qfloor_Z.
    apply Z.mul_pos_pos; [lia|]. apply Z.pow_pos_nonneg; [lia|apply Hflq].
  - rewrite pow_inject by apply Hflq. rewrite inject_Z_mult. ring.
Qed.

(** C5. At the request 100000 of a tree with the default factors 10 and
    100, the binary64 quotient [Math.log(1000) / Math.log(10)] is below 3,
    its floor is 2, and [_getClosestResolution] returns 10000; the largest
    step of the ladder that does not exceed the request is 100000, which
    is what exact arithmetic gives. *)
Theorem closest_resolution_binary64 :
  Binary64.Math_floor
    (Binary64.Math_log 1000 / Binary64.Math_log 10)%float = 2
  /\ _getClosestResolution (floorLogQuot Binary64.logs)
       (mkTree 10 100 true) 100000 = 10000
  /\ _getClosestResolution (floorLogQuot exactLogs)
       (mkTree 10 100 true) 100000 = 100000
  /\ 100000 = leafScalingFactor (mkTree 10 100 true)
              * scalingFactor (mkTree 10 100 true) ^ 3.
Proof. repeat split; vm_compute; reflexivity. Qed.

(** ** Traversal *)

Section TraverseFacts.

Context {D Smry : Type}.
Variable tree : GiveTree.
Variable U : Type.
Variable callback : option (JsVal D Smry) -> U -> U * bool.
Variable filter : option (option (JsVal D Smry) -> bool).
Variable breakOnFalse : bool.
Variable propsRes : option Z.

Local Notation Node := (PineNode D Smry).
Local Notation CR := (ChromRegion D).
Local Notation trav := (traverse tree callback filter breakOnFalse propsRes).

(** C6. [traverse] throws when [chrRange] is absent; it does nothing (the
    state of the caller is untouched and the result is [undefined]) when
    the range of the node does not meet [chrRange]; and when the range
    meets [chrRange], the resolution of the node is at most the requested
    one and the node has data, its whole effect is one call of
    [_callFuncOnDataEntry] on the cached [summaryChromRegion]: the
    callback is invoked once, unless the filter rejects the entry, the
    result honours [breakOnFalse], and no bucket is looked at. *)
Theorem traverse_short_circuit (n : Node) (cr : CR) (st : U * bool) :
  trav n None st = Throw "undefined is not a valid chrRegion."
  /\ (~ (nstart n < end_ cr /\ start cr < nend n) ->
      trav n (Some cr) st = Ok (st, None))
  /\ (nstart n < end_ cr -> start cr < nend n ->
      nodeResolution tree n <= requestedResolution cr propsRes ->
      hasData n = true ->
      trav n (Some cr) st
        = Ok (let '(u', r) :=
                _callFuncOnDataEntry callback filter breakOnFalse
                  (summaryChromRegion n) (fst st) in
              ((u', snd st), Some r))
      /\ (match filter with
          | Some f => f (summaryChromRegion n)
          | None => true
          end = true ->
          trav n (Some cr) st
            = Ok (let '(u', r) := callback (summaryChromRegion n) (fst st) in
                  ((u', snd st), Some (r || negb breakOnFalse))))
      /\ (match filter with
          | Some f => f (summaryChromRegion n)
          | None => true
          end = false ->
          trav n (Some cr) st = Ok (st, Some true))
      /\ (forall ks vs,
            trav (with_values n ks vs) (Some cr) st = trav n (Some cr) st)).
Proof.
  split; [destruct n; reflexivity|].
  split.
  - intros Hno. destruct n as [r s e d ks vs sm c]; cbn [traverse nstart nend] in *.
    destruct ((s <? end_ cr) && (start cr <? e)) eqn:Hmeet; [|reflexivity].
    exfalso. apply Hno. apply andb_prop in Hmeet as [H1 H2]. lia.
  - intros H1 H2 Hres Hdata.
    assert (Hshort : forall ks vs,
      trav (with_values n ks vs) (Some cr) st
        = Ok (let '(u', r) :=
                _callFuncOnDataEntry callback filter breakOnFalse
                  (summaryChromRegion n) (fst st) in
              ((u', snd st), Some r))).
    { intros ks' vs'. destruct n as [r s e d ks vs sm c].
      cbn [traverse with_values nstart nend] in *.
      replace ((s <? end_ cr) && (start cr <? e)) with true
        by (symmetry; apply andb_true_intro; split; lia).
      unfold resolutionEnough, nodeResolution, hasData, summary in *.
      cbn [reverseDepth _summary Js.orElse] in *.
      replace (_getResolutionAtDepth tree d <=? requestedResolution cr propsRes)
        with true by (symmetry; apply Z.leb_le; exact Hres).
      rewrite Hdata. cbn [andb].
      unfold summaryChromRegion. cbn [_summaryChromRegion].
      destruct (_callFuncOnDataEntry _ _ _ _ _). reflexivity. }
    assert (Hself : trav n (Some cr) st
        = Ok (let '(u', r) :=
                _callFuncOnDataEntry callback filter breakOnFalse
                  (summaryChromRegion n) (fst st) in
              ((u', snd st), Some r))).
    { rewrite <- (Hshort (keys n) (values n)). now destruct n. }
    split; [exact Hself|]. split; [|split].
    + intros Hf. rewrite Hself. unfold _callFuncOnDataEntry. rewrite Hf.
      now destruct (callback _ _).
    + intros Hf. rewrite Hself. unfold _callFuncOnDataEntry. rewrite Hf.
      now destruct st.
    + intros ks vs. now rewrite Hshort, Hself.
Qed.

End TraverseFacts.

Lemma traverse_short_circuit_witness :
  let n : PineNode Count.Payload Z :=
    mkNode true 0 1000 1 [0; 1000] [Unknown] (Some 5)
      (Some (Region (mkRegion 0 1000 None (Some (Count.Counted 5))))) in
  traverse ScenarioA.tree Count.record None false None n
    (Some (mkRegion 0 1000 (Some 1000) None)) ([], false)
  = Ok (([Some (Region (mkRegion 0 1000 None (Some (Count.Counted 5))))],
         false), Some true).
Proof.
  intros n.
  destruct (traverse_short_circuit ScenarioA.tree _ Count.record None false None
              n (mkRegion 0 1000 (Some 1000) None) ([], false))
    as (_ & _ & H).
  destruct H as (H & _); [simpl; lia | simpl; lia | vm_compute; congruence
                         | reflexivity |].
  rewrite H. reflexivity.
Defined.

(** ** The summary cache *)

Section SummaryFacts.

Context {D Smry : Type} {SC : SummaryCtor D Smry}.
Variable tree : GiveTree.

Local Notation Node := (PineNode D Smry).
Local Notation Slot := (Bucket D Smry).
Local Notation CR := (ChromRegion D).

Lemma foldBuckets_outcome (rd : Z) (range : Z * Z) (vs : list Slot) :
  (0 < rd \/ forall c, ~ In (Branch c) vs) ->
  forall acc, exists o,
    foldBuckets rd range vs acc = Ok o
    /\ (match o with Some _ => true | None => false end
        = forallb (bucketFolds rd) vs).
Proof.
  intros Htier. induction vs as [|b vs IH]; intros acc.
  - exists (Some acc). split; reflexivity.
  - assert (Htier' : 0 < rd \/ forall c, ~ In (Branch c) vs).
    { destruct Htier as [H|H]; [now left|right].
      intros c Hc. apply (H c). now right. }
    specialize (IH Htier').
    destruct b as [| |c|d]; cbn [foldBuckets forallb bucketFolds].
    + exists None. split; reflexivity.
    + apply IH.
    + destruct Htier as [Hrd|Hno].
      * replace (rd >? 0) with true by (symmetry; apply Z.gtb_lt; lia).
        unfold hasData. destruct (summary c) as [s|].
        -- apply IH.
        -- exists None. split; reflexivity.
      * exfalso. apply (Hno c). now left.
    + destruct (rd >? 0); apply IH.
Qed.

(** What [updateSummary] does in each of its three cases. *)
Lemma updateSummary_install (n : Node) (v : JsVal D Smry) (s : Smry)
    (log : list string) :
  hasSummaryCtor tree = true ->
  extract v = Instance s ->
  updateSummary tree n (Some v) log
    = Ok (with_summary n (Some s) (Some v), log).
Proof. intros Hc Hx. unfold updateSummary. now rewrite Hc, Hx. Qed.

Lemma updateSummary_keep (n : Node) (chromEntry : option (JsVal D Smry))
    (s : Smry) (log : list string) :
  noPrecomputed chromEntry ->
  summary n = Some s ->
  updateSummary tree n chromEntry log = Ok (n, log).
Proof.
  intros Hno Hs. unfold updateSummary.
  destruct (hasSummaryCtor tree); [|reflexivity].
  destruct chromEntry as [v|]; cbn [noPrecomputed] in Hno.
  - destruct (extract v) as [| |s'] eqn:Hx; rewrite ?Hs; try reflexivity.
    now destruct (Hno s').
  - now rewrite Hs.
Qed.

Lemma updateSummary_recompute (n : Node)
    (chromEntry : option (JsVal D Smry)) (log : list string) :
  hasSummaryCtor tree = true ->
  noPrecomputed chromEntry ->
  summary n = None ->
  tierTyped n ->
  exists o log',
    updateSummary tree n chromEntry log
      = Ok (with_summary n o
              (match o with
               | Some acc =>
                   Some (Region (attach acc
                                   (mkRegion (nstart n) (nend n) None None)))
               | None => None
               end), log')
    /\ (match o with Some _ => true | None => false end
        = forallb (bucketFolds (reverseDepth n)) (values n)).
Proof.
  intros Hc Hno Hs Htier. unfold updateSummary. rewrite Hc, Hs.
  destruct (foldBuckets_outcome (reverseDepth n) (nstart n, nend n)
              (values n) Htier newSummary)
    as (o & Hfold & Ho).
  set (x := match chromEntry with Some v => extract v | None => NotThere end).
  assert (Hx : forall s, x <> Instance s).
  { intros s. unfold x. destruct chromEntry as [v|]; [apply Hno|discriminate]. }
  destruct x as [| |s]; try (now destruct (Hx s));
    rewrite Hfold; cbn [bind];
    (destruct o as [acc|]; [exists (Some acc) | exists None]; eexists;
     (split; [reflexivity | exact Ho])).
Qed.

(** C8 (as amended). When no valid precomputed summary is supplied and
    the node has no cached summary, a bucket that is Unknown, or (at a
    reverse depth above 0) a child node without its own summary, makes the
    recomputation give up: the summary stays absent and the cached wrapper
    is removed, while keys and buckets are untouched.  A node that has a
    cached summary keeps it: nothing is recomputed and nothing is
    discarded. *)
Theorem recomputation_aborts (n : Node)
    (chromEntry : option (JsVal D Smry)) (log : list string) :
  hasSummaryCtor tree = true ->
  noPrecomputed chromEntry ->
  tierTyped n ->
  (In Unknown (values n)
   \/ (0 < reverseDepth n
       /\ exists c, In (Branch c) (values n) /\ summary c = None)) ->
  (summary n = None ->
     exists log',
       updateSummary tree n chromEntry log
         = Ok (with_summary n None None, log'))
  /\ (forall s, summary n = Some s ->
        updateSummary tree n chromEntry log = Ok (n, log)).
Proof.
  intros Hc Hno Htier Hbad. split.
  - intros Hs.
    destruct (updateSummary_recompute n chromEntry log Hc Hno Hs Htier)
      as (o & log' & Hupd & Ho).
    assert (Hfalse : forallb (bucketFolds (reverseDepth n)) (values n) = false).
    { apply not_true_is_false. intros Hall.
      rewrite forallb_forall in Hall.
      destruct Hbad as [Hin | (Hrd & c & Hin & Hsum)].
      - specialize (Hall _ Hin). discriminate.
      - specialize (Hall _ Hin). cbn [bucketFolds] in Hall.
        replace (reverseDepth n >? 0) with true in Hall
          by (symmetry; apply Z.gtb_lt; lia).
        unfold hasData in Hall. now rewrite Hsum in Hall. }
    rewrite Hfalse in Ho. destruct o; [discriminate|].
    exists log'. exact Hupd.
  - intros s Hs. now apply updateSummary_keep with (s := s).
Qed.

(** C1 (as amended). A full recomputation (no valid precomputed summary,
    no cached summary) leaves the summary present if and only if every
    bucket is KnownEmpty, a present leaf, or, at a reverse depth above 0,
    a child node whose own summary is present; keys and buckets are
    untouched.  A valid precomputed summary is installed whatever the
    buckets are. *)
Theorem recomputed_summary_iff (n : Node)
    (chromEntry : option (JsVal D Smry)) (log : list string) :
  hasSummaryCtor tree = true ->
  tierTyped n ->
  (noPrecomputed chromEntry -> summary n = None ->
     exists n' log',
       updateSummary tree n chromEntry log = Ok (n', log')
       /\ keys n' = keys n /\ values n' = values n
       /\ (hasData n' = true <->
           forall b, In b (values n) ->
             bucketFolds (reverseDepth n) b = true))
  /\ (forall v s, chromEntry = Some v -> extract v = Instance s ->
        exists n',
          updateSummary tree n chromEntry log = Ok (n', log)
          /\ summary n' = Some s /\ values n' = values n).
Proof.
  intros Hc Htier. split.
  - intros Hno Hs.
    destruct (updateSummary_recompute n chromEntry log Hc Hno Hs Htier)
      as (o & log' & Hupd & Ho).
    eexists. exists log'. split; [exact Hupd|].
    destruct n as [r s e d ks vs sm c].
    cbn [with_summary keys values reverseDepth] in *.
    repeat split; try reflexivity.
    + intros Hd. apply forallb_forall. rewrite <- Ho.
      unfold hasData, summary in Hd. cbn [_summary] in Hd. now destruct o.
    + intros Hall. apply forallb_forall in Hall. rewrite Hall in Ho.
      unfold hasData, summary. cbn [_summary]. now destruct o.
  - intros v s -> Hx. exists (with_summary n (Some s) (Some v)).
    split; [exact (updateSummary_install n v s log Hc Hx)|].
    destruct n; split; reflexivity.
Qed.

End SummaryFacts.

(** C8 (counterexample). The root of scenario A with a precomputed summary
    installed has an Unknown bucket; [updateSummary ()] without an
    argument leaves its cached summary in place. *)
Lemma cached_summary_survives :
  In Unknown (values ScenarioA.coarseRoot)
  /\ updateSummary ScenarioA.tree ScenarioA.coarseRoot None []
     = Ok (ScenarioA.coarseRoot, [])
  /\ summary ScenarioA.coarseRoot = Some 5.
Proof. repeat split. now left. Qed.

Lemma recomputation_aborts_witness :
  exists log',
    updateSummary ScenarioA.tree ScenarioA.root None []
    = Ok (with_summary ScenarioA.root None None, log').
Proof.
  destruct (recomputation_aborts (SC := Count.protocol) ScenarioA.tree
              ScenarioA.root None [])
    as (H & _).
  - reflexivity.
  - exact I.
  - left. vm_compute. reflexivity.
  - left. now left.
  - exact (H eq_refl).
Defined.

(** C1 (counterexample). Inserting a precomputed summary for the whole
    span at the resolution of the root gives a root that has data although
    its only bucket is Unknown. *)
Lemma summary_without_buckets :
  ScenarioA.insertedCoarse
  = Ok (ScenarioA.coarseRoot,
        mkCtx [] (mkProps None None None false true) [] [], true)
  /\ hasData ScenarioA.coarseRoot = true
  /\ values ScenarioA.coarseRoot = [Unknown]
  /\ forallb bucketHasData (values ScenarioA.coarseRoot) = false.
Proof. repeat split. Qed.

Lemma recomputed_summary_iff_witness :
  exists n' log',
    updateSummary ScenarioA.tree ScenarioA.root None [] = Ok (n', log')
    /\ hasData n' = false.
Proof.
  destruct (recomputed_summary_iff (SC := Count.protocol) ScenarioA.tree
              ScenarioA.root None [])
    as (H & _).
  - reflexivity.
  - left. vm_compute. reflexivity.
  - destruct (H I eq_refl) as (n' & log' & Hupd & _ & _ & Hiff).
    exists n', log'. split; [exact Hupd|].
    apply not_true_is_false. intros Hd.
    pose proof (proj1 Hiff Hd Unknown (or_introl eq_refl)) as Hu.
    discriminate Hu.
Defined.

(** ** Insertion at a sufficient resolution *)

Section InsertFacts.

Context {D Smry : Type} {SC : SummaryCtor D Smry}.
Variable num : LogNumerics.
Variable tree : GiveTree.

Local Notation Node := (PineNode D Smry).
Local Notation CR := (ChromRegion D).

(** More fuel does not change what an insertion returns. *)
Lemma _addNonLeafRecords_loop_mono
    (ci1 ci2 : Node -> option CR -> Ctx D -> Result (Node * Ctx D * bool)) :
  (forall c cr ctx r, ci1 c cr ctx = Ok r -> ci2 c cr ctx = Ok r) ->
  forall fuel childRes n i cr ctx r,
    _addNonLeafRecords_loop num tree ci1 fuel childRes n i cr ctx = Ok r ->
    _addNonLeafRecords_loop num tree ci2 fuel childRes n i cr ctx = Ok r.
Proof.
  intros Hci. induction fuel as [|f IH]; intros childRes n i cr ctx r H;
    cbn [_addNonLeafRecords_loop] in *.
  - destruct (start cr <? end_ cr); [discriminate | assumption].
  - destruct (start cr <? end_ cr); [|assumption].
    cbv zeta in *.
    match type of H with
    | bind ?x _ = _ =>
        destruct x as [[n1 i1]| |]; cbn [bind] in H |- *; try discriminate H
    end.
    match type of H with
    | bind ?x _ = _ =>
        destruct x as [n2| |]; cbn [bind] in H |- *; try discriminate H
    end.
    match type of H with
    | bind ?x _ = _ =>
        destruct x as [[[n3 ctx3] f3]| |] eqn:E3; cbn [bind] in H;
          try discriminate H
    end.
    match goal with
    | |- bind ?y _ = _ => assert (E3' : y = Ok (n3, ctx3, f3))
    end.
    { match type of E3 with
      | (if ?c then _ else _) = _ => destruct c; [|exact E3]
      end.
      match type of E3 with
      | bind ?x _ = _ =>
          destruct x as [child| |]; cbn [bind] in E3 |- *; try discriminate E3
      end.
      match type of E3 with
      | bind ?x _ = _ =>
          destruct x as [[[c' ctx'] v]| |] eqn:Eci; cbn [bind] in E3;
            try discriminate E3
      end.
      rewrite (Hci _ _ _ _ Eci). cbn [bind]. exact E3. }
    rewrite E3'. cbn [bind].
    match type of H with
    | bind ?x _ = _ =>
        destruct x as [[n4 i4]| |]; cbn [bind] in H |- *; try discriminate H
    end.
    apply IH. exact H.
Qed.

Lemma insert_mono (fuel : nat) :
  forall (n : Node) cr ctx r,
    insert num tree fuel n cr ctx = Ok r ->
    insert num tree (S fuel) n cr ctx = Ok r.
Proof.
  induction fuel as [|f IH]; intros n cr ctx r H; [discriminate|].
  cbn [insert] in H.
  change (insert num tree (S (S f)) n cr ctx)
    with (let chrRange :=
        match data ctx, cr with
        | [e], None => Some e
        | _, _ => cr
        end in
      match chrRange with
      | Some chrRange =>
          let res :=
            requestedResolution chrRange (propsResolution (props ctx)) in
          let chrRange := truncateChrRange n chrRange in
          do s <-
            (if resolutionEnough tree n (Some res) then
               insertResolutionEnough tree n ctx
             else if reverseDepth n >? 0 then
               _addNonLeafRecords num tree (insert num tree (S f)) n chrRange
                 ctx
             else _addLeafRecords n chrRange ctx);
          let '(n, ctx) := s in
          do r <- updateSummary tree n None (logged ctx);
          Ok (fst r, setLogged ctx (snd r), restructure (fst r))
      | None => Throw "undefined is not a valid chrRegion."
      end).
  cbv zeta in *.
  destruct (match data ctx, cr with [e], None => Some e | _, _ => cr end)
    as [c|]; [|discriminate].
  destruct (resolutionEnough tree n _); [exact H|].
  destruct (reverseDepth n >? 0); [|exact H].
  match type of H with
  | bind ?x _ = _ =>
      destruct x as [[n1 ctx1]| |] eqn:E; cbn [bind] in H; try discriminate H
  end.
  unfold _addNonLeafRecords in *.
  rewrite (_addNonLeafRecords_loop_mono _ _ IH _ _ _ _ _ _ _ E).
  cbn [bind]. exact H.
Qed.

Lemma insert_enough_fuel (fuel extra : nat) :
  forall (n : Node) cr ctx r,
    insert num tree fuel n cr ctx = Ok r ->
    insert num tree (fuel + extra) n cr ctx = Ok r.
Proof.
  intros n cr ctx r H. induction extra as [|k IH].
  - now rewrite Nat.add_0_r.
  - rewrite Nat.add_succ_r. now apply insert_mono.
Qed.





End InsertFacts.



(** The confirmed-empty summary needs a summary type that takes a summary
    object for a summary: with the only entry of the queue starting at the
    end of the root, [Count.protocol] has the new summary installed, and
    [Embedded.protocol], which reads embedded summaries only, leaves the
    root without a summary. *)
Lemma confirmed_empty_needs_extract :
  let far : ChromRegion Count.Payload :=
    mkRegion 100000 100100 None (Some (Count.Raw 7)) in
  let ctx := mkCtx [far] (mkProps None None None false true) [] [] in
  insert exactLogs ScenarioA.tree 5 ScenarioA.root (Some ScenarioA.R5) ctx
  = Ok (mkNode true 0 100000 3 [0; 100000] [Unknown] (Some 0)
          (Some (SummaryObj 0)), ctx, true)
  /\ @insert _ _ Embedded.protocol exactLogs ScenarioA.tree 5 ScenarioA.root
       (Some ScenarioA.R5) ctx
     = Ok (mkNode true 0 100000 3 [0; 100000] [Unknown] None None, ctx, true).
Proof. split; reflexivity. Qed.

(** ** Scenario A *)

(** C2. In scenario A (scaling factor 10, leaf scaling factor 100, span
    [0, 100000)), after the single entry [500, 600) is inserted into the
    empty tree, a traversal of the span at resolution 1 hands the callback
    that entry, unchanged, and nothing else.  This holds when the range of
    the insertion is the entry itself ([insert ([E])]), and then also for
    a traversal of that range, and when it is the whole span
    ([insert ([E], R)]); the resolution 1 may come from the range, from
    [props], or from the default.  The insertions return with a recursion
    bound of 5, and with any larger one. *)
Theorem scenario_A_round_trip :
  (exists n ctx,
     ScenarioA.inserted = Ok (n, ctx, true)
     /\ (forall extra,
           insert exactLogs ScenarioA.tree (5 + extra) ScenarioA.root None
             ScenarioA.ctx0 = Ok (n, ctx, true))
     /\ data ctx = []
     /\ ScenarioA.emitted n (mkRegion 0 100000 (Some 1) None)
        = Ok [Some (Region ScenarioA.E)]
     /\ ScenarioA.emitted n ScenarioA.R = Ok [Some (Region ScenarioA.E)]
     /\ ScenarioA.emitted n (mkRegion 500 600 (Some 1) None)
        = Ok [Some (Region ScenarioA.E)]
     /\ traverse ScenarioA.tree Count.record None false (Some 1) n
          (Some ScenarioA.R) ([], false)
        = Ok (([Some (Region ScenarioA.E)], true), Some true))
  /\ (exists n ctx,
        ScenarioA.insertedOverSpan = Ok (n, ctx, true)
        /\ (forall extra,
              insert exactLogs ScenarioA.tree (5 + extra) ScenarioA.root
                (Some ScenarioA.R) ScenarioA.ctx0 = Ok (n, ctx, true))
        /\ data ctx = []
        /\ ScenarioA.emitted n (mkRegion 0 100000 (Some 1) None)
           = Ok [Some (Region ScenarioA.E)]
        /\ ScenarioA.emitted n ScenarioA.R = Ok [Some (Region ScenarioA.E)]
        /\ traverse ScenarioA.tree Count.record None false (Some 1) n
             (Some ScenarioA.R) ([], false)
           = Ok (([Some (Region ScenarioA.E)], true), Some true)).
Proof.
  split.
  - eexists. eexists. split; [vm_compute; reflexivity|].
    split.
    + intros extra. apply insert_enough_fuel. vm_compute. reflexivity.
    + repeat split; vm_compute; reflexivity.
  - eexists. eexists. split; [vm_compute; reflexivity|].
    split.
    + intros extra. apply insert_enough_fuel. vm_compute. reflexivity.
    + repeat split; vm_compute; reflexivity.
Qed.

(** The rest of scenario A: after [insert ([E])], what is missing over
    [0, 1000) at resolution 1 is what lies before and after the entry. *)
Lemma scenario_A_uncached :
  exists n ctx,
    ScenarioA.inserted = Ok (n, ctx, true)
    /\ getUncachedRange exactLogs ScenarioA.tree n
         (Some (mkRegion 0 1000 (Some 1) None)) (mkQuery None None None) []
       = Ok (mkQuery None (Some 1%Q)
               (Some [mkRegion 0 500 (Some 1) None;
                      mkRegion 600 1000 (Some 1) None]), [])
    /\ hasUncachedRange ScenarioA.tree n
         (Some (mkRegion 0 1000 (Some 1) None)) (mkQuery None None None)
       = Ok true.
Proof.
  eexists. eexists. split; [vm_compute; reflexivity|].
  split; vm_compute; reflexivity.
Qed.

(** ** Uncached ranges *)

Section QueryFacts.

Context {D Smry : Type}.
Variable num : LogNumerics.
Variable tree : GiveTree.

Local Notation Node := (PineNode D Smry).
Local Notation Slot := (Bucket D Smry).
Local Notation CR := (ChromRegion D).

(** Induction on a node with the property available for every child
    node among its buckets. *)
Lemma node_ind (P : Node -> Prop) :
  (forall r s e d ks vs sm c,
      Forall (fun b => match b with Branch ch => P ch | _ => True end) vs ->
      P (mkNode r s e d ks vs sm c)) ->
  forall n, P n.
Proof.
  intros H. fix IH 1. intros [r s e d ks vs sm c]. apply H.
  revert vs. fix IHvs 1. intros [|b vs]; constructor; [|apply IHvs].
  destruct b; try exact I. apply IH.
Qed.

Lemma normalizeRatio_stable (q : option Z) (r : Q) (x : option (list CR))
    (log : list string) :
  Qle_bool 1 r = true ->
  normalizeRatio (mkQuery q (Some r) x) log = (r, log).
Proof.
  intros Hr. unfold normalizeRatio. cbn [bufferingRatio].
  destruct (Qeq_bool r 0) eqn:H0.
  - exfalso. apply Qeq_bool_iff in H0. apply Qle_bool_iff in Hr.
    rewrite H0 in Hr. now apply Hr.
  - now rewrite Hr.
Qed.

Lemma normalizeRatio_ge1 (p : QueryProps D) (log : list string) :
  Qle_bool 1 (fst (normalizeRatio p log)) = true.
Proof.
  unfold normalizeRatio.
  set (r := match bufferingRatio p with
            | Some q => if Qeq_bool q 0 then 1%Q else q
            | None => 1%Q
            end).
  destruct (Qle_bool 1 r) eqn:H; cbn [fst]; [exact H|reflexivity].
Qed.

Lemma leaf_resolution_enough (n : Node) (res : Z) (d : DataNode D) :
  1 <= res -> bucketResolutionEnough tree n res (Leaf d) = true.
Proof.
  intros Hres. unfold bucketResolutionEnough, bucketResolution.
  destruct ((reverseDepth n <=? 0) || false); now apply Z.leb_le.
Qed.

Lemma descends_branch (n : Node) (res : Z) (b : Slot) :
  1 <= res -> descends tree n res b = true -> exists c, b = Branch c.
Proof.
  intros Hres. unfold descends. destruct b as [| |c|d]; try discriminate.
  - intros _. now exists c.
  - cbn [isPresent andb]. now rewrite leaf_resolution_enough.
Qed.

Section OneQuery.

Variable cr : CR.
Variable q : option Z.
Variable ratio : Q.
Hypothesis Hratio : Qle_bool 1 ratio = true.
Hypothesis Hres : 1 <= requestedResolution cr q.

Local Notation res := (requestedResolution cr q).
Local Notation closest :=
  (_getClosestResolution (floorLogQuot num) tree (inject_Z res / ratio)).

(** [getUncachedRange] on a well-formed node reports the buckets of
    [gaps], one after the other. *)
Local Notation reportsGaps c :=
  (wellFormed c = true ->
   forall acc log,
     getUncachedRange num tree c (Some cr) (mkQuery q (Some ratio) (Some acc))
       log
     = Ok (mkQuery q (Some ratio)
             (Some (reportAll cr closest
                      (gaps tree c (start cr) (end_ cr) res) acc)),
           log)).

Lemma uncachedWalk_gaps (n : Node) (vs : list Slot) :
  Forall (fun b => match b with Branch c => reportsGaps c | _ => True end)
    vs ->
  forall ks skipping acc log,
    bucketsWellFormed wellFormed ks vs = true ->
    uncachedWalk num tree
      (fun c => getUncachedRange num tree c (Some cr)) n cr res ratio
      skipping ks vs (mkQuery q (Some ratio) (Some acc)) log
    = Ok (mkQuery q (Some ratio)
            (Some (reportAll cr closest
                     (gapsWalk tree
                        (fun c => gaps tree c (start cr) (end_ cr) res)
                        n (start cr) (end_ cr) res skipping ks vs)
                     acc)),
          log).
Proof.
  induction 1 as [|b vs Hb Hvs IH]; intros ks skipping acc log Hwf.
  - reflexivity.
  - cbn [bucketsWellFormed] in Hwf.
    destruct ks as [|k0 [|k1 ks']]; try discriminate.
    apply andb_prop in Hwf as [Hwf Hrest].
    apply andb_prop in Hwf as [Hlt Hchild].
    cbn [uncachedWalk gapsWalk tl hd_error].
    destruct (skipping && Js.leU (Some k1) (start cr)).
    + now apply IH.
    + destruct (Js.ltU (Some k0) (end_ cr)); [|reflexivity].
      fold (descends tree n res b). fold (lacksData b).
      destruct (descends tree n res b) eqn:Hdesc.
      * destruct (descends_branch n res b Hres Hdesc) as [c ->].
        apply andb_prop in Hchild as [Hchild _].
        apply andb_prop in Hchild as [Hc _].
        rewrite (Hb Hc acc log). cbn [bind fst snd].
        rewrite IH by assumption.
        unfold reportAll. now rewrite fold_left_app.
      * destruct (lacksData b).
        -- destruct (retrieveRange cr _ k0 k1) as [rs re] eqn:Hrr.
           cbn [bind fst snd queryResolution bufferingRatio _result Js.orElse].
           rewrite IH by assumption.
           unfold reportAll. cbn [fold_left app fst snd].
           now rewrite Hrr.
        -- cbn [bind fst snd app]. now apply IH.
Qed.

Lemma getUncachedRange_gaps (n : Node) :
  reportsGaps n.
Proof.
  induction n as [r s e d ks vs sm c Hvs] using node_ind.
  intros Hwf acc log.
  cbn [getUncachedRange queryResolution _result Js.orElse].
  rewrite normalizeRatio_stable by assumption.
  cbn [wellFormed] in Hwf. apply andb_prop in Hwf as [_ Hwf].
  now apply uncachedWalk_gaps.
Qed.

End OneQuery.

End QueryFacts.

Section GapFacts.

Context {D Smry : Type}.
Variable tree : GiveTree.

Local Notation Node := (PineNode D Smry).
Local Notation Slot := (Bucket D Smry).
Local Notation CR := (ChromRegion D).

Lemma chain_le (lo hi : Z) (gs : list (Z * Z)) : chain lo gs hi -> lo <= hi.
Proof.
  revert lo. induction gs as [|g t IH]; intros lo; cbn [chain]; [tauto|].
  intros (H1 & H2 & H3). specialize (IH _ H3). lia.
Qed.

Lemma chain_app (lo mid hi : Z) (g1 g2 : list (Z * Z)) :
  chain lo g1 mid -> chain mid g2 hi -> chain lo (g1 ++ g2) hi.
Proof.
  revert lo. induction g1 as [|g t IH]; intros lo; cbn [chain app].
  - intros Hle H2. destruct g2 as [|g t]; cbn [chain] in *; [lia|].
    destruct H2 as (? & ? & ?). repeat split; try assumption; lia.
  - intros (H1 & H2 & H3) H4. repeat split; try assumption. now apply IH.
Qed.

Lemma chain_widen (lo lo' hi : Z) (gs : list (Z * Z)) :
  lo' <= lo -> chain lo gs hi -> chain lo' gs hi.
Proof.
  intros Hle. destruct gs as [|g t]; cbn [chain]; [lia|].
  intros (? & ? & ?). repeat split; try assumption; lia.
Qed.

Lemma chain_In (lo hi : Z) (gs : list (Z * Z)) (g : Z * Z) :
  chain lo gs hi -> In g gs -> lo <= fst g /\ fst g < snd g /\ snd g <= hi.
Proof.
  revert lo. induction gs as [|g0 t IH]; intros lo; cbn [chain In]; [tauto|].
  intros (H1 & H2 & H3) [<-|Hin].
  - pose proof (chain_le _ _ _ H3). lia.
  - destruct (IH _ H3 Hin) as (? & ? & ?). lia.
Qed.

Lemma last_cons_default (l : list Z) :
  forall a d d', last (a :: l) d = last (a :: l) d'.
Proof.
  induction l as [|b t IH]; intros a d d'; [reflexivity|].
  change (last (a :: b :: t) d) with (last (b :: t) d).
  change (last (a :: b :: t) d') with (last (b :: t) d').
  apply IH.
Qed.

Lemma wellFormed_last (ks : list Z) (vs : list Slot) (d : Z) :
  bucketsWellFormed wellFormed ks vs = true ->
  exists k, hd_error ks = Some k /\ k <= last ks d.
Proof.
  revert ks. induction vs as [|b vs IH]; intros ks Hwf; cbn in Hwf.
  - destruct ks as [|k [|? ?]]; try discriminate. exists k. split; [reflexivity|].
    cbn. lia.
  - destruct ks as [|k0 [|k1 ks']]; try discriminate.
    apply andb_prop in Hwf as [Hwf Hrest].
    apply andb_prop in Hwf as [Hlt _]. apply Z.ltb_lt in Hlt.
    destruct (IH _ Hrest) as (k & Hk & Hle). cbn in Hk. injection Hk as <-.
    exists k0. split; [reflexivity|].
    change (last (k0 :: k1 :: ks') d) with (last (k1 :: ks') d). lia.
Qed.

Section OneRange.

Variables s e res : Z.
Hypothesis Hres : 1 <= res.

Local Notation gapsOf c := (gaps tree c s e res).
Local Notation walk n := (gapsWalk tree (fun c => gapsOf c) n s e res).

(** The buckets of [gaps] are in order inside the range of the node, and
    each of them meets [s, e). *)
Local Notation ordered c :=
  (wellFormed c = true ->
   chain (nstart c) (gapsOf c) (nend c)
   /\ forall g, In g (gapsOf c) -> fst g < e /\ s < snd g).

Lemma gapsWalk_ordered (n : Node) (vs : list Slot) :
  Forall (fun b => match b with Branch c => ordered c | _ => True end) vs ->
  forall ks skipping k0,
    bucketsWellFormed wellFormed ks vs = true ->
    hd_error ks = Some k0 ->
    (skipping = false -> s < k0) ->
    chain k0 (walk n skipping ks vs) (last ks k0)
    /\ forall g, In g (walk n skipping ks vs) -> fst g < e /\ s < snd g.
Proof.
  induction 1 as [|b vs Hb Hvs IH]; intros ks skipping k Hwf Hhd Hskip.
  - destruct (wellFormed_last ks [] k Hwf) as (k' & Hk' & Hle).
    rewrite Hhd in Hk'. injection Hk' as <-.
    split; [exact Hle | intros g []].
  - cbn [bucketsWellFormed] in Hwf.
    destruct ks as [|k0 [|k1 ks']]; try discriminate.
    cbn in Hhd. injection Hhd as <-.
    apply andb_prop in Hwf as [Hwf Hrest].
    apply andb_prop in Hwf as [Hlt Hchild]. apply Z.ltb_lt in Hlt.
    change (last (k0 :: k1 :: ks') k0) with (last (k1 :: ks') k0).
    assert (Hlast : last (k1 :: ks') k0 = last (k1 :: ks') k1)
      by apply last_cons_default.
    rewrite Hlast.
    cbn [gapsWalk tl hd_error].
    destruct (skipping && Js.leU (Some k1) s) eqn:Hsk.
    + destruct (IH (k1 :: ks') true k1 Hrest eq_refl) as (Hch & Hin);
        [discriminate|].
      split; [|exact Hin]. apply chain_widen with (lo := k1); [lia|exact Hch].
    + assert (Hs1 : s < k1).
      { destruct skipping; cbn in Hsk.
        - apply Z.leb_gt in Hsk. lia.
        - specialize (Hskip eq_refl). lia. }
      destruct (Js.ltU (Some k0) e) eqn:Hk0e.
      2:{ split; [cbn [chain]; pose proof (wellFormed_last _ _ k1 Hrest)
                    as (k' & Hk' & Hle); cbn in Hk'; injection Hk' as <-; lia
                 | intros g []]. }
      cbn [Js.ltU] in Hk0e. apply Z.ltb_lt in Hk0e.
      destruct (IH (k1 :: ks') false k1 Hrest eq_refl) as (Hch & Hin);
        [intros _; exact Hs1|].
      destruct (descends tree n res b) eqn:Hdesc.
      * destruct (descends_branch tree n res b Hres Hdesc) as [c ->].
        apply andb_prop in Hchild as [Hchild Hce].
        apply andb_prop in Hchild as [Hc Hcs].
        apply Z.eqb_eq in Hce. apply Z.eqb_eq in Hcs.
        destruct (Hb Hc) as (Hcch & Hcin). rewrite Hcs, Hce in Hcch.
        split.
        -- eapply chain_app; eassumption.
        -- intros g Hg. apply in_app_or in Hg as [Hg|Hg]; auto.
      * destruct (lacksData b).
        -- split.
           ++ cbn [app chain fst snd]. repeat split; try lia. exact Hch.
           ++ intros g [<-|Hg]; [cbn; lia | auto].
        -- cbn [app]. split; [|exact Hin].
           apply chain_widen with (lo := k1); [lia|exact Hch].
Qed.

Lemma gaps_ordered (n : Node) :
  ordered n.
Proof.
  induction n as [r s0 e0 d ks vs sm c Hvs] using node_ind.
  intros Hwf. cbn [wellFormed] in Hwf.
  apply andb_prop in Hwf as [Hwf Hb]. apply andb_prop in Hwf as [Hs He].
  destruct ks as [|k ks']; [discriminate|].
  apply Z.eqb_eq in Hs. apply Z.eqb_eq in He. subst k.
  cbn [gaps nstart nend].
  destruct (gapsWalk_ordered (mkNode r s0 e0 d (s0 :: ks') vs sm c) vs Hvs
              (s0 :: ks') true s0 Hb eq_refl) as (Hch & Hin);
    [discriminate|].
  rewrite He in Hch. split; assumption.
Qed.

End OneRange.

End GapFacts.

Section HasFacts.

Context {D Smry : Type}.
Variable tree : GiveTree.

Local Notation Node := (PineNode D Smry).
Local Notation Slot := (Bucket D Smry).
Local Notation CR := (ChromRegion D).

Lemma nonEmpty_app {A : Type} (l1 l2 : list A) :
  nonEmpty (l1 ++ l2) = nonEmpty l1 || nonEmpty l2.
Proof. destruct l1; reflexivity. Qed.

Section OneQuery.

Variable cr : CR.
Variable p : QueryProps D.
Hypothesis Hres : 1 <= requestedResolution cr (queryResolution p).

Local Notation res := (requestedResolution cr (queryResolution p)).
Local Notation gapsOf c := (gaps tree c (start cr) (end_ cr) res).

(** [hasUncachedRange] on a well-formed node tells whether [gaps] has a
    bucket. *)
Local Notation decides c :=
  (wellFormed c = true ->
   hasUncachedRange tree c (Some cr) p = Ok (nonEmpty (gapsOf c))).

Lemma hasUncachedWalk_gaps (n : Node) (vs : list Slot) :
  Forall (fun b => match b with Branch c => decides c | _ => True end) vs ->
  forall ks skipping,
    bucketsWellFormed wellFormed ks vs = true ->
    hasUncachedWalk tree (fun c => hasUncachedRange tree c (Some cr) p)
      n cr res skipping ks vs
    = Ok (nonEmpty
            (gapsWalk tree (fun c => gapsOf c) n (start cr) (end_ cr) res
               skipping ks vs)).
Proof.
  induction 1 as [|b vs Hb Hvs IH]; intros ks skipping Hwf.
  - reflexivity.
  - cbn [bucketsWellFormed] in Hwf.
    destruct ks as [|k0 [|k1 ks']]; try discriminate.
    apply andb_prop in Hwf as [Hwf Hrest].
    apply andb_prop in Hwf as [Hlt Hchild].
    cbn [hasUncachedWalk gapsWalk tl hd_error].
    destruct (skipping && Js.leU (Some k1) (start cr)).
    + now apply IH.
    + destruct (Js.ltU (Some k0) (end_ cr)); [|reflexivity].
      fold (descends tree n res b). fold (lacksData b).
      rewrite nonEmpty_app.
      destruct (descends tree n res b) eqn:Hdesc.
      * destruct (descends_branch tree n res b Hres Hdesc) as [c ->].
        apply andb_prop in Hchild as [Hchild _].
        apply andb_prop in Hchild as [Hc _].
        rewrite (Hb Hc). cbn [bind].
        destruct (nonEmpty (gapsOf c)); [reflexivity|].
        now apply IH.
      * destruct (lacksData b); [reflexivity|]. now apply IH.
Qed.

Lemma hasUncachedRange_gaps (n : Node) :
  decides n.
Proof.
  induction n as [r s e d ks vs sm c Hvs] using node_ind.
  intros Hwf. cbn [hasUncachedRange].
  cbn [wellFormed] in Hwf. apply andb_prop in Hwf as [_ Hwf].
  now apply hasUncachedWalk_gaps.
Qed.

End OneQuery.

(** [hasUncachedRange] reads neither [props.bufferingRatio] nor
    [props._result]. *)
Lemma hasUncachedRange_props (cr : option CR) (p p' : QueryProps D) :
  queryResolution p = queryResolution p' ->
  forall n : Node,
    hasUncachedRange tree n cr p = hasUncachedRange tree n cr p'.
Proof.
  intros Hq n.
  induction n as [r s e d ks vs sm c Hvs] using node_ind.
  destruct cr as [cr|]; [|reflexivity].
  cbn [hasUncachedRange]. rewrite <- Hq.
  set (res := requestedResolution cr (queryResolution p)).
  generalize (mkNode r s e d ks vs sm c) as n0. intros n0.
  generalize true as skipping. generalize ks as ks0.
  induction Hvs as [|b vs Hb Hvs IH]; intros ks0 skipping; [reflexivity|].
  cbn [hasUncachedWalk].
  destruct (skipping && _); [apply IH|].
  destruct (Js.ltU _ _); [|reflexivity].
  destruct (isPresent (Some b) && _).
  - destruct b as [| |c'|d']; try reflexivity.
    rewrite Hb. destruct (hasUncachedRange tree c' (Some cr) p');
      try reflexivity.
    cbn [bind]. destruct a; [reflexivity|apply IH].
  - destruct (negb (bucketHasData b)); [reflexivity|apply IH].
Qed.

Section OnePoint.

Variables s e res x : Z.
Hypothesis Hres : 1 <= res.
Hypothesis Hx : s <= x < e.

Local Notation gapsOf c := (gaps tree c s e res).
Local Notation walk n := (gapsWalk tree (fun c => gapsOf c) n s e res).
Local Notation inGap g := (fst g <= x < snd g).

(** The coordinate [x] of the queried range lies in a bucket of [gaps]
    exactly when [gapAt] says so. *)
Local Notation located c :=
  (wellFormed c = true ->
   ((exists g, In g (gapsOf c) /\ inGap g) <-> gapAt tree c res x = true)).

Lemma gapAtWalk_before (child : Node -> bool) (n : Node) (vs : list Slot) :
  forall ks k0,
    bucketsWellFormed wellFormed ks vs = true ->
    hd_error ks = Some k0 -> x < k0 ->
    gapAtWalk tree child n res x ks vs = false.
Proof.
  induction vs as [|b vs IH]; intros ks k Hwf Hhd Hlt; [reflexivity|].
  cbn [bucketsWellFormed] in Hwf.
  destruct ks as [|k0 [|k1 ks']]; try discriminate.
  cbn in Hhd. injection Hhd as <-.
  apply andb_prop in Hwf as [Hwf Hrest].
  apply andb_prop in Hwf as [Hk _]. apply Z.ltb_lt in Hk.
  cbn [gapAtWalk hd_error tl].
  replace (k0 <=? x) with false by (symmetry; apply Z.leb_gt; lia).
  cbn [andb]. apply (IH (k1 :: ks') k1 Hrest eq_refl). lia.
Qed.

Lemma gapsWalk_located (n : Node) (vs : list Slot) :
  Forall (fun b => match b with Branch c => located c | _ => True end) vs ->
  forall ks skipping k0,
    bucketsWellFormed wellFormed ks vs = true ->
    hd_error ks = Some k0 ->
    (skipping = false -> s < k0) ->
    ((exists g, In g (walk n skipping ks vs) /\ inGap g)
     <-> gapAtWalk tree (fun c => gapAt tree c res x) n res x ks vs = true).
Proof.
  induction 1 as [|b vs Hb Hvs IH]; intros ks skipping k Hwf Hhd Hskip.
  - cbn. split; [intros (g & [] & _) | discriminate].
  - pose proof Hwf as Hwf0. cbn [bucketsWellFormed] in Hwf.
    destruct ks as [|k0 [|k1 ks']]; try discriminate.
    cbn in Hhd. injection Hhd as <-.
    apply andb_prop in Hwf as [Hwf Hrest].
    apply andb_prop in Hwf as [Hlt Hchild]. apply Z.ltb_lt in Hlt.
    cbn [gapsWalk gapAtWalk tl hd_error].
    destruct (skipping && Js.leU (Some k1) s) eqn:Hsk.
    + apply andb_prop in Hsk as [-> Hle]. cbn in Hle. apply Z.leb_le in Hle.
      replace (x <? k1) with false by (symmetry; apply Z.ltb_ge; lia).
      rewrite andb_false_r.
      now apply (IH (k1 :: ks') true k1).
    + assert (Hs1 : s < k1).
      { destruct skipping; cbn in Hsk.
        - apply Z.leb_gt in Hsk. lia.
        - specialize (Hskip eq_refl). lia. }
      destruct (Js.ltU (Some k0) e) eqn:Hk0e.
      2:{ cbn in Hk0e. apply Z.ltb_ge in Hk0e.
          replace (k0 <=? x) with false by (symmetry; apply Z.leb_gt; lia).
          cbn [andb].
          rewrite (gapAtWalk_before _ n vs (k1 :: ks') k1 Hrest eq_refl)
            by lia.
          split; [intros (g & [] & _) | discriminate]. }
      destruct (gapsWalk_ordered tree s e res Hres n vs
                  ltac:(clear - Hvs Hres; induction Hvs as [|b vs _ _ IHv];
                        constructor;
                        [destruct b; try exact I;
                         apply gaps_ordered; exact Hres | exact IHv])
                  (k1 :: ks') false k1 Hrest eq_refl ltac:(intros _; exact Hs1))
        as (Hrch & _).
      assert (Hrest_out : x < k1 ->
        forall g, In g (walk n false (k1 :: ks') vs) -> ~ inGap g).
      { intros Hxk g Hg Hin.
        destruct (chain_In _ _ _ g Hrch Hg) as (? & ? & ?). lia. }
      specialize (IH (k1 :: ks') false k1 Hrest eq_refl
                    ltac:(intros _; exact Hs1)).
      destruct ((k0 <=? x) && (x <? k1)) eqn:Hin.
      * apply andb_prop in Hin as [H1 H2].
        apply Z.leb_le in H1. apply Z.ltb_lt in H2.
        destruct (descends tree n res b) eqn:Hdesc.
        -- destruct (descends_branch tree n res b Hres Hdesc) as [c ->].
           apply andb_prop in Hchild as [Hchild _].
           apply andb_prop in Hchild as [Hc _].
           rewrite <- (Hb Hc). split.
           ++ intros (g & Hg & Hgin). apply in_app_or in Hg as [Hg|Hg].
              ** now exists g.
              ** now destruct (Hrest_out H2 g Hg).
           ++ intros (g & Hg & Hgin). exists g. split; [|assumption].
              apply in_or_app. now left.
        -- destruct (lacksData b).
           ++ split; [reflexivity|]. intros _. exists (k0, k1).
              split; [now left | cbn; lia].
           ++ split; [|discriminate]. intros (g & Hg & Hgin).
              now destruct (Hrest_out H2 g Hg).
      * assert (Hout : ~ (k0 <= x < k1)).
        { intros [H1 H2]. apply Z.leb_le in H1. apply Z.ltb_lt in H2.
          rewrite H1, H2 in Hin. discriminate. }
        rewrite <- IH. split.
        -- intros (g & Hg & Hgin). apply in_app_or in Hg as [Hg|Hg];
             [|now exists g].
           exfalso. apply Hout.
           destruct (descends tree n res b) eqn:Hdesc.
           ++ destruct (descends_branch tree n res b Hres Hdesc) as [c ->].
              apply andb_prop in Hchild as [Hchild Hce].
              apply andb_prop in Hchild as [Hc Hcs].
              apply Z.eqb_eq in Hce. apply Z.eqb_eq in Hcs.
              destruct (gaps_ordered tree s e res Hres c Hc) as (Hcch & _).
              destruct (chain_In _ _ _ g Hcch Hg) as (? & ? & ?). lia.
           ++ destruct (lacksData b); [|destruct Hg].
              destruct Hg as [<-|[]]. exact Hgin.
        -- intros (g & Hg & Hgin). exists g. split; [|assumption].
           apply in_or_app. now right.
Qed.

Lemma gaps_located (n : Node) :
  located n.
Proof.
  induction n as [r s0 e0 d ks vs sm c Hvs] using node_ind.
  intros Hwf. cbn [wellFormed] in Hwf.
  apply andb_prop in Hwf as [Hwf Hb]. apply andb_prop in Hwf as [Hs _].
  destruct ks as [|k ks']; [discriminate|].
  cbn [gaps gapAt].
  apply (gapsWalk_located (mkNode r s0 e0 d (k :: ks') vs sm c) vs Hvs
           (k :: ks') true k Hb eq_refl).
  discriminate.
Qed.

End OnePoint.

End HasFacts.

Section ReportFacts.

Context {D : Type}.

Local Notation CR := (ChromRegion D).

Lemma pushRange_nonEmpty (acc : list CR) (c rs re : Z) :
  nonEmpty (pushRange acc c rs re) = true.
Proof.
  induction acc as [|l t IH]; [reflexivity|].
  cbn [pushRange]. destruct t; [|reflexivity].
  now destruct (sameResolution _ _ && _).
Qed.

Lemma reportAll_nonEmpty (cr : CR) (c : Z) (gs : list (Z * Z)) :
  forall acc,
    nonEmpty (reportAll cr c gs acc) = nonEmpty gs || nonEmpty acc.
Proof.
  unfold reportAll. induction gs as [|g t IH]; intros acc; [reflexivity|].
  cbn [fold_left nonEmpty orb]. rewrite IH.
  destruct (retrieveRange cr c (fst g) (snd g)) as [rs re].
  rewrite pushRange_nonEmpty. apply orb_true_r.
Qed.

Lemma pushRange_head (acc : list CR) (b : CR) (c rs re : Z) :
  exists b' t, pushRange (b :: acc) c rs re = b' :: t /\ start b' = start b.
Proof.
  cbn [pushRange]. destruct acc as [|a t].
  - destruct (sameResolution _ _ && _); eexists; eexists; split; reflexivity.
  - eexists; eexists; split; reflexivity.
Qed.

Lemma pushRange_ordered (c rs re lo : Z) (acc : list CR) :
  orderedDisjoint acc ->
  Forall (fun r => end_ r <= lo) acc ->
  lo <= rs -> rs < re ->
  orderedDisjoint (pushRange acc c rs re)
  /\ Forall (fun r => end_ r <= re) (pushRange acc c rs re).
Proof.
  intros Hord Hall Hlo Hlt.
  induction acc as [|l t IH].
  - cbn. repeat split; try lia. repeat constructor. cbn. lia.
  - cbn [orderedDisjoint] in Hord. destruct Hord as (Hl & Hnext & Hord).
    apply Forall_cons_iff in Hall as [Hle Hall].
    destruct t as [|b t'].
    + cbn [pushRange].
      destruct (sameResolution (resolution l) c && (end_ l =? rs)).
      * cbn. repeat split; try lia. repeat constructor. cbn. lia.
      * cbn. repeat split; try lia. repeat constructor; cbn; lia.
    + specialize (IH Hord Hall). destruct IH as (IHo & IHa).
      destruct (pushRange_head t' b c rs re) as (b' & t'' & Heq & Hst).
      change (pushRange (l :: b :: t') c rs re)
        with (l :: pushRange (b :: t') c rs re).
      rewrite Heq in *. split.
      * cbn [orderedDisjoint] in IHo |- *. destruct IHo as (? & ? & ?).
        repeat split; try assumption; lia.
      * constructor; [lia | assumption].
Qed.

Lemma covers_nil (x : Z) : covers (@nil CR) x <-> False.
Proof. unfold covers. split; [intros (r & [] & _) | intros []]. Qed.

Lemma covers_cons (a : CR) (t : list CR) (x : Z) :
  covers (a :: t) x <-> start a <= x < end_ a \/ covers t x.
Proof.
  unfold covers. split.
  - intros (r & [Heq|Hin] & Hr).
    + subst r. now left.
    + right. now exists r.
  - intros [Ha|(r & Hin & Hr)].
    + exists a. split; [now left|exact Ha].
    + exists r. split; [now right|exact Hr].
Qed.

Lemma pushRange_covers (c rs re lo x : Z) (acc : list CR) :
  orderedDisjoint acc ->
  Forall (fun r => end_ r <= lo) acc ->
  lo <= rs -> rs < re ->
  (covers (pushRange acc c rs re) x <-> covers acc x \/ rs <= x < re).
Proof.
  intros Hord Hall Hlo Hlt.
  induction acc as [|l t IH].
  - cbn [pushRange]. rewrite covers_cons, covers_nil. cbn [start end_]. tauto.
  - cbn [orderedDisjoint] in Hord. destruct Hord as (Hl & Hnext & Hord).
    apply Forall_cons_iff in Hall as [Hle Hall].
    destruct t as [|b t'].
    + cbn [pushRange].
      destruct (sameResolution (resolution l) c && (end_ l =? rs)) eqn:Hc.
      * apply andb_prop in Hc as [_ He]. apply Z.eqb_eq in He.
        rewrite !covers_cons, !covers_nil. cbn [setEnd start end_]. lia.
      * rewrite !covers_cons, !covers_nil. cbn [start end_]. tauto.
    + specialize (IH Hord Hall).
      change (pushRange (l :: b :: t') c rs re)
        with (l :: pushRange (b :: t') c rs re).
      rewrite (covers_cons l (pushRange (b :: t') c rs re)).
      rewrite (covers_cons l (b :: t')). rewrite IH. tauto.
Qed.

Section OneQuery.

Variable cr : CR.
Variable c : Z.
Hypothesis Hc : 0 < c.
Hypothesis Hcr : start cr < end_ cr.

Lemma retrieve_bounds (k0 k1 : Z) :
  k0 < k1 -> k0 < end_ cr -> start cr < k1 ->
  k0 <= fst (retrieveRange cr c k0 k1)
  /\ fst (retrieveRange cr c k0 k1) < snd (retrieveRange cr c k0 k1)
  /\ snd (retrieveRange cr c k0 k1) <= k1
  /\ forall x, start cr <= x < end_ cr ->
       (fst (retrieveRange cr c k0 k1) <= x < snd (retrieveRange cr c k0 k1)
        <-> k0 <= x < k1).
Proof.
  intros H01 H0e Hs1. unfold retrieveRange, Js.Math_max, Js.Math_min.
  cbn [fst snd].
  pose proof (fit_floor_le (start cr) c Hc).
  pose proof (fit_ceil_ge (end_ cr) c Hc).
  repeat split; intros; lia.
Qed.

Lemma reportAll_ordered (gs : list (Z * Z)) :
  forall acc lo hi,
    chain lo gs hi ->
    (forall g, In g gs -> fst g < end_ cr /\ start cr < snd g) ->
    orderedDisjoint acc ->
    Forall (fun r => end_ r <= lo) acc ->
    orderedDisjoint (reportAll cr c gs acc)
    /\ Forall (fun r => end_ r <= hi) (reportAll cr c gs acc).
Proof.
  unfold reportAll.
  induction gs as [|g t IH]; intros acc lo hi Hch Hmeet Hord Hall.
  - cbn in *. split; [assumption|].
    eapply Forall_impl; [|exact Hall]. cbn. intros; lia.
  - cbn [chain] in Hch. destruct Hch as (Hlo & Hg & Hch).
    destruct (Hmeet g (or_introl eq_refl)) as [Hge Hsg].
    destruct (retrieve_bounds (fst g) (snd g) Hg Hge Hsg)
      as (Hb1 & Hb2 & Hb3 & _).
    cbn [fold_left].
    destruct (retrieveRange cr c (fst g) (snd g)) as [rs re].
    cbn [fst snd] in *.
    destruct (pushRange_ordered c rs re lo acc Hord Hall) as (Ho & Ha);
      try lia.
    apply (IH _ (snd g) hi Hch); try assumption.
    + intros g' Hg'. apply Hmeet. now right.
    + eapply Forall_impl; [|exact Ha]. cbn. intros; lia.
Qed.

Lemma reportAll_covers (x : Z) (gs : list (Z * Z)) :
  start cr <= x < end_ cr ->
  forall acc lo hi,
    chain lo gs hi ->
    (forall g, In g gs -> fst g < end_ cr /\ start cr < snd g) ->
    orderedDisjoint acc ->
    Forall (fun r => end_ r <= lo) acc ->
    (covers (reportAll cr c gs acc) x
     <-> covers acc x \/ exists g, In g gs /\ fst g <= x < snd g).
Proof.
  intros Hx. unfold reportAll.
  induction gs as [|g t IH]; intros acc lo hi Hch Hmeet Hord Hall.
  - cbn. split; [now left|]. intros [H|(g & [] & _)]. exact H.
  - cbn [chain] in Hch. destruct Hch as (Hlo & Hg & Hch).
    destruct (Hmeet g (or_introl eq_refl)) as [Hge Hsg].
    destruct (retrieve_bounds (fst g) (snd g) Hg Hge Hsg)
      as (Hb1 & Hb2 & Hb3 & Hb4).
    specialize (Hb4 x Hx).
    cbn [fold_left].
    destruct (retrieveRange cr c (fst g) (snd g)) as [rs re].
    cbn [fst snd] in *.
    destruct (pushRange_ordered c rs re lo acc Hord Hall) as (Ho & Ha);
      try lia.
    rewrite (IH _ (snd g) hi Hch); try assumption.
    + rewrite (pushRange_covers c rs re lo x acc Hord Hall) by lia.
      split.
      * intros [[H|H]|(g' & Hin & H)].
        -- now left.
        -- right. exists g. split; [now left | tauto].
        -- right. exists g'. split; [now right | exact H].
      * intros [H|(g' & [<-|Hin] & H)].
        -- left. now left.
        -- left. right. tauto.
        -- right. exists g'. split; assumption.
    + intros g' Hg'. apply Hmeet. now right.
    + eapply Forall_impl; [|exact Ha]. cbn. intros; lia.
Qed.

End OneQuery.

End ReportFacts.

Section QueryTheorems.

Context {D Smry : Type}.
Variable num : LogNumerics.
Variable tree : GiveTree.

Local Notation Node := (PineNode D Smry).
Local Notation CR := (ChromRegion D).
Local Notation res cr p := (requestedResolution cr (queryResolution p)).
Local Notation ratioOf p := (fst (normalizeRatio p [])).
Local Notation closestFor cr p :=
  (_getClosestResolution (floorLogQuot num) tree
     (inject_Z (res cr p) / ratioOf p)).

Lemma normalizeRatio_log (p : QueryProps D) (log : list string) :
  normalizeRatio p log
  = (ratioOf p, log ++ snd (normalizeRatio p [])).
Proof.
  unfold normalizeRatio. destruct (Qle_bool 1 _); cbn [fst snd app].
  - now rewrite app_nil_r.
  - reflexivity.
Qed.

(** [getUncachedRange] on a well-formed node: the buckets it reports are
    those of [gaps], which are found at the requested resolution; the
    buffering ratio only enters the resolution the ranges are tagged with
    and aligned to. *)
Lemma getUncachedRange_reports (n : Node) (cr : CR) (p : QueryProps D)
    (log : list string) :
  wellFormed n = true ->
  1 <= res cr p ->
  getUncachedRange num tree n (Some cr) p log
  = Ok (mkQuery (queryResolution p) (Some (ratioOf p))
          (Some (reportAll cr (closestFor cr p)
                   (gaps tree n (start cr) (end_ cr) (res cr p))
                   (Js.orElse (_result p) []))),
        log ++ snd (normalizeRatio p [])).
Proof.
  intros Hwf Hres.
  rewrite <- (getUncachedRange_gaps num tree cr (queryResolution p)
                (ratioOf p) (normalizeRatio_ge1 p []) Hres n Hwf).
  destruct n as [r s e d ks vs sm c].
  cbn [getUncachedRange queryResolution _result Js.orElse].
  rewrite (normalizeRatio_log p log).
  rewrite normalizeRatio_stable by apply normalizeRatio_ge1.
  reflexivity.
Qed.

(** C3 (as amended). On a well-formed node, for a non-empty range, a
    requested resolution of at least 1 and [props] whose [_result] is
    absent or empty: [hasUncachedRange] returns [true] if and only if the
    list [getUncachedRange] returns is not empty; that list is a
    start-ordered sequence of disjoint, non-empty ranges; and a coordinate
    of the queried range is covered by the list exactly when
    [hasUncachedRange], asked about that coordinate alone, returns
    [true]. *)
Theorem uncached_ranges_agree (n : Node) (cr : CR) (p : QueryProps D)
    (log : list string) :
  wellFormed n = true ->
  1 <= scalingFactor tree -> 1 <= leafScalingFactor tree ->
  (forall b x, 0 <= floorLogQuot num b x) ->
  start cr < end_ cr ->
  1 <= res cr p ->
  Js.orElse (_result p) [] = [] ->
  exists l p' log',
    getUncachedRange num tree n (Some cr) p log = Ok (p', log')
    /\ _result p' = Some l
    /\ hasUncachedRange tree n (Some cr) p = Ok (nonEmpty l)
    /\ orderedDisjoint l
    /\ forall x, start cr <= x < end_ cr ->
         (covers l x <->
          hasUncachedRange tree n
            (Some (mkRegion x (x + 1) (resolution cr) None)) p = Ok true).
Proof.
  intros Hwf Hsf Hlsf Hflq Hcr Hres Hacc.
  set (gs := gaps tree n (start cr) (end_ cr) (res cr p)).
  assert (Hc : 0 < closestFor cr p)
    by (apply closest_resolution_pos; assumption).
  destruct (gaps_ordered tree (start cr) (end_ cr) (res cr p) Hres n Hwf)
    as (Hch & Hmeet).
  eexists. eexists. eexists.
  split; [apply getUncachedRange_reports; assumption|].
  split; [reflexivity|]. rewrite Hacc. fold gs.
  split; [|split].
  - rewrite (hasUncachedRange_gaps tree cr p Hres n Hwf). fold gs.
    rewrite reportAll_nonEmpty. now rewrite orb_false_r.
  - apply (reportAll_ordered cr (closestFor cr p) Hc Hcr gs [] (nstart n)
             (nend n) Hch Hmeet); constructor.
  - intros x Hx.
    rewrite (reportAll_covers cr (closestFor cr p) Hc Hcr x gs Hx []
               (nstart n) (nend n) Hch Hmeet I (Forall_nil _)).
    rewrite covers_nil.
    set (pt := mkRegion x (x + 1) (resolution cr) None : CR).
    assert (Hrp : res pt p = res cr p) by reflexivity.
    rewrite (hasUncachedRange_gaps tree pt p ltac:(rewrite Hrp; exact Hres)
               n Hwf).
    rewrite Hrp. cbn [start end_ pt].
    destruct (gaps_ordered tree x (x + 1) (res cr p) Hres n Hwf)
      as (_ & Hmeet1).
    pose proof (gaps_located tree (start cr) (end_ cr) (res cr p) x Hres Hx
                  n Hwf) as Hloc.
    pose proof (gaps_located tree x (x + 1) (res cr p) x Hres
                  ltac:(lia) n Hwf) as Hloc1.
    fold gs in Hloc. rewrite Hloc, <- Hloc1.
    split.
    + intros [[]|(g & Hg & _)].
      destruct (gaps tree n x (x + 1) (res cr p)); [destruct Hg|reflexivity].
    + intros Hne. right.
      destruct (gaps tree n x (x + 1) (res cr p)) as [|g t] eqn:Hgs;
        [discriminate|].
      exists g. split; [now left|].
      destruct (Hmeet1 g (or_introl eq_refl)). lia.
Qed.

(** C9 (as amended). [hasUncachedRange] does not read the buffering
    ratio.  [getUncachedRange] decides which buckets to report at the
    requested resolution, whatever the ratio is; the ratio only enters the
    closest resolution, [_getClosestResolution (resolution / ratio)], that
    the reported ranges are aligned to and tagged with.  A ratio that is
    absent or 0 counts as 1; a ratio below 1 is replaced by 1 and a
    diagnostic is logged; any other ratio is kept, and nothing is
    logged. *)
Theorem buffering_ratio_role (n : Node) (cr : CR) (p : QueryProps D)
    (log : list string) :
  wellFormed n = true ->
  1 <= res cr p ->
  (forall ratio' result',
     hasUncachedRange tree n (Some cr)
       (mkQuery (queryResolution p) ratio' result')
     = hasUncachedRange tree n (Some cr) p)
  /\ getUncachedRange num tree n (Some cr) p log
     = Ok (mkQuery (queryResolution p) (Some (ratioOf p))
             (Some (reportAll cr
                      (_getClosestResolution (floorLogQuot num) tree
                         (inject_Z (res cr p) / ratioOf p))
                      (gaps tree n (start cr) (end_ cr) (res cr p))
                      (Js.orElse (_result p) []))),
           log ++ snd (normalizeRatio p []))
  /\ (forall r, bufferingRatio p = Some r -> (1 <= r)%Q ->
        normalizeRatio p [] = (r, []))
  /\ (forall r, bufferingRatio p = Some r -> ~ (r == 0)%Q -> (r < 1)%Q ->
        normalizeRatio p []
        = (1%Q, ["Invalid bufferingRatio. Should be greater than 1. Changed to 1 instead."%string]))
  /\ ((bufferingRatio p = None
       \/ exists r, bufferingRatio p = Some r /\ (r == 0)%Q) ->
      normalizeRatio p [] = (1%Q, [])).
Proof.
  intros Hwf Hres.
  split; [intros; now apply hasUncachedRange_props|].
  split; [now apply getUncachedRange_reports|].
  split; [|split].
  - intros r Hr Hle. unfold normalizeRatio. rewrite Hr.
    destruct (Qeq_bool r 0) eqn:H0.
    + exfalso. apply Qeq_bool_iff in H0. rewrite H0 in Hle. now apply Hle.
    + apply Qle_bool_iff in Hle. now rewrite Hle.
  - intros r Hr Hnz Hlt. unfold normalizeRatio. rewrite Hr.
    destruct (Qeq_bool r 0) eqn:H0.
    + exfalso. apply Hnz. now apply Qeq_bool_iff.
    + destruct (Qle_bool 1 r) eqn:Hle; [|reflexivity].
      exfalso. apply Qle_bool_iff in Hle.
      exact (Qlt_irrefl _ (Qle_lt_trans _ _ _ Hle Hlt)).
  - intros [Hn|(r & Hr & H0)]; unfold normalizeRatio.
    + now rewrite Hn.
    + rewrite Hr. apply Qeq_bool_iff in H0. now rewrite H0.
Qed.

End QueryTheorems.

(** C3 (counterexample). On the tree of scenario A with the entry
    inserted over the whole span, nothing is missing over [0, 1000) at
    resolution 1; a [props] that brings the result of an earlier call gets
    it back from [getUncachedRange], while [hasUncachedRange] returns
    [false]. *)
Lemma seeded_result_is_returned :
  exists n ctx,
    ScenarioA.insertedOverSpan = Ok (n, ctx, true)
    /\ hasUncachedRange ScenarioA.tree n
         (Some (mkRegion 0 1000 (Some 1) None))
         (mkQuery None None (Some [mkRegion 200000 300000 (Some 1) None]))
       = Ok false
    /\ getUncachedRange exactLogs ScenarioA.tree n
         (Some (mkRegion 0 1000 (Some 1) None))
         (mkQuery None None (Some [mkRegion 200000 300000 (Some 1) None])) []
       = Ok (mkQuery None (Some 1%Q)
               (Some [mkRegion 200000 300000 (Some 1) None]), []).
Proof.
  eexists. eexists. split; [vm_compute; reflexivity|].
  split; vm_compute; reflexivity.
Qed.

Lemma uncached_ranges_agree_witness :
  exists n ctx,
    ScenarioA.insertedCell = Ok (n, ctx, true)
    /\ exists l p' log',
         getUncachedRange exactLogs ScenarioA.tree n
           (Some (mkRegion 0 1000 (Some 100) None))
           (mkQuery None None None) [] = Ok (p', log')
         /\ _result p' = Some l
         /\ hasUncachedRange ScenarioA.tree n
              (Some (mkRegion 0 1000 (Some 100) None))
              (mkQuery None None None) = Ok (nonEmpty l)
         /\ orderedDisjoint l.
Proof.
  eexists. eexists. split; [vm_compute; reflexivity|].
  match goal with
  | |- exists l p' log', getUncachedRange _ _ ?n _ _ _ = _ /\ _ =>
      destruct (uncached_ranges_agree exactLogs ScenarioA.tree n
                  (mkRegion 0 1000 (Some 100) None)
                  (mkQuery None None None) [])
        as (l & p' & log' & H1 & H2 & H3 & H4 & _)
  end.
  - vm_compute. reflexivity.
  - vm_compute. congruence.
  - vm_compute. congruence.
  - intros b x. apply floorLog_nonneg.
  - vm_compute. reflexivity.
  - vm_compute. congruence.
  - reflexivity.
  - exists l, p', log'. repeat split; assumption.
Defined.

(** C9 (counterexample). The cell [0, 100) holds a precomputed summary of
    resolution 100 over an Unknown bucket.  Asked at resolution 100 with a
    buffering ratio of 2, both queries find nothing missing, although at
    the effective resolution 100 / 2 = 50 the cell is not fine enough:
    asked at resolution 50, [hasUncachedRange] returns [true]. *)
Lemma sufficiency_ignores_buffering :
  exists n ctx,
    ScenarioA.insertedCell = Ok (n, ctx, true)
    /\ hasUncachedRange ScenarioA.tree n (Some (ScenarioA.cellQuery 100))
         (ScenarioA.cellProps (Some (2 # 1))) = Ok false
    /\ getUncachedRange exactLogs ScenarioA.tree n
         (Some (ScenarioA.cellQuery 100))
         (ScenarioA.cellProps (Some (2 # 1))) []
       = Ok (mkQuery None (Some (2 # 1)) (Some []), [])
    /\ hasUncachedRange ScenarioA.tree n (Some (ScenarioA.cellQuery 50))
         (ScenarioA.cellProps None) = Ok true
    /\ (inject_Z 100 / (2 # 1) == inject_Z 50)%Q.
Proof.
  eexists. eexists. split; [vm_compute; reflexivity|].
  repeat split; vm_compute; reflexivity.
Qed.

Lemma buffering_ratio_role_witness :
  exists n ctx,
    ScenarioA.insertedCell = Ok (n, ctx, true)
    /\ getUncachedRange exactLogs ScenarioA.tree n
         (Some (mkRegion 0 1000 (Some 100) None))
         (mkQuery None (Some (1 # 2)) None) []
       = Ok (mkQuery None (Some 1%Q)
               (Some [mkRegion 100 1000 (Some 100) None]),
             ["Invalid bufferingRatio. Should be greater than 1. Changed to 1 instead."%string]).
Proof.
  eexists. eexists. split; [vm_compute; reflexivity|].
  match goal with
  | |- getUncachedRange _ _ ?n _ _ _ = _ =>
      destruct (buffering_ratio_role exactLogs ScenarioA.tree n
                  (mkRegion 0 1000 (Some 100) None)
                  (mkQuery None (Some (1 # 2)) None) [])
        as (_ & H & _)
  end.
  - vm_compute. reflexivity.
  - vm_compute. congruence.
  - rewrite H. vm_compute. reflexivity.
Defined.

(** ** The other scenarios of the specification *)

(** Scenario B: after empty data is inserted over [0, 10000), nothing is
    missing there at resolution 100. *)
Lemma scenario_B_nothing_missing :
  exists n ctx,
    ScenarioA.insertedEmpty = Ok (n, ctx, true)
    /\ hasUncachedRange ScenarioA.tree n
         (Some (mkRegion 0 10000 (Some 100) None)) (mkQuery None None None)
       = Ok false
    /\ getUncachedRange exactLogs ScenarioA.tree n
         (Some (mkRegion 0 10000 (Some 100) None)) (mkQuery None None None) []
       = Ok (mkQuery None (Some 1%Q) (Some []), []).
Proof.
  eexists. eexists. split; [vm_compute; reflexivity|].
  split; vm_compute; reflexivity.
Qed.

(** Scenario C: a request at resolution 1000 over a region of width 5000
    of the empty tree reports one range, aligned to the grid of 1000 and
    tagged with it. *)
Lemma scenario_C_aligned :
  getUncachedRange exactLogs ScenarioA.tree ScenarioA.root
    (Some (mkRegion 20500 25500 (Some 1000) None)) (mkQuery None None None) []
  = Ok (mkQuery None (Some 1%Q)
          (Some [mkRegion 20000 26000 (Some 1000) None]), []).
Proof. vm_compute. reflexivity. Qed.

(** The same request at resolution 100000: with the binary64 quotient of
    logarithms the range is aligned to and tagged with 10000, with the
    exact one 100000. *)
Lemma scenario_C_binary64 :
  getUncachedRange Binary64.logs ScenarioA.tree ScenarioA.root
    (Some (mkRegion 20500 25500 (Some 100000) None))
    (mkQuery None None None) []
  = Ok (mkQuery None (Some 1%Q)
          (Some [mkRegion 20000 30000 (Some 10000) None]), [])
  /\ getUncachedRange exactLogs ScenarioA.tree ScenarioA.root
       (Some (mkRegion 20500 25500 (Some 100000) None))
       (mkQuery None None None) []
     = Ok (mkQuery None (Some 1%Q)
             (Some [mkRegion 0 100000 (Some 100000) None]), []).
Proof. split; vm_compute; reflexivity. Qed.

(** * Further properties of the code *)

(** ** The grid of [fitResolution] *)

Lemma fit_multiple (q : Q) (k r : Z) :
  0 < r -> (q == inject_Z (k * r))%Q -> (q / inject_Z r == inject_Z k)%Q.
Proof.
  intros Hr Hq. rewrite Hq, inject_Z_mult. field.
  intro H0. apply inject_Z_pos in Hr. rewrite H0 in Hr.
  now apply Qlt_irrefl in Hr.
Qed.

Lemma Math_round_Z (k : Z) : Js.Math_round (inject_Z k) = k.
Proof.
  unfold Js.Math_round. apply Qfloor_unique.
  - rewrite <- (Qplus_0_r (inject_Z k)) at 1.
    apply Qplus_le_r. discriminate.
  - rewrite inject_Z_plus. apply Qplus_lt_r. reflexivity.
Qed.

(** X1. [fitResolution] with [Math.floor] and with [Math.ceil] gives the
    two ends of the bin of size [r] that holds [v]: the lower end is at most
    [v] and less than [r] below it, the upper end is at least [v] and less
    than [r] above it, and the two are equal (when [v] is on the grid) or
    [r] apart.  Whatever the rounding function, the result is on the grid:
    fitting it again, downwards, upwards or to the nearest, gives it back. *)
Theorem fitResolution_grid (v : Q) (r : Z) :
  0 < r ->
  let lo := fitResolution v r (Some Js.Math_floor) in
  let hi := fitResolution v r (Some Js.Math_ceil) in
  ((inject_Z lo <= v)%Q /\ (v < inject_Z (lo + r))%Q)
  /\ ((inject_Z (hi - r) < v)%Q /\ (v <= inject_Z hi)%Q)
  /\ (hi = lo \/ hi = lo + r)
  /\ (forall (f : Q -> Z) (m : option (Q -> Z)),
        In m [Some Js.Math_floor; Some Js.Math_ceil; None] ->
        fitResolution (inject_Z (fitResolution v r (Some f))) r m
        = fitResolution v r (Some f)).
Proof.
  intros Hr lo hi.
  assert (HR : (0 < inject_Z r)%Q) by now apply inject_Z_pos.
  assert (HR0 : ~ (inject_Z r == 0)%Q).
  { intro H0. rewrite H0 in HR. now apply Qlt_irrefl in HR. }
  set (q := (v / inject_Z r)%Q).
  assert (Hv : (v == q * inject_Z r)%Q) by (unfold q; field; assumption).
  assert (Hlo : lo = Qfloor q * r) by reflexivity.
  assert (Hhi : hi = Qceiling q * r) by reflexivity.
  pose proof (Qfloor_le q) as F1. pose proof (Qlt_floor q) as F2.
  pose proof (Qle_ceiling q) as C1. pose proof (Qceiling_lt q) as C2.
  assert (Hfc : Qfloor q <= Qceiling q).
  { rewrite Zle_Qle. eapply Qle_trans; eassumption. }
  assert (Hcf : Qceiling q - 1 < Qfloor q + 1).
  { rewrite Zlt_Qlt. eapply Qlt_trans; eassumption. }
  split; [|split; [|split; [|]]].
  - rewrite Hlo. split.
    + rewrite inject_Z_mult, Hv. now apply Qmult_le_compat_r; [|apply Qlt_le_weak].
    + replace (Qfloor q * r + r) with ((Qfloor q + 1) * r) by ring.
      rewrite inject_Z_mult, Hv. now apply Qmult_lt_compat_r.
  - rewrite Hhi. split.
    + replace (Qceiling q * r - r) with ((Qceiling q - 1) * r) by ring.
      rewrite inject_Z_mult, Hv. now apply Qmult_lt_compat_r.
    + rewrite inject_Z_mult, Hv. now apply Qmult_le_compat_r; [|apply Qlt_le_weak].
  - rewrite Hlo, Hhi.
    assert (Qceiling q = Qfloor q \/ Qceiling q = Qfloor q + 1) as [->| ->]
      by lia; [left | right]; ring.
  - intros f m Hm.
    assert (Hq : (inject_Z (fitResolution v r (Some f)) / inject_Z r
                  == inject_Z (f q))%Q).
    { apply fit_multiple; [assumption|reflexivity]. }
    change (fitResolution v r (Some f)) with (f q * r) in *.
    unfold fitResolution, Js.parseInt. f_equal.
    destruct Hm as [<-|[<-|[<-|[]]]]; cbn [Js.orElse].
    + unfold Js.Math_floor. rewrite (Qfloor_comp _ _ Hq). apply Qfloor_Z.
    + unfold Js.Math_ceil. rewrite (Qceiling_comp _ _ Hq). apply Qceiling_Z.
    + rewrite <- (Math_round_Z (f q)) at 2. unfold Js.Math_round.
      apply Qfloor_comp. now rewrite Hq.
Qed.

(** 12 in bins of 10 lies between 10 and 20. *)
Lemma fitResolution_grid_witness :
  fitResolution 12 10 (Some Js.Math_floor) = 10
  /\ fitResolution 12 10 (Some Js.Math_ceil) = 20
  /\ fitResolution (inject_Z (fitResolution 12 10 None)) 10
       (Some Js.Math_ceil) = 10.
Proof.
  destruct (fitResolution_grid 12 10) as (_ & _ & _ & H); [lia|].
  split; [reflexivity|]. split; [reflexivity|].
  change (fitResolution 12 10 None)
    with (fitResolution 12 10 (Some Js.Math_round)).
  rewrite H; [reflexivity | right; now left].
Defined.

(** ** The tier of a new node *)

Lemma div_le_inject (a c p : Z) :
  0 < c -> (Js.div a c <= inject_Z p)%Q -> a <= p * c.
Proof.
  intros Hc H. destruct (Z_le_gt_dec a (p * c)) as [Hle|Hgt]; [exact Hle|].
  exfalso. apply (Qle_not_lt _ _ H). unfold Js.div.
  apply Qlt_shift_div_l; [now apply inject_Z_pos|].
  rewrite <- inject_Z_mult, <- Zlt_Qlt. lia.
Qed.

Lemma div_gt_inject (a c p : Z) :
  0 < c -> (inject_Z p < Js.div a c)%Q -> p * c < a.
Proof.
  intros Hc H. destruct (Z_lt_le_dec (p * c) a) as [Hlt|Hge]; [exact Hlt|].
  exfalso. apply (Qlt_not_le _ _ H). unfold Js.div.
  apply Qle_shift_div_r; [now apply inject_Z_pos|].
  now rewrite <- inject_Z_mult, <- Zle_Qle.
Qed.

Lemma div_gt_one (a c : Z) : 0 < c -> c < a -> (1 < Js.div a c)%Q.
Proof.
  intros Hc Ha. unfold Js.div.
  apply Qlt_shift_div_l; [now apply inject_Z_pos|].
  rewrite Qmult_1_l. now rewrite <- Zlt_Qlt.
Qed.

(** X2. Whenever [Math.ceil] of the quotient of logarithms in the
    constructor is the exact ceiling of the logarithm (binary64 may be off
    by one next to a power of the scaling factor), the constructor gives a
    new node the least reverse depth whose resolution covers the span of the
    node: the reverse depth is 0 exactly when the span is at most
    [leafScalingFactor], the resolution of the node is at least its span,
    and the resolution of every tier below is less than the span. *)
Theorem new_node_tier (D Smry : Type) (num : LogNumerics) (t : GiveTree)
    (root : bool) (s e : Z) :
  1 < scalingFactor t -> 1 <= leafScalingFactor t ->
  ceilLogDiffQuot num (scalingFactor t) (e - s) (leafScalingFactor t)
  = ceilLog (scalingFactor t) (Js.div (e - s) (leafScalingFactor t)) ->
  let n : PineNode D Smry := newPineNode num t root s e in
  0 <= reverseDepth n
  /\ (reverseDepth n = 0 <-> e - s <= leafScalingFactor t)
  /\ e - s <= nodeResolution t n
  /\ (forall d, 0 <= d < reverseDepth n ->
        _getResolutionAtDepth t d < e - s).
Proof.
  intros Hsf Hlsf Hexact n. unfold n, newPineNode, nodeResolution.
  cbn [reverseDepth]. unfold tierFor. rewrite Hexact.
  destruct (e - s <=? leafScalingFactor t) eqn:Hspan.
  - apply Z.leb_le in Hspan.
    rewrite tier_resolution_value by lia. rewrite Z.pow_0_r.
    repeat split; try lia.
  - apply Z.leb_gt in Hspan.
    destruct (ceilLog_spec (scalingFactor t)
                (Js.div (e - s) (leafScalingFactor t)) Hsf
                (div_gt_one (e - s) (leafScalingFactor t) ltac:(lia) Hspan))
      as (Hk & Hlo & Hhi).
    set (k := ceilLog (scalingFactor t)
                (Js.div (e - s) (leafScalingFactor t))) in *.
    apply div_gt_inject in Hlo; [|lia].
    apply div_le_inject in Hhi; [|lia].
    split; [lia|]. split; [split; lia|]. split.
    + rewrite tier_resolution_value by lia. lia.
    + intros d Hd. rewrite tier_resolution_value by lia.
      assert (scalingFactor t ^ d <= scalingFactor t ^ (k - 1))
        by (apply Z.pow_le_mono_r; lia).
      nia.
Qed.

Lemma new_node_tier_witness :
  reverseDepth (ScenarioA.root) = 3
  /\ 100000 <= nodeResolution ScenarioA.tree ScenarioA.root
  /\ _getResolutionAtDepth ScenarioA.tree 2 < 100000.
Proof.
  destruct (new_node_tier Count.Payload Z exactLogs ScenarioA.tree true
              0 100000)
    as (_ & _ & Hcover & Hleast); [simpl; lia | simpl; lia | reflexivity |].
  split; [reflexivity|]. split; [exact Hcover|].
  apply Hleast. vm_compute. split; congruence.
Defined.

(** ** The resolution of the children *)

(** X3. On a node of reverse depth [d >= 0]: the generalised child
    resolution is the next step down the ladder (the resolution of the node
    divided by [scalingFactor]) above reverse depth 0 and 1 at reverse depth
    0, so it is at least 1 and at most the resolution of the node; a request
    the node is fine enough for is one its children are fine enough for; and
    a bucket that is KnownEmpty, or any bucket of a node of reverse depth 0,
    is fine enough for every request of at least 1. *)
Theorem child_resolution_enough (D Smry : Type) (t : GiveTree)
    (n : PineNode D Smry) (r : Z) :
  1 <= scalingFactor t -> 1 <= leafScalingFactor t ->
  0 <= reverseDepth n ->
  (0 < reverseDepth n ->
     getChildResolution t n None * scalingFactor t = nodeResolution t n)
  /\ (reverseDepth n = 0 -> getChildResolution t n None = 1)
  /\ 1 <= getChildResolution t n None <= nodeResolution t n
  /\ (resolutionEnough t n (Some r) = true ->
      childResolutionEnough t n (Some r) None = true)
  /\ (forall i b, 1 <= r -> Js.idx (values n) i = Some b ->
        b = KnownEmpty \/ reverseDepth n = 0 ->
        childResolutionEnough t n (Some r) (Some i) = true).
Proof.
  intros Hsf Hlsf Hd.
  assert (Hstep : 0 < reverseDepth n ->
    getChildResolution t n None * scalingFactor t = nodeResolution t n).
  { intros Hpos. unfold getChildResolution, generalChildResolution,
      nodeResolution.
    replace (reverseDepth n >? 0) with true by (symmetry; apply Z.gtb_lt; lia).
    rewrite !tier_resolution_value by lia.
    replace (reverseDepth n) with (reverseDepth n - 1 + 1) at 2 by lia.
    rewrite Z.pow_add_r, Z.pow_1_r by lia. ring. }
  assert (Hzero : reverseDepth n = 0 -> getChildResolution t n None = 1).
  { intros H0. unfold getChildResolution, generalChildResolution.
    now rewrite H0. }
  assert (Hbounds : 1 <= getChildResolution t n None <= nodeResolution t n).
  { destruct (Z.eq_dec (reverseDepth n) 0) as [H0|H0].
    - rewrite (Hzero H0). unfold nodeResolution.
      rewrite tier_resolution_value by lia. rewrite H0, Z.pow_0_r. lia.
    - specialize (Hstep ltac:(lia)).
      assert (1 <= getChildResolution t n None).
      { unfold getChildResolution, generalChildResolution.
        replace (reverseDepth n >? 0) with true
          by (symmetry; apply Z.gtb_lt; lia).
        rewrite tier_resolution_value by lia.
        assert (0 < scalingFactor t ^ (reverseDepth n - 1))
          by (apply Z.pow_pos_nonneg; lia).
        nia. }
      nia. }
  repeat split; try assumption; try lia.
  - unfold resolutionEnough, childResolutionEnough. cbn [Js.orElse].
    intros H. apply Z.leb_le in H. apply Z.leb_le. lia.
  - intros i b Hr Hb Hkind.
    unfold childResolutionEnough, getChildResolution. cbn [Js.orElse].
    rewrite Hb. apply Z.leb_le. unfold bucketResolution.
    destruct Hkind as [->|H0].
    + now rewrite orb_true_r.
    + rewrite H0. exact Hr.
Qed.

Lemma child_resolution_enough_witness :
  getChildResolution ScenarioA.tree ScenarioA.root None * 10 = 100000
  /\ childResolutionEnough ScenarioA.tree ScenarioA.root (Some 100000) None
     = true.
Proof.
  destruct (child_resolution_enough Count.Payload Z ScenarioA.tree
              ScenarioA.root 100000)
    as (Hstep & _ & _ & Henough & _);
    [simpl; lia | simpl; lia | vm_compute; congruence |].
  split.
  - apply Hstep. reflexivity.
  - apply Henough. reflexivity.
Defined.

(** ** The summary cache under repetition *)

Section SummaryStable.

Context {D Smry : Type} {SC : SummaryCtor D Smry}.
Variable tree : GiveTree.

Local Notation Node := (PineNode D Smry).
Local Notation Slot := (Bucket D Smry).

Lemma with_summary_back (n : Node) (sm : option Smry)
    (c : option (JsVal D Smry)) :
  with_summary (with_summary n sm c) (_summary n) (_summaryChromRegion n) = n.
Proof. now destruct n. Qed.

(** A recomputation that gives up has met a bucket it cannot fold. *)
Lemma foldBuckets_gives_up (rd : Z) (range : Z * Z) (vs : list Slot) :
  forall acc,
    foldBuckets rd range vs acc = Ok None ->
    forallb (bucketFolds rd) vs = false.
Proof.
  induction vs as [|b vs IH]; intros acc H; [discriminate|].
  destruct b as [| |c|d]; cbn [foldBuckets forallb bucketFolds] in *.
  - reflexivity.
  - now apply IH with acc.
  - destruct (rd >? 0); [|discriminate].
    unfold hasData. destruct (summary c) as [s|]; [|reflexivity].
    cbn [andb]. eapply IH. exact H.
  - destruct (rd >? 0); eapply IH; exact H.
Qed.

(** The outcomes of [updateSummary]: the node it returns differs from the
    node it was called on in the two summary fields at most; the log only
    grows; the summary is there whenever every bucket folds; and the only
    exception is the one of a child node traversed with a [null] range. *)
Lemma updateSummary_post (n : Node) (chromEntry : option (JsVal D Smry))
    (log : list string) :
  post
    (fun r =>
       with_summary (fst r) (_summary n) (_summaryChromRegion n) = n
       /\ (exists more, snd r = log ++ more)
       /\ complete tree (fst r)
       /\ updateSummary tree (fst r) None (snd r) = Ok r)
    (fun m => m = "null is not a valid chrRegion."%string)
    (updateSummary tree n chromEntry log).
Proof.
  assert (Hkeep : forall (n0 : Node) s l,
    summary n0 = Some s ->
    with_summary n0 (_summary n) (_summaryChromRegion n) = n ->
    (exists more, l = log ++ more) ->
    post
      (fun r =>
         with_summary (fst r) (_summary n) (_summaryChromRegion n) = n
         /\ (exists more, snd r = log ++ more)
         /\ complete tree (fst r)
         /\ updateSummary tree (fst r) None (snd r) = Ok r)
      (fun m => m = "null is not a valid chrRegion."%string)
      (Ok (n0, l))).
  { intros n0 s l Hs Hback Hlog. cbn [post fst snd].
    split; [exact Hback|]. split; [exact Hlog|]. split.
    - intros _ _. unfold hasData. now rewrite Hs.
    - exact (updateSummary_keep tree n0 None s l I Hs). }
  unfold updateSummary at 2.
  destruct (hasSummaryCtor tree) eqn:Hc.
  2:{ cbn [post fst snd]. split; [now destruct n|].
      split; [exists []; now rewrite app_nil_r|]. split.
      - intros H. unfold complete. congruence.
      - unfold updateSummary. now rewrite Hc. }
  set (x := match chromEntry with Some v => extract v | None => NotThere end).
  assert (Hrec : forall l, (exists more, l = log ++ more) ->
    post
      (fun r =>
         with_summary (fst r) (_summary n) (_summaryChromRegion n) = n
         /\ (exists more, snd r = log ++ more)
         /\ complete tree (fst r)
         /\ updateSummary tree (fst r) None (snd r) = Ok r)
      (fun m => m = "null is not a valid chrRegion."%string)
      (match summary n with
       | Some _ => Ok (n, log)
       | None =>
           do r <- foldBuckets (reverseDepth n) (nstart n, nend n)
                     (values n) newSummary;
           match r with
           | Some acc =>
               Ok (with_summary n (Some acc)
                     (Some (Region
                        (attach acc
                           (mkRegion (nstart n) (nend n) None None)))),
                   l)
           | None => Ok (with_summary n None None, l)
           end
       end)).
  { intros l Hl. destruct (summary n) as [s|] eqn:Hs.
    - apply (Hkeep n s log Hs); [now destruct n|].
      exists []. now rewrite app_nil_r.
    - destruct (foldBuckets _ _ _ _) as [[acc|]|m|] eqn:Hfold;
        cbn [bind post].
      + apply (Hkeep _ acc l); [now destruct n | | exact Hl].
        apply with_summary_back.
      + cbn [fst snd]. split; [apply with_summary_back|].
        split; [exact Hl|]. split.
        * intros _ Hall. apply foldBuckets_gives_up in Hfold.
          destruct n; cbn [with_summary reverseDepth values] in *.
          congruence.
        * unfold updateSummary. rewrite Hc.
          destruct n as [r s e d ks vs sm c].
          cbn [with_summary summary _summary reverseDepth nstart nend values]
            in *.
          rewrite Hs in *. rewrite Hfold. reflexivity.
      + clear - Hfold.
        revert Hfold. generalize (@newSummary D Smry SC) as acc.
        induction (values n) as [|b vs IH]; intros acc H; [discriminate|].
        destruct b as [| |c|d]; cbn [foldBuckets] in H.
        * discriminate.
        * now apply IH with acc.
        * destruct (reverseDepth n >? 0).
          -- destruct (summary c); [|discriminate]. eapply IH. exact H.
          -- now injection H as <-.
        * destruct (reverseDepth n >? 0); eapply IH; exact H.
      + exact I. }
  destruct x as [| |s] eqn:Hx.
  - apply Hrec. exists []. now rewrite app_nil_r.
  - apply Hrec. eexists. reflexivity.
  - apply (Hkeep _ s log); [now destruct n | apply with_summary_back |].
    exists []. now rewrite app_nil_r.
Qed.

(** X4. Whatever [updateSummary] is handed, the node it returns differs
    from the node it was called on in the summary and its wrapper at most
    (the range, the reverse depth, the keys and the buckets are untouched),
    the log only grows, and calling [updateSummary ()] again, as [insert]
    does, changes nothing at all. *)
Theorem updateSummary_settles (n n' : Node)
    (chromEntry : option (JsVal D Smry)) (log log' : list string) :
  updateSummary tree n chromEntry log = Ok (n', log') ->
  with_summary n' (_summary n) (_summaryChromRegion n) = n
  /\ (exists more, log' = log ++ more)
  /\ updateSummary tree n' None log' = Ok (n', log').
Proof.
  intros H. pose proof (updateSummary_post n chromEntry log) as Hp.
  rewrite H in Hp. cbn [post fst snd] in Hp.
  destruct Hp as (H1 & H2 & _ & H4). repeat split; assumption.
Qed.

End SummaryStable.

Lemma updateSummary_settles_witness :
  updateSummary ScenarioA.tree ScenarioA.coarseRoot None []
  = Ok (ScenarioA.coarseRoot, [])
  /\ updateSummary ScenarioA.tree
       (with_summary ScenarioA.root (Some 5) (Some (Region ScenarioA.E5)))
       None []
     = Ok (with_summary ScenarioA.root (Some 5) (Some (Region ScenarioA.E5)),
           []).
Proof.
  split; [reflexivity|].
  destruct (updateSummary_settles (SC := Count.protocol) ScenarioA.tree
              ScenarioA.root
              (with_summary ScenarioA.root (Some 5)
                 (Some (Region ScenarioA.E5)))
              (Some (Region ScenarioA.E5)) [] [] eq_refl)
    as (_ & _ & H).
  exact H.
Defined.

(** ** Arrays under the operations of the tree shell *)

Lemma idx_bounds {A : Type} (a : list A) (i : Z) (x : A) :
  Js.idx a i = Some x -> 0 <= i /\ (Z.to_nat i < List.length a)%nat.
Proof.
  unfold Js.idx. destruct (i <? 0) eqn:H; [discriminate|].
  intros Hn. apply Z.ltb_ge in H. split; [lia|].
  apply nth_error_Some. congruence.
Qed.

Lemma idx_In {A : Type} (a : list A) (i : Z) (x : A) :
  Js.idx a i = Some x -> In x a.
Proof.
  unfold Js.idx. destruct (i <? 0); [discriminate|]. apply nth_error_In.
Qed.

Lemma In_skipn {A : Type} (k : nat) (l : list A) (x : A) :
  In x (skipn k l) -> In x l.
Proof.
  intros H. rewrite <- (firstn_skipn k l). apply in_or_app. now right.
Qed.

Lemma In_firstn {A : Type} (k : nat) (l : list A) (x : A) :
  In x (firstn k l) -> In x l.
Proof.
  intros H. rewrite <- (firstn_skipn k l). apply in_or_app. now left.
Qed.

Lemma Forall_pieces {A : Type} (P : A -> Prop) (k : nat) (l : list A) :
  Forall P l -> Forall P (firstn k l) /\ Forall P (skipn k l).
Proof.
  intros H. rewrite <- (firstn_skipn k l) in H. now apply Forall_app in H.
Qed.

Lemma Forall_splice_in {A : Type} (P : A -> Prop) (a : list A) (i : Z)
    (x : A) :
  Forall P a -> P x -> Forall P (Js.splice_in a i x).
Proof.
  intros Ha Hx. unfold Js.splice_in.
  destruct (Forall_pieces P (Z.to_nat i) a Ha) as [H1 H2].
  apply Forall_app. split; [exact H1|]. now constructor.
Qed.

Lemma Forall_splice_out {A : Type} (P : A -> Prop) (a : list A) (i : Z) :
  Forall P a -> Forall P (Js.splice_out a i).
Proof.
  intros Ha. unfold Js.splice_out. apply Forall_app. split.
  - apply (Forall_pieces P (Z.to_nat i) a Ha).
  - apply (Forall_pieces P (S (Z.to_nat i)) a Ha).
Qed.

Lemma Forall_assign {A : Type} (P : A -> Prop) (a : list A) (i : Z) (x : A) :
  Forall P a -> P x -> Forall P (Js.assign a i x).
Proof.
  intros Ha Hx. unfold Js.assign. destruct (i <? 0); [exact Ha|].
  generalize (Z.to_nat i) as k. induction Ha as [|h t Hh Ht IH]; intros k.
  - constructor.
  - destruct k; cbn [Js.set_nth]; constructor; auto.
Qed.

Lemma length_splice_in {A : Type} (a : list A) (i : Z) (x : A) :
  List.length (Js.splice_in a i x) = S (List.length a).
Proof.
  unfold Js.splice_in. rewrite length_app. cbn [List.length].
  rewrite Nat.add_succ_r, <- length_app. now rewrite firstn_skipn.
Qed.

Lemma length_splice_out {A : Type} (a : list A) (i : Z) :
  (Z.to_nat i < List.length a)%nat ->
  S (List.length (Js.splice_out a i)) = List.length a.
Proof.
  intros H. unfold Js.splice_out.
  rewrite length_app, length_firstn, length_skipn. lia.
Qed.

Lemma length_assign {A : Type} (a : list A) (i : Z) (x : A) :
  List.length (Js.assign a i x) = List.length a.
Proof.
  unfold Js.assign. destruct (i <? 0); [reflexivity|].
  generalize (Z.to_nat i) as k. induction a as [|h t IH]; intros k.
  - reflexivity.
  - destruct k; cbn [Js.set_nth List.length]; [reflexivity|]. now rewrite IH.
Qed.

Lemma last_app_nonempty {A : Type} (l1 l2 : list A) (d : A) :
  l2 <> [] -> last (l1 ++ l2) d = last l2 d.
Proof.
  intros H. induction l1 as [|h t IH]; [reflexivity|].
  cbn [app]. destruct (t ++ l2) eqn:E.
  - destruct t; [cbn in E; congruence | discriminate].
  - exact IH.
Qed.

Lemma last_skipn {A : Type} (k : nat) (l : list A) (d : A) :
  (k < List.length l)%nat -> last (skipn k l) d = last l d.
Proof.
  intros H. rewrite <- (firstn_skipn k l) at 2.
  symmetry. apply last_app_nonempty.
  intros E. apply (f_equal (@List.length A)) in E.
  rewrite length_skipn in E. cbn in E. lia.
Qed.

Lemma ends_splice_in (a : list Z) (i x d : Z) :
  0 < i -> (Z.to_nat i < List.length a)%nat ->
  hd_error (Js.splice_in a i x) = hd_error a
  /\ last (Js.splice_in a i x) d = last a d.
Proof.
  intros Hi Hlen. unfold Js.splice_in. split.
  - destruct a as [|h t]; [cbn in Hlen; lia|].
    destruct (Z.to_nat i) eqn:E; [lia|]. reflexivity.
  - rewrite last_app_nonempty by discriminate.
    destruct (skipn (Z.to_nat i) a) eqn:E.
    + apply (f_equal (@List.length Z)) in E.
      rewrite length_skipn in E. cbn in E. lia.
    + rewrite <- E. change (last (x :: skipn (Z.to_nat i) a) d)
        with (match skipn (Z.to_nat i) a with
              | [] => x
              | _ :: _ => last (skipn (Z.to_nat i) a) d
              end).
      rewrite E. rewrite <- E. now apply last_skipn.
Qed.

Lemma ends_splice_out (a : list Z) (i d : Z) :
  0 < i -> (S (Z.to_nat i) < List.length a)%nat ->
  hd_error (Js.splice_out a i) = hd_error a
  /\ last (Js.splice_out a i) d = last a d.
Proof.
  intros Hi Hlen. unfold Js.splice_out. split.
  - destruct a as [|h t]; [cbn in Hlen; lia|].
    destruct (Z.to_nat i) eqn:E; [lia|]. reflexivity.
  - rewrite last_app_nonempty.
    + now apply last_skipn.
    + intros E. apply (f_equal (@List.length Z)) in E.
      rewrite length_skipn in E. cbn in E. lia.
Qed.

Lemma dropWhile_skipn {A : Type} (f : A -> bool) (l : list A) :
  exists k, dropWhile f l = skipn k l.
Proof.
  induction l as [|h t (k & IH)].
  - now exists O.
  - cbn [dropWhile]. destruct (f h).
    + exists (S k). exact IH.
    + now exists O.
Qed.

Lemma takeWhile_prefix {A : Type} (f : A -> bool) (l : list A) :
  firstn (List.length (takeWhile f l)) l = takeWhile f l.
Proof.
  induction l as [|h t IH]; [reflexivity|].
  cbn [takeWhile]. destruct (f h); [|reflexivity].
  cbn [List.length firstn]. now rewrite IH.
Qed.

Lemma firstn_more {A : Type} (a b : nat) (l : list A) :
  firstn a l ++ firstn b (skipn a l) = firstn (a + b) l.
Proof.
  revert l. induction a as [|a IH]; intros l; [reflexivity|].
  destruct l as [|h t]; [now rewrite !firstn_nil|].
  cbn [firstn skipn app Nat.add]. now rewrite IH.
Qed.

Lemma slice_app {A : Type} (l : list A) (i j k : Z) :
  0 <= i <= j -> j <= k -> slice l i j ++ slice l j k = slice l i k.
Proof.
  intros Hij Hjk. unfold slice.
  replace (Z.to_nat j) with (Z.to_nat (j - i) + Z.to_nat i)%nat by lia.
  rewrite <- skipn_skipn. rewrite firstn_more. f_equal. lia.
Qed.

Lemma slice_same {A : Type} (l : list A) (i : Z) : slice l i i = [].
Proof. unfold slice. now rewrite Z.sub_diag. Qed.

Lemma slice_In {A : Type} (l : list A) (i j : Z) (x : A) :
  In x (slice l i j) -> In x l.
Proof. unfold slice. intros H. eapply In_skipn, In_firstn, H. Qed.

Lemma slice_from_0 {A : Type} (l : list A) (j : Z) :
  slice l 0 j = firstn (Z.to_nat j) l.
Proof. unfold slice. now rewrite Z.sub_0_r. Qed.

(** *** Reads and splices next to the end of an array *)

Lemma idx_app_front {A : Type} (l r : list A) (i : Z) :
  (Z.to_nat i < List.length l)%nat -> Js.idx (l ++ r) i = Js.idx l i.
Proof.
  intros H. unfold Js.idx. destruct (i <? 0); [reflexivity|].
  now apply nth_error_app1.
Qed.

Lemma idx_app_last {A : Type} (l : list A) (e : A) :
  Js.idx (l ++ [e]) (Z.of_nat (List.length l)) = Some e.
Proof.
  unfold Js.idx. destruct (Z.ltb_spec (Z.of_nat (List.length l)) 0); [lia|].
  rewrite Nat2Z.id, nth_error_app2 by lia. now rewrite Nat.sub_diag.
Qed.

Lemma idx_in_range {A : Type} (l : list A) (i : Z) :
  0 <= i < Z.of_nat (List.length l) -> exists x, Js.idx l i = Some x.
Proof.
  intros H. unfold Js.idx. destruct (Z.ltb_spec i 0); [lia|].
  destruct (nth_error l (Z.to_nat i)) as [x|] eqn:E; [now exists x|].
  apply nth_error_None in E. lia.
Qed.

Lemma splice_in_app {A : Type} (l r : list A) (i : Z) (x : A) :
  (Z.to_nat i <= List.length l)%nat ->
  Js.splice_in (l ++ r) i x = Js.splice_in l i x ++ r.
Proof.
  intros H. unfold Js.splice_in. rewrite firstn_app, skipn_app.
  replace (Z.to_nat i - List.length l)%nat with O by lia.
  cbn [firstn skipn]. rewrite app_nil_r, <- app_assoc. reflexivity.
Qed.

Lemma splice_out_app {A : Type} (l r : list A) (i : Z) :
  (Z.to_nat i < List.length l)%nat ->
  Js.splice_out (l ++ r) i = Js.splice_out l i ++ r.
Proof.
  intros H. unfold Js.splice_out. rewrite firstn_app, skipn_app.
  replace (Z.to_nat i - List.length l)%nat with O by lia.
  replace (S (Z.to_nat i) - List.length l)%nat with O by lia.
  cbn [firstn skipn]. rewrite app_nil_r, <- app_assoc. reflexivity.
Qed.

Lemma idx_splice_in_at {A : Type} (l : list A) (i : Z) (x : A) :
  0 <= i -> (Z.to_nat i <= List.length l)%nat ->
  Js.idx (Js.splice_in l i x) i = Some x.
Proof.
  intros Hi H. unfold Js.idx, Js.splice_in.
  destruct (Z.ltb_spec i 0); [lia|].
  rewrite nth_error_app2 by (rewrite length_firstn; lia).
  rewrite length_firstn.
  replace (Z.to_nat i - Nat.min (Z.to_nat i) (List.length l))%nat with O
    by lia.
  reflexivity.
Qed.

Lemma idx_splice_out_at {A : Type} (l : list A) (i : Z) :
  0 <= i -> (Z.to_nat i <= List.length l)%nat ->
  Js.idx (Js.splice_out l i) i = Js.idx l (i + 1).
Proof.
  intros Hi H. unfold Js.idx, Js.splice_out.
  destruct (Z.ltb_spec i 0); [lia|]. destruct (Z.ltb_spec (i + 1) 0); [lia|].
  rewrite nth_error_app2 by (rewrite length_firstn; lia).
  rewrite length_firstn.
  replace (Z.to_nat i - Nat.min (Z.to_nat i) (List.length l))%nat with O
    by lia.
  replace (Z.to_nat (i + 1)) with (S (Z.to_nat i)) by lia.
  rewrite nth_error_skipn. now rewrite Nat.add_0_r.
Qed.

Lemma Forall_skipn_le {A : Type} (P : A -> Prop) (j j' : nat) (l : list A) :
  (j <= j')%nat -> Forall P (skipn j l) -> Forall P (skipn j' l).
Proof.
  intros H Hl. replace j' with ((j' - j) + j)%nat by lia.
  rewrite <- skipn_skipn. now apply Forall_pieces.
Qed.

Lemma Forall_skipn_head {A : Type} (P : A -> Prop) (j : nat) (l : list A)
    (x : A) :
  Forall P (skipn j l) -> nth_error l j = Some x -> P x.
Proof.
  intros Hl Hx. rewrite Forall_forall in Hl. apply Hl.
  rewrite <- (firstn_skipn j l) in Hx.
  assert (Hlen : (j < List.length l)%nat)
    by (apply nth_error_Some; rewrite <- (firstn_skipn j l); congruence).
  rewrite nth_error_app2 in Hx by (rewrite length_firstn; lia).
  rewrite length_firstn in Hx.
  replace (j - Nat.min j (List.length l))%nat with O in Hx by lia.
  destruct (skipn j l); [discriminate|]. injection Hx as ->. now left.
Qed.

Lemma Forall_skipn_splice_in {A : Type} (P : A -> Prop) (j : nat)
    (l : list A) (i : Z) (x : A) :
  (j <= Z.to_nat i)%nat -> (Z.to_nat i <= List.length l)%nat ->
  Forall P (skipn j l) -> P x ->
  Forall P (skipn j (Js.splice_in l i x)).
Proof.
  intros Hj Hi Hl Hx. unfold Js.splice_in. rewrite skipn_app.
  rewrite length_firstn.
  replace (j - Nat.min (Z.to_nat i) (List.length l))%nat with O by lia.
  cbn [skipn]. apply Forall_app. split.
  - rewrite skipn_firstn_comm. now apply Forall_pieces.
  - constructor; [exact Hx|]. now apply (Forall_skipn_le P j).
Qed.

Lemma Forall_skipn_splice_out {A : Type} (P : A -> Prop) (l : list A)
    (i : Z) :
  Forall P (skipn (S (Z.to_nat i)) l) ->
  Forall P (skipn (Z.to_nat i) (Js.splice_out l i)).
Proof.
  intros Hl. unfold Js.splice_out. rewrite skipn_app. apply Forall_app.
  split.
  - rewrite skipn_all2 by (rewrite length_firstn; lia). constructor.
  - now apply Forall_pieces.
Qed.

Lemma skipn_set_nth {A : Type} (l : list A) (i : nat) (x : A) :
  skipn (S i) (Js.set_nth l i x) = skipn (S i) l.
Proof.
  revert i. induction l as [|h t IH]; intros i; [reflexivity|].
  destruct i; cbn [Js.set_nth skipn]; [reflexivity|]. apply IH.
Qed.

Lemma skipn_assign {A : Type} (l : list A) (i : Z) (x : A) :
  skipn (S (Z.to_nat i)) (Js.assign l i x) = skipn (S (Z.to_nat i)) l.
Proof.
  unfold Js.assign. destruct (i <? 0); [reflexivity|]. apply skipn_set_nth.
Qed.

(** ** What the steps of an insertion keep *)

Section KeptFacts.

Context {D Smry : Type} {SC : SummaryCtor D Smry}.
Variable num : LogNumerics.
Variable tree : GiveTree.

Local Notation Node := (PineNode D Smry).
Local Notation Slot := (Bucket D Smry).
Local Notation CR := (ChromRegion D).
Local Notation childIs P :=
  (fun b : Slot => match b with Branch c => P c | _ => True end).

Lemma post_bind {A B : Type} (P : A -> Prop) (Q : string -> Prop)
    (R : B -> Prop) (r : Result A) (k : A -> Result B) :
  post P Q r -> (forall a, P a -> post R Q (k a)) -> post R Q (bind r k).
Proof. destruct r; cbn [post bind]; auto. Qed.

Lemma post_impl {A : Type} (P P' : A -> Prop) (Q Q' : string -> Prop)
    (r : Result A) :
  post P Q r -> (forall a, P a -> P' a) -> (forall m, Q m -> Q' m) ->
  post P' Q' r.
Proof. destruct r; cbn [post]; auto. Qed.

Lemma bucketsAll_Forall (P : Node -> Prop) (vs : list Slot) :
  bucketsAll P vs <-> Forall (childIs P) vs.
Proof.
  induction vs as [|b vs IH]; cbn [bucketsAll]; [split; constructor|].
  destruct b; rewrite IH; split; intros H;
    try (constructor; [exact I | exact H]);
    try (now inversion H);
    try (destruct H; now constructor).
Qed.

Lemma sound_unfold (n : Node) :
  sound tree n
  <-> complete tree n /\ bucketsAll (sound tree) (values n).
Proof. destruct n; cbn [sound values]; tauto. Qed.

Lemma bucketsAll_idx (P : Node -> Prop) (vs : list Slot) (i : Z) (c : Node) :
  bucketsAll P vs -> Js.idx vs i = Some (Branch c) -> P c.
Proof.
  intros H Hi. apply bucketsAll_Forall in H. apply idx_In in Hi.
  rewrite Forall_forall in H. exact (H _ Hi).
Qed.

Lemma header_with_values (n : Node) (ks : list Z) (vs : list Slot) :
  header (with_values n ks vs) = header n
  /\ keys (with_values n ks vs) = ks
  /\ values (with_values n ks vs) = vs
  /\ nstart (with_values n ks vs) = nstart n
  /\ nend (with_values n ks vs) = nend n.
Proof. destruct n. repeat split. Qed.

Lemma preserved_refl (n : Node) : preserved tree n n.
Proof. split; [reflexivity | intros H; exact H]. Qed.

Lemma preserved_trans (n1 n2 n3 : Node) :
  preserved tree n1 n2 -> preserved tree n2 n3 -> preserved tree n1 n3.
Proof.
  intros (H1 & B1) (H2 & B2).
  split; [congruence|]. intros H. apply B2, B1. exact H.
Qed.

Lemma preserved_same_buckets (n n' : Node) :
  header n' = header n -> keys n' = keys n -> values n' = values n ->
  preserved tree n n'.
Proof.
  intros Hh Hk Hv. split; [exact Hh|]. rewrite Hv. tauto.
Qed.

Lemma preserved_splitChild (n n' : Node) (index newKey : Z)
    (fill : option Slot) :
  _splitChild n index newKey fill = Ok n' ->
  childIs (sound tree) (Js.orElse fill KnownEmpty) ->
  preserved tree n n'.
Proof.
  unfold _splitChild. destruct (Js.idx (values n) index) as [b|] eqn:Hb;
    [|discriminate].
  intros H Hfill. injection H as <-.
  destruct (idx_bounds _ _ _ Hb) as [Hi Hlen].
  destruct (header_with_values n
              (Js.splice_in (keys n) (index + 1) newKey)
              (Js.splice_in (values n) (index + 1) (Js.orElse fill b)))
    as (Hh & Hk & Hv & Hs & He).
  split; [exact Hh|].
  rewrite Hv, !bucketsAll_Forall. intros Hall.
  apply Forall_splice_in; [exact Hall|].
  destruct fill as [f|]; [exact Hfill|]. cbn [Js.orElse].
  rewrite Forall_forall in Hall. apply Hall. eapply idx_In, Hb.
Qed.

Lemma preserved_setBucket (n n' : Node) (index : Z) (b : Slot) :
  setBucket n index b = Ok n' ->
  (bucketsAll (sound tree) (values n) -> childIs (sound tree) b) ->
  preserved tree n n'.
Proof.
  unfold setBucket.
  destruct ((0 <=? index) && (index <? Z.of_nat (List.length (values n)))).
  - intros H Hfill. injection H as <-.
    destruct (header_with_values n (keys n) (Js.assign (values n) index b))
      as (Hh & Hk & Hv & Hs & He).
    split; [exact Hh|].
    rewrite Hv. intros Hall. specialize (Hfill Hall).
    rewrite bucketsAll_Forall in *. now apply Forall_assign.
  - destruct (index =? Z.of_nat (List.length (values n))); [|discriminate].
    intros H Hfill. injection H as <-.
    destruct (header_with_values n (keys n) (values n ++ [b]))
      as (Hh & Hk & Hv & Hs & He).
    split; [exact Hh|].
    rewrite Hv. intros Hall. specialize (Hfill Hall).
    rewrite bucketsAll_Forall in *. apply Forall_app. split; [exact Hall|].
    now constructor.
Qed.

Lemma setBucket_no_throw (n : Node) (index : Z) (b : Slot) (m : string) :
  setBucket n index b <> Throw m.
Proof.
  unfold setBucket.
  destruct ((0 <=? index) && (index <? Z.of_nat (List.length (values n))));
    [discriminate|].
  destruct (index =? Z.of_nat (List.length (values n))); discriminate.
Qed.

Lemma isKnownEmpty_idx (vs : list Slot) (i : Z) :
  isKnownEmpty (Js.idx vs i) = true -> Js.idx vs i = Some KnownEmpty.
Proof.
  destruct (Js.idx vs i) as [[| | |]|]; cbn; congruence.
Qed.

Lemma preserved_splice_out (n : Node) (index : Z) :
  preserved tree n
    (with_values n (Js.splice_out (keys n) index)
       (Js.splice_out (values n) index)).
Proof.
  destruct (header_with_values n (Js.splice_out (keys n) index)
              (Js.splice_out (values n) index))
    as (Hh & Hk & Hv & Hs & He).
  split; [exact Hh|].
  rewrite Hv, !bucketsAll_Forall. apply Forall_splice_out.
Qed.

Lemma preserved_mergeChild (n : Node) (index : Z) (mergeNext : bool) :
  preserved tree n (fst (_mergeChild n index mergeNext)).
Proof.
  unfold _mergeChild. cbn [fst].
  set (front := (0 <? index) && isKnownEmpty (Js.idx (values n) (index - 1))
                && isKnownEmpty (Js.idx (values n) index)).
  set (n1 := if front
             then with_values n (Js.splice_out (keys n) index)
                    (Js.splice_out (values n) index)
             else n).
  set (i1 := if front then index - 1 else index).
  assert (H1 : preserved tree n n1).
  { unfold n1. destruct front; [|apply preserved_refl].
    apply preserved_splice_out. }
  destruct (mergeNext && isKnownEmpty (Js.idx (values n1) i1)
            && isKnownEmpty (Js.idx (values n1) (i1 + 1)));
    [|exact H1].
  eapply preserved_trans; [exact H1|]. apply preserved_splice_out.
Qed.

(** *** The context *)

Lemma consumed_refl (c : Ctx D) : consumed c c.
Proof.
  split; [now exists O|]. split.
  { exists []. rewrite app_nil_r. split; [reflexivity|].
    split; [intros x [] | reflexivity]. }
  split; [exists []; now rewrite app_nil_r|].
  split; [reflexivity|]. split; reflexivity.
Qed.

Lemma consumed_trans (c1 c2 c3 : Ctx D) :
  consumed c1 c2 -> consumed c2 c3 -> consumed c1 c3.
Proof.
  intros ((k1 & D1) & (f1 & F1 & I1 & N1) & (l1 & L1) & A1 & B1 & C1)
         ((k2 & D2) & (f2 & F2 & I2 & N2) & (l2 & L2) & A2 & B2 & C2).
  split; [exists (k2 + k1)%nat; rewrite D2, D1; apply skipn_skipn|].
  split.
  { exists (f1 ++ f2). rewrite F2, F1, app_assoc. split; [reflexivity|].
    split.
    - intros x Hx. apply in_app_or in Hx as [Hx|Hx]; [now apply I1|].
      apply I2 in Hx. rewrite D1 in Hx. eapply In_skipn, Hx.
    - intros Hcb. rewrite (N1 Hcb), N2; [reflexivity | congruence]. }
  split; [exists (l1 ++ l2); now rewrite L2, L1, app_assoc|].
  split; [congruence|]. split; congruence.
Qed.

Lemma consumed_step (c : Ctx D) (k : nat) (es : list CR)
    (more : list string) (p : Props D) :
  (forall x, In x es -> In x (data c)) ->
  hasCallback p = hasCallback (props c) ->
  leafNodeCtorOk p = leafNodeCtorOk (props c) ->
  propsResolution p = propsResolution (props c) ->
  consumed c
    (mkCtx (skipn k (data c)) p
       (fired c ++ (if hasCallback (props c) then es else []))
       (logged c ++ more)).
Proof.
  intros Hes H1 H2 H3. unfold consumed. cbn [data props fired logged].
  split; [now exists k|]. split.
  { eexists. split; [reflexivity|]. split.
    - intros x Hx. destruct (hasCallback (props c)); [now apply Hes|].
      destruct Hx.
    - now intros ->. }
  split; [now exists more|]. split; [assumption|]. split; assumption.
Qed.

Lemma moved_refl (d : Z) (c : Ctx D) : moved d d c c.
Proof.
  unfold moved. rewrite slice_same.
  split; [reflexivity|]. split; [lia|]. split.
  { destruct (hasCallback (props c)); now rewrite app_nil_r. }
  split; [reflexivity|]. split; [reflexivity|]. split; reflexivity.
Qed.

Lemma moved_trans (d d' d'' : Z) (c c' c'' : Ctx D) :
  0 <= d -> moved d d' c c' -> moved d' d'' c' c'' -> moved d d'' c c''.
Proof.
  intros Hd (D1 & O1 & F1 & L1 & A1 & B1 & C1)
            (D2 & O2 & F2 & L2 & A2 & B2 & C2).
  unfold moved. split; [congruence|]. split; [lia|]. split.
  { rewrite F2, F1, A1, D1.
    destruct (hasCallback (props c)); rewrite <- app_assoc; [|reflexivity].
    now rewrite slice_app by lia. }
  split; [congruence|]. split; [congruence|]. split; congruence.
Qed.

Lemma moved_props (d d' : Z) (c c' : Ctx D) (p : Props D) :
  moved d d' c c' ->
  hasCallback p = hasCallback (props c') ->
  leafNodeCtorOk p = leafNodeCtorOk (props c') ->
  propsResolution p = propsResolution (props c') ->
  moved d d' c (mkCtx (data c') p (fired c') (logged c')).
Proof.
  intros (D1 & O1 & F1 & L1 & A1 & B1 & C1) H1 H2 H3.
  unfold moved. cbn [data props fired logged].
  split; [assumption|]. split; [assumption|]. split; [assumption|].
  split; [assumption|]. split; [congruence|]. split; congruence.
Qed.

Lemma traverseData_moved (c : Ctx D) (index : Z) (crit : CR -> bool) :
  0 <= index ->
  moved index (fst (_traverseData c index crit)) c
    (snd (_traverseData c index crit))
  /\ props (snd (_traverseData c index crit)) = props c.
Proof.
  intros Hi. unfold _traverseData. cbn [fst snd].
  set (passed := takeWhile crit (skipn (Z.to_nat index) (data c))).
  assert (Hs : slice (data c) index (index + Z.of_nat (List.length passed))
               = passed).
  { unfold slice.
    replace (Z.to_nat (index + Z.of_nat (List.length passed) - index))
      with (List.length passed) by lia.
    apply takeWhile_prefix. }
  unfold fire, moved. rewrite Hs.
  destruct (hasCallback (props c)) eqn:Hcb; cbn [data props fired logged];
    rewrite ?Hcb, ?app_nil_r;
    (split; [|reflexivity]);
    (split; [reflexivity|]); (split; [lia|]); (split; [reflexivity|]);
    (split; [reflexivity|]); (split; [assumption || reflexivity|]);
    split; reflexivity.
Qed.

End KeptFacts.

(** ** What an insertion keeps *)

Section InsertKeeps.

Context {D Smry : Type} {SC : SummaryCtor D Smry}.
Variable num : LogNumerics.
Variable tree : GiveTree.

Local Notation Node := (PineNode D Smry).
Local Notation Slot := (Bucket D Smry).
Local Notation CR := (ChromRegion D).
Local Notation childIs P :=
  (fun b : Slot => match b with Branch c => P c | _ => True end).

Lemma leafInsert_moved (s : Z) (c : Ctx D) (d : Z) :
  dataIndex (props c) = Some d -> 0 <= d ->
  exists d',
    moved d d' c (snd (leafInsert s c))
    /\ dataIndex (props (snd (leafInsert s c))) = Some d'.
Proof.
  intros Hd Hd0. unfold leafInsert. rewrite Hd. cbn [Js.orElse].
  pose proof (traverseData_moved c d (fun e => start e <? s) Hd0) as [M1 P1].
  destruct (_traverseData c d (fun e => start e <? s)) as [i1 c1].
  cbn [fst snd] in M1, P1.
  assert (Hi1 : 0 <= i1) by (destruct M1 as (_ & ? & _); lia).
  pose proof (traverseData_moved c1 i1 (fun e => start e =? s) Hi1)
    as [M2 P2].
  destruct (_traverseData c1 i1 (fun e => start e =? s)) as [i2 c2].
  cbn [fst snd] in M2, P2.
  unfold setContinued. cbn [props dataIndex].
  rewrite P2, P1, Hd. cbn [snd].
  exists i2. split; [|reflexivity].
  pose proof (moved_trans d i1 i2 c c1 c2 Hd0 M1 M2) as M.
  unfold setDataIndex. cbn [props data fired logged propsResolution
    continuedList hasCallback leafNodeCtorOk].
  apply (moved_props d i2 c c2); [exact M | | |]; cbn; congruence.
Qed.

Lemma fill_post (n : Node) (i : Z) (b : Slot) (mergeNext : bool)
    (ctx : Ctx D) :
  (bucketsAll (sound tree) (values n) -> childIs (sound tree) b) ->
  post (fun s => preserved tree n (fst (fst s)) /\ snd s = ctx)
    (fun _ => False)
    (do n' <- setBucket n i b;
     let '(n'', merged) := _mergeChild n' i mergeNext in
     Ok (n'', (if merged then i - 1 else i), ctx)).
Proof.
  intros Hb. destruct (setBucket n i b) as [n'| |] eqn:E; cbn [bind post];
    [|now apply setBucket_no_throw in E|exact I].
  pose proof (preserved_mergeChild tree n' i mergeNext) as Hm.
  destruct (_mergeChild n' i mergeNext) as [n'' merged].
  cbn [fst snd post] in *. split; [|reflexivity].
  eapply preserved_trans; [|exact Hm].
  now apply (preserved_setBucket tree n n' i b).
Qed.

Lemma leaf_loop_post (fuel : nat) :
  forall (n : Node) (i : Z) (cr : CR) (ctx : Ctx D) (prev : option Z)
         (d : Z),
    dataIndex (props ctx) = Some d -> 0 <= d ->
    post
      (fun r =>
         let '(n', ctx', _, cr') := r in
         preserved tree n n'
         /\ end_ cr' = end_ cr /\ ~ start cr' < end_ cr'
         /\ exists d',
              moved d d' ctx ctx' /\ dataIndex (props ctx') = Some d'
              /\ (~ start cr < end_ cr -> d' = d)
              /\ (start cr < end_ cr ->
                  match Js.idx (data ctx) d' with
                  | Some e => end_ cr <= start e
                  | None => True
                  end))
      (fun _ => False)
      (_addLeafRecords_loop fuel n i cr ctx prev).
Proof.
  induction fuel as [|fuel IH]; intros n i cr ctx prev d Hd Hd0.
  - cbn [_addLeafRecords_loop].
    destruct (start cr <? end_ cr) eqn:Hlt; cbn [post]; [exact I|].
    apply Z.ltb_ge in Hlt.
    split; [apply preserved_refl|]. split; [reflexivity|]. split; [lia|].
    exists d. split; [apply moved_refl|]. split; [exact Hd|].
    split; [reflexivity | lia].
  - cbn [_addLeafRecords_loop].
    destruct (start cr <? end_ cr) eqn:Hlt; cbn [post].
    2:{ apply Z.ltb_ge in Hlt.
        split; [apply preserved_refl|]. split; [reflexivity|]. split; [lia|].
        exists d. split; [apply moved_refl|]. split; [exact Hd|].
        split; [reflexivity | lia]. }
    apply Z.ltb_lt in Hlt. rewrite Hd. cbn [Js.orElse].
    pose proof (traverseData_moved ctx d (fun e => start e <? start cr) Hd0)
      as [M1 P1].
    destruct (_traverseData ctx d (fun e => start e <? start cr))
      as [di ctx1].
    cbn [fst snd] in M1, P1. cbv zeta.
    assert (Hdi : 0 <= di) by (destruct M1 as (_ & ? & _); lia).
    match goal with
    | |- context [setContinued (setDataIndex ctx1 (Some di)) ?x] =>
        set (ctx2 := setContinued (setDataIndex ctx1 (Some di)) x)
    end.
    assert (M2 : moved d di ctx ctx2).
    { apply (moved_props d di ctx ctx1); [exact M1 | | |]; reflexivity. }
    assert (Hd2 : dataIndex (props ctx2) = Some di) by reflexivity.
    assert (Hdata2 : data ctx2 = data ctx) by (destruct M1 as (? & _); exact H).
    clearbody ctx2.
    eapply post_bind with
      (P := fun s1 : Node * Z => preserved tree n (fst s1)).
    { destruct (Js.ltU _ _); [|apply preserved_refl].
      destruct (_splitChild _ _ _ _) as [n'| |] eqn:E; cbn [bind post fst];
        [|unfold _splitChild in E; destruct (Js.idx _ _); discriminate
         |exact I].
      now apply (preserved_splitChild tree n n' _ _ _ E). }
    intros [n1 i1] H1. cbn [fst] in H1.
    eapply post_bind with
      (P := fun s2 : Node * Z * Ctx D =>
              preserved tree n1 (fst (fst s2))
              /\ exists d2,
                   moved di d2 ctx2 (snd s2)
                   /\ dataIndex (props (snd s2)) = Some d2).
    { assert (Hstay : post
        (fun s2 : Node * Z * Ctx D =>
           preserved tree n1 (fst (fst s2))
           /\ exists d2,
                moved di d2 ctx2 (snd s2)
                /\ dataIndex (props (snd s2)) = Some d2)
        (fun _ => False) (Ok (n1, i1, ctx2))).
      { cbn [post fst snd]. split; [apply preserved_refl|].
        exists di. split; [apply moved_refl | exact Hd2]. }
      assert (Hfill : forall k : Z, post
        (fun s2 : Node * Z * Ctx D =>
           preserved tree n1 (fst (fst s2))
           /\ exists d2,
                moved di d2 ctx2 (snd s2)
                /\ dataIndex (props (snd s2)) = Some d2)
        (fun _ => False)
        (let cl := Js.orElse (continuedList (props ctx2)) [] in
         do n' <- setBucket n1 i1
                    (match cl with
                     | [] => KnownEmpty
                     | _ => Leaf (mkLeaf k [] cl true)
                     end);
         let '(n'', merged) := _mergeChild n' i1 false in
         Ok (n'', (if merged then i1 - 1 else i1), ctx2))).
      { intros k. cbv zeta.
        eapply post_impl; [apply fill_post | | auto].
        - intros _. now destruct (Js.orElse _ _).
        - intros s2 (Hp & ->). split; [exact Hp|].
          exists di. split; [apply moved_refl | exact Hd2]. }
      destruct (Js.idx (data ctx2) di) as [e|];
        destruct (Js.idx (keys n1) i1) as [k|]; try exact Hstay.
      - destruct (start e =? k).
        + pose proof (leafInsert_moved k ctx2 di Hd2 Hdi) as (d2 & M3 & Hd3).
          destruct (leafInsert k ctx2) as [leaf ctx3]. cbn [snd] in M3, Hd3.
          destruct (setBucket n1 i1 (Leaf leaf)) as [n'| |] eqn:E;
            cbn [bind post fst snd];
            [|now apply setBucket_no_throw in E
             |exact I].
          split; [now apply (preserved_setBucket tree n1 n' i1 _ E)|].
          now exists d2.
        + destruct (k <? end_ cr); [apply Hfill | exact Hstay].
      - destruct (k <? end_ cr); [apply Hfill | exact Hstay]. }
    intros [[n2 i2] ctx3] (H2 & d2 & M3 & Hd3). cbn [fst snd] in *.
    assert (Hd20 : 0 <= d2) by (destruct M3 as (_ & ? & _); lia).
    assert (Hdata3 : data ctx3 = data ctx).
    { destruct M3 as (E3 & _). congruence. }
    rewrite Hd3. cbn [Js.orElse].
    set (next := match Js.idx (data ctx3) d2 with
                 | Some e => if start e <? end_ cr then start e else end_ cr
                 | None => end_ cr
                 end).
    eapply post_impl;
      [apply (IH n2 i2 (setStart cr next) ctx3 (Some d) d2 Hd3 Hd20) | | auto].
    intros [[[n' ctx'] prev'] cr']
      (Hp & He & Hstop & d' & M4 & Hd4 & Hsame & Hexit).
    cbn [setStart start end_] in *.
    split; [eapply preserved_trans; [exact H1|];
            eapply preserved_trans; [exact H2 | exact Hp]|].
    split; [exact He|]. split; [exact Hstop|].
    exists d'. split.
    { eapply moved_trans; [exact Hd0 | exact M2|].
      eapply moved_trans; [exact Hdi | exact M3 | exact M4]. }
    split; [exact Hd4|]. split; [intros Hno; now destruct Hno|]. intros _.
    destruct (Z_lt_le_dec next (end_ cr)) as [Hn|Hn].
    + rewrite Hdata3 in Hexit. exact (Hexit Hn).
    + rewrite (Hsame ltac:(lia)). rewrite <- Hdata3.
      unfold next in Hn. destruct (Js.idx (data ctx3) d2) as [e|]; [|exact I].
      destruct (start e <? end_ cr) eqn:He'; [|now apply Z.ltb_ge in He'].
      apply Z.ltb_lt in He'. lia.
Qed.

Lemma consumed_setData (c : Ctx D) (k : nat) :
  consumed c (setData c (skipn k (data c))).
Proof.
  destruct (consumed_refl c) as (_ & H2 & H3 & H4).
  split; [now exists k|]. split; [exact H2|]. split; [exact H3|exact H4].
Qed.

Lemma consumed_setLogged (c : Ctx D) (more : list string) :
  consumed c (setLogged c (logged c ++ more)).
Proof.
  destruct (consumed_refl c) as (H1 & H2 & _ & H4).
  split; [exact H1|]. split; [exact H2|]. split; [now exists more|exact H4].
Qed.

Lemma consumed_fire (c : Ctx D) (es : list CR) :
  (forall x, In x es -> In x (data c)) -> consumed c (fire c es).
Proof.
  intros Hes. unfold fire. destruct (hasCallback (props c)) eqn:Hcb;
    [|apply consumed_refl].
  destruct (consumed_refl c) as (H1 & _ & H3 & H4).
  split; [exact H1|]. split; [|split; [exact H3|exact H4]].
  exists es. split; [reflexivity|]. split; [exact Hes | congruence].
Qed.

Lemma with_summary_kept (n n' : Node) (sm : option Smry)
    (c : option (JsVal D Smry)) :
  with_summary n' sm c = n -> preserved tree n n'.
Proof.
  intros <-. apply preserved_same_buckets; now destruct n'.
Qed.

Lemma moved_consumed (d' : Z) (c c' : Ctx D) (p : Props D) :
  moved 0 d' c c' ->
  hasCallback p = hasCallback (props c') ->
  leafNodeCtorOk p = leafNodeCtorOk (props c') ->
  propsResolution p = propsResolution (props c') ->
  consumed c
    (mkCtx (skipn (Z.to_nat d') (data c')) p (fired c') (logged c')).
Proof.
  intros (D1 & O1 & F1 & L1 & A1 & B1 & C1) H1 H2 H3.
  unfold consumed. cbn [data props fired logged]. rewrite D1, F1, L1.
  split; [now eexists|]. split.
  { eexists. split; [reflexivity|]. split.
    - intros x Hx. destruct (hasCallback (props c)); [|destruct Hx].
      eapply slice_In, Hx.
    - now intros ->. }
  split; [exists []; now rewrite app_nil_r|].
  split; [congruence|]. split; congruence.
Qed.

(** The outcomes of [_addLeafRecords]. *)
Lemma addLeafRecords_post (n : Node) (cr : CR) (ctx : Ctx D) :
  post
    (fun r =>
       preserved tree n (fst r)
       /\ consumed ctx (snd r)
       /\ dataIndex (props (snd r)) = None
       /\ exists k,
            0 <= k
            /\ data (snd r) = skipn (Z.to_nat k) (data ctx)
            /\ fired (snd r)
               = fired ctx ++ (if hasCallback (props ctx)
                               then firstn (Z.to_nat k) (data ctx) else [])
            /\ logged (snd r) = logged ctx
            /\ (start cr < end_ cr ->
                match hd_error (data (snd r)) with
                | Some e => end_ cr <= start e
                | None => True
                end)
            /\ exists cl,
                 continuedList (props (snd r)) = Some cl
                 /\ forall x, In x cl -> end_ cr < end_ x)
    (fun m => leafNodeCtorOk (props ctx) = false
              /\ m = "LeafNodeCtor is not a constructor for a tree node!"%string)
    (_addLeafRecords n cr ctx).
Proof.
  unfold _addLeafRecords.
  set (ctx0 := setContinued (setDataIndex ctx (Some 0)) _).
  assert (M0 : moved 0 0 ctx ctx0).
  { apply (moved_props 0 0 ctx ctx); [apply moved_refl | | |]; reflexivity. }
  assert (Hd0 : dataIndex (props ctx0) = Some 0) by reflexivity.
  assert (Hok : leafNodeCtorOk (props ctx0) = leafNodeCtorOk (props ctx))
    by reflexivity.
  clearbody ctx0. rewrite Hok.
  destruct (leafNodeCtorOk (props ctx)) eqn:Hctor; cbn [negb post];
    [|split; reflexivity].
  cbv zeta.
  eapply post_bind with (P := fun s1 : Node * Z => preserved tree n (fst s1)).
  { destruct (Js.ltU _ _); [|apply preserved_refl].
    destruct (_splitChild _ _ _ _) as [n'| |] eqn:E; cbn [bind post fst];
      [|unfold _splitChild in E; destruct (Js.idx _ _); discriminate
       |exact I].
    now apply (preserved_splitChild tree n n' _ _ _ E). }
  intros [n1 i1] H1. cbn [fst] in H1.
  eapply post_bind with (P := fun n2 : Node => preserved tree n1 n2).
  { destruct (Js.gtU _ _); [|apply preserved_refl].
    destruct (_splitChild _ _ _ _) as [n'| |] eqn:E; cbn [bind post fst];
      [|unfold _splitChild in E; destruct (Js.idx _ _); discriminate
       |exact I].
    now apply (preserved_splitChild tree n1 n' _ _ _ E). }
  intros n2 H2.
  eapply post_bind;
    [eapply post_impl;
       [apply (leaf_loop_post (List.length (data ctx0) + 2) n2 i1 cr ctx0
                 None 0 Hd0 (Z.le_refl 0))
       | intros a Ha; exact Ha
       | intros m []]|].
  intros [[[n3 ctx3] prev3] cr3]
    (H3 & He & Hstop & d' & M3 & Hd3 & _ & Hexit).
  rewrite Hd3. cbn [Js.orElse post fst snd].
  pose proof (moved_trans 0 0 d' ctx ctx0 ctx3 (Z.le_refl 0) M0 M3) as M.
  assert (Hd' : 0 <= d') by (destruct M as (_ & ? & _); lia).
  split; [eapply preserved_trans; [exact H1|];
          eapply preserved_trans; [exact H2 | exact H3]|].
  split.
  { apply (moved_consumed d' ctx ctx3); [exact M | | |]; reflexivity. }
  split; [reflexivity|].
  exists d'. destruct M as (D1 & O1 & F1 & L1 & A1 & B1 & C1).
  unfold setDataIndex, setData, setContinued.
  cbn [data props fired logged continuedList dataIndex].
  split; [exact Hd'|]. split; [now rewrite D1|]. split.
  { rewrite F1. now rewrite slice_from_0. }
  split; [exact L1|]. split.
  { intros Hlt. rewrite D1, hd_error_skipn.
    destruct M0 as (D0 & _). rewrite D0 in Hexit. specialize (Hexit Hlt).
    unfold Js.idx in Hexit.
    destruct (d' <? 0) eqn:Hneg; [apply Z.ltb_lt in Hneg; lia|].
    exact Hexit. }
  eexists. split; [reflexivity|].
  intros x Hx. apply filter_In in Hx as [_ Hx]. apply Z.ltb_lt in Hx.
  rewrite He in Hx. exact Hx.
Qed.

Lemma spans_newPineNode (root : bool) (s e : Z) :
  spans (newPineNode num tree root s e : Node)
  /\ bucketsAll (sound tree) (values (newPineNode num tree root s e : Node)).
Proof. split; [repeat split | exact I]. Qed.

Lemma not_missingRange (m : string) :
  m = "null is not a valid chrRegion."%string
  \/ m = "Summary range does not match!"%string
  \/ m = "this.tree._SummaryCtor is not a constructor"%string
  \/ m = "LeafNodeCtor is not a constructor for a tree node!"%string ->
  m <> missingRange.
Proof. intros [->|[->|[->| ->]]]; discriminate. Qed.

(** The outcomes of the branch of [insert] for a node that is fine
    enough. *)
Lemma insertResolutionEnough_post (n : Node) (ctx : Ctx D) :
  post (fun s => preserved tree n (fst s) /\ consumed ctx (snd s))
    (fun m => m <> missingRange)
    (insertResolutionEnough tree n ctx).
Proof.
  unfold insertResolutionEnough.
  destruct (dropWhile_skipn (fun e => start e <? nstart n) (data ctx))
    as (k & Hk).
  rewrite Hk.
  pose proof (consumed_setData ctx k) as C0.
  set (ctx0 := setData ctx (skipn k (data ctx))) in *.
  destruct (data ctx0) as [|e rest] eqn:Hdata.
  { cbn [post fst snd]. split; [apply preserved_refl | exact C0]. }
  assert (Hupd : forall v (f : Node * list string -> Node * Ctx D),
    (forall r, fst (f r) = fst r) ->
    (forall r more, snd r = logged ctx0 ++ more -> consumed ctx0 (snd (f r))) ->
    post (fun s => preserved tree n (fst s) /\ consumed ctx (snd s))
      (fun m => m <> missingRange)
      (do r <- updateSummary tree n v (logged ctx0); Ok (f r))).
  { intros v f Hf1 Hf2.
    eapply post_bind;
      [eapply post_impl;
         [apply (updateSummary_post tree n v (logged ctx0))
         | intros a Ha; exact Ha
         | intros m Hm; apply not_missingRange; now left]|].
    intros r (Hback & (more & Hlog) & _). cbn [post].
    rewrite Hf1. split; [eapply with_summary_kept, Hback|].
    eapply consumed_trans; [exact C0|]. eapply Hf2, Hlog. }
  destruct (negb (nstart n =? start e) || negb (nend n =? end_ e)).
  - destruct (negb (hasData n)).
    + destruct (nend n <=? start e).
      * destruct (hasSummaryCtor tree).
        -- apply (Hupd _ (fun r => (fst r, setLogged ctx0 (snd r))));
             [reflexivity|].
           intros r more ->. apply consumed_setLogged.
        -- cbn [post]. apply not_missingRange. tauto.
      * cbn [post]. apply not_missingRange. tauto.
    + cbn [post fst snd]. split; [apply preserved_refl | exact C0].
  - apply (Hupd _
      (fun r => (fst r, setData (fire (setLogged ctx0 (snd r)) [e]) rest)));
      [reflexivity|].
    intros r more ->. cbn [snd].
    eapply consumed_trans; [apply (consumed_setLogged ctx0 more)|].
    eapply consumed_trans.
    + apply (consumed_fire _ [e]). intros x [<-|[]].
      cbn [setLogged data]. rewrite Hdata. now left.
    + assert (Hrest : rest
                = skipn 1 (data (fire (setLogged ctx0 (logged ctx0 ++ more))
                                   [e]))).
      { unfold fire. destruct (hasCallback _); cbn [data setLogged];
          now rewrite Hdata. }
      rewrite Hrest. apply consumed_setData.
Qed.

Lemma fill_step {A : Type} (f : Node -> Z -> A) (n : Node) (i : Z)
    (b : Slot) (mergeNext : bool) :
  (bucketsAll (sound tree) (values n) -> childIs (sound tree) b) ->
  post (fun a => exists n'' j, a = f n'' j /\ preserved tree n n'')
    (fun _ => False)
    (do n' <- setBucket n i b;
     let '(n'', merged) := _mergeChild n' i mergeNext in
     Ok (f n'' (if merged then i - 1 else i))).
Proof.
  intros Hb. destruct (setBucket n i b) as [n'| |] eqn:E; cbn [bind post];
    [|now apply setBucket_no_throw in E
     |exact I].
  pose proof (preserved_mergeChild tree n' i mergeNext) as Hm.
  destruct (_mergeChild n' i mergeNext) as [n'' merged].
  cbn [fst snd post] in *. eexists. eexists. split; [reflexivity|].
  eapply preserved_trans; [|exact Hm].
  now apply (preserved_setBucket tree n n' i b).
Qed.

(** The outcomes of the loop of [_addNonLeafRecords], given those of
    [insert] on a child. *)
Lemma nonleaf_loop_post
    (ci : Node -> option CR -> Ctx D -> Result (Node * Ctx D * bool)) :
  (forall c cr0 ctx0,
     post
       (fun r =>
          (bucketsAll (sound tree) (values c) -> sound tree (fst (fst r)))
          /\ consumed ctx0 (snd (fst r)))
       (fun m => m <> missingRange)
       (ci c (Some cr0) ctx0)) ->
  forall fuel childRes n i cr ctx,
    post (fun r => preserved tree n (fst r) /\ consumed ctx (snd r))
      (fun m => m <> missingRange)
      (_addNonLeafRecords_loop num tree ci fuel childRes n i cr ctx).
Proof.
  intros Hci. induction fuel as [|fuel IH]; intros childRes n i cr ctx;
    cbn [_addNonLeafRecords_loop].
  - destruct (start cr <? end_ cr); cbn [post fst snd]; [exact I|].
    split; [apply preserved_refl | apply consumed_refl].
  - destruct (start cr <? end_ cr); cbn [post fst snd];
      [|split; [apply preserved_refl | apply consumed_refl]].
    cbv zeta.
    set (rs := fitResolution (inject_Z (start cr)) childRes
                 (Some Js.Math_floor)).
    set (re := Js.Math_min (nend n) _).
    set (i0 := skipKeys (keys n) rs i).
    eapply post_bind with (P := fun s1 : Node * Z => preserved tree n (fst s1)).
    { destruct (Js.ltU _ _); [|apply preserved_refl].
      destruct (_splitChild _ _ _ _) as [n'| |] eqn:E; cbn [bind post fst];
        [|unfold _splitChild in E; destruct (Js.idx _ _); discriminate
         |exact I].
      now apply (preserved_splitChild tree n n' _ _ _ E). }
    intros [n1 i1] H1. cbn [fst] in H1.
    eapply post_bind with (P := fun n2 : Node => preserved tree n1 n2).
    { destruct (Js.gtU _ _); [|apply preserved_refl].
      destruct (_splitChild _ _ _ _) as [n'| |] eqn:E; cbn [bind post fst];
        [|unfold _splitChild in E; destruct (Js.idx _ _); discriminate
         |exact I].
      now apply (preserved_splitChild tree n1 n' _ _ _ E). }
    intros n2 H2.
    eapply post_bind with
      (P := fun s2 : Node * Ctx D * bool =>
              preserved tree n2 (fst (fst s2)) /\ consumed ctx (snd (fst s2))).
    { match goal with |- post _ _ (if ?c then _ else _) => destruct c end;
        [|cbn [post fst snd]; split; [apply preserved_refl|apply consumed_refl]].
      assert (Hchild : forall c : Node,
        (bucketsAll (sound tree) (values n2) ->
         bucketsAll (sound tree) (values c)) ->
        post
          (fun s2 : Node * Ctx D * bool =>
             preserved tree n2 (fst (fst s2))
             /\ consumed ctx (snd (fst s2)))
          (fun m => m <> missingRange)
          (do r <- ci c (Some cr) ctx;
           let '(child', ctx', valid) := r in
           do n' <- setBucket n2 i1 (Branch child');
           Ok (n', ctx', negb valid))).
      { intros c Hc.
        eapply post_bind; [apply (Hci c cr ctx)|].
        intros [[c' ctx'] valid] (Hs & Hcons). cbn [fst snd] in *.
        destruct (setBucket n2 i1 (Branch c')) as [n'| |] eqn:E;
          cbn [bind post fst snd];
          [|now apply setBucket_no_throw in E
           |exact I].
        split; [|exact Hcons].
        apply (preserved_setBucket tree n2 n' i1 _ E).
        intros Hall. apply Hs, Hc, Hall. }
      destruct (Js.idx (values n2) i1) as [[| |c|l]|] eqn:Hb;
        cbn [bind post]; try exact I.
      - apply Hchild. intros _. apply spans_newPineNode.
      - apply Hchild. intros _. apply spans_newPineNode.
      - apply Hchild. intros Hall.
        pose proof (bucketsAll_idx _ _ _ _ Hall Hb) as Hc.
        apply sound_unfold in Hc. tauto.
      - apply Hchild. intros _. apply spans_newPineNode. }
    intros [[n3 ctx3] flag] (H3 & C3). cbn [fst snd] in *.
    eapply post_bind with (P := fun s3 : Node * Z => preserved tree n3 (fst s3)).
    { destruct flag; [|apply preserved_refl].
      eapply post_impl;
        [apply (fill_step (fun n'' j => (n'', j)) n3 i1 KnownEmpty true)
        | | intros m []].
      - intros _. exact I.
      - intros a (n'' & j & -> & Hp). exact Hp. }
    intros [n4 i4] H4. cbn [fst] in H4.
    eapply post_impl; [apply IH | | auto].
    intros [n' ctx'] (Hp & Hc). cbn [fst snd] in *.
    split.
    + eapply preserved_trans; [exact H1|].
      eapply preserved_trans; [exact H2|].
      eapply preserved_trans; [exact H3|].
      eapply preserved_trans; [exact H4 | exact Hp].
    + eapply consumed_trans; [exact C3 | exact Hc].
Qed.

(** The outcomes of [insert]. *)
Lemma insert_post (fuel : nat) :
  forall (n : Node) (cr : option CR) (ctx : Ctx D),
    post
      (fun r =>
         preserved tree n (fst (fst r))
         /\ complete tree (fst (fst r))
         /\ consumed ctx (snd (fst r))
         /\ snd r = restructure (fst (fst r)))
      (fun m => m = missingRange -> cr = None /\ forall e, data ctx <> [e])
      (insert num tree fuel n cr ctx).
Proof.
  induction fuel as [|fuel IH]; intros n cr ctx; [exact I|].
  cbn [insert]. cbv zeta.
  assert (Hbody : forall c0 : CR,
    post
      (fun r =>
         preserved tree n (fst (fst r))
         /\ complete tree (fst (fst r))
         /\ consumed ctx (snd (fst r))
         /\ snd r = restructure (fst (fst r)))
      (fun m => m <> missingRange)
      (do s <-
         (if resolutionEnough tree n
               (Some (requestedResolution c0 (propsResolution (props ctx))))
          then insertResolutionEnough tree n ctx
          else if reverseDepth n >? 0
               then _addNonLeafRecords num tree (insert num tree fuel) n
                      (truncateChrRange n c0) ctx
               else _addLeafRecords n (truncateChrRange n c0) ctx);
       let '(n, ctx) := s in
       do r <- updateSummary tree n None (logged ctx);
       Ok (fst r, setLogged ctx (snd r), restructure (fst r)))).
  { intros c0.
    eapply post_bind with
      (P := fun s : Node * Ctx D =>
              preserved tree n (fst s) /\ consumed ctx (snd s)).
    { destruct (resolutionEnough tree n _);
        [apply insertResolutionEnough_post|].
      destruct (reverseDepth n >? 0).
      - unfold _addNonLeafRecords. apply nonleaf_loop_post.
        intros c cr0 ctx0.
        eapply post_impl; [apply (IH c (Some cr0) ctx0) | |].
        + intros [[c' ctx'] v] (Hp & Hc & Hcons & _). cbn [fst snd] in *.
          split; [|exact Hcons].
          intros Hb. apply sound_unfold.
          destruct Hp as (_ & Hbb). auto.
        + intros m Hm Heq. destruct (Hm Heq) as [Hnone _]. discriminate.
      - eapply post_impl; [apply addLeafRecords_post | |].
        + intros a (Hp & Hc & _). now split.
        + intros m (_ & ->). apply not_missingRange. tauto. }
    intros [n1 ctx1] (H1 & C1). cbn [fst snd] in *.
    eapply post_bind;
      [eapply post_impl;
         [apply (updateSummary_post tree n1 None (logged ctx1))
         | intros a Ha; exact Ha
         | intros m Hm; apply not_missingRange; now left]|].
    intros r (Hback & (more & Hlog) & Hcomp & _). cbn [post fst snd].
    split; [eapply preserved_trans; [exact H1|];
            eapply with_summary_kept, Hback|].
    split; [exact Hcomp|]. split; [|reflexivity].
    eapply consumed_trans; [exact C1|]. rewrite Hlog.
    apply consumed_setLogged. }
  destruct (data ctx) as [|e [|e' rest]] eqn:Hdata; destruct cr as [c0|];
    try (eapply post_impl; [apply Hbody | auto | intros m Hm Heq; now destruct Hm]).
  - cbn [post]. intros _. split; [reflexivity | intros e; discriminate].
  - cbn [post]. intros _. split; [reflexivity | intros e0; discriminate].
Qed.

(** X6. An insertion that returns has taken entries from the front of the
    queue only (what is left is a suffix of the queue it was given); the
    callback was handed entries of that queue only, and none when [props]
    has no callback; the log has only grown; and the callback, the leaf
    constructor and the resolution of [props] are as they were. *)
Theorem insert_consumes_front (fuel : nat) (n n' : Node) (cr : option CR)
    (ctx ctx' : Ctx D) (v : bool) :
  insert num tree fuel n cr ctx = Ok (n', ctx', v) ->
  consumed ctx ctx'.
Proof.
  intros H. pose proof (insert_post fuel n cr ctx) as Hp.
  rewrite H in Hp. cbn [post fst snd] in Hp. tauto.
Qed.

(** X7. A new node is sound, and an insertion into a sound node that
    returns gives a sound node: at every node of the tree, with a summary
    type, the summary is there whenever every bucket is KnownEmpty, a leaf,
    or a child node with a summary.  In particular the node the insertion
    returns has its summary whenever all its buckets are such. *)
Theorem insert_keeps_sound (fuel : nat) (n n' : Node) (cr : option CR)
    (ctx ctx' : Ctx D) (v : bool) :
  (forall root s e, sound tree (newPineNode num tree root s e : Node))
  /\ (sound tree n ->
      insert num tree fuel n cr ctx = Ok (n', ctx', v) ->
      sound tree n'
      /\ (hasSummaryCtor tree = true ->
          forallb (bucketFolds (reverseDepth n')) (values n') = true ->
          hasData n' = true)).
Proof.
  split.
  - intros root s e. apply sound_unfold.
    destruct (spans_newPineNode root s e) as [Hs Hb].
    split; [|exact Hb].
    intros _ Hall. discriminate Hall.
  - intros Hn H. pose proof (insert_post fuel n cr ctx) as Hp.
    rewrite H in Hp. cbn [post fst snd] in Hp.
    destruct Hp as ((_ & Hb) & Hc & _).
    apply sound_unfold in Hn. destruct Hn as (_ & Hn3).
    split; [|exact Hc].
    apply sound_unfold. auto.
Qed.

(** X8. [insert] throws the error of a missing range exactly when it is
    given no range and the queue is not a single entry (which would stand in
    for the range): no insertion into a child throws it. *)
Theorem insert_missing_range (fuel : nat) (n : Node) (cr : option CR)
    (ctx : Ctx D) :
  insert num tree (S fuel) n cr ctx
  = Throw "undefined is not a valid chrRegion."
  <-> cr = None /\ forall e, data ctx <> [e].
Proof.
  split.
  - intros H. pose proof (insert_post (S fuel) n cr ctx) as Hp.
    rewrite H in Hp. cbn [post] in Hp. now apply Hp.
  - intros [-> Hdata]. cbn [insert].
    destruct (data ctx) as [|e [|e' rest]]; try reflexivity.
    now destruct (Hdata e).
Qed.

(** X9. The leaf fan-out.  Without a leaf constructor that makes tree
    nodes, [_addLeafRecords] throws.  When it returns:  [props.dataIndex] is
    deleted; the entries it took are a prefix of the queue, each of them was
    handed to the callback once, in order; for a range that is not empty,
    what is left of the queue does not start before the end of the range;
    and [props.continuedList] holds only entries that end after the range. *)
Theorem addLeafRecords_queue (n : Node) (cr : CR) (ctx : Ctx D) :
  (leafNodeCtorOk (props ctx) = false ->
   _addLeafRecords n cr ctx
   = Throw "LeafNodeCtor is not a constructor for a tree node!")
  /\ forall n' ctx',
       _addLeafRecords n cr ctx = Ok (n', ctx') ->
       header n' = header n
       /\ dataIndex (props ctx') = None
       /\ exists k,
            data ctx' = skipn k (data ctx)
            /\ fired ctx'
               = fired ctx ++ (if hasCallback (props ctx)
                               then firstn k (data ctx) else [])
            /\ (start cr < end_ cr ->
                match hd_error (data ctx') with
                | Some e => end_ cr <= start e
                | None => True
                end)
            /\ exists cl,
                 continuedList (props ctx') = Some cl
                 /\ forall x, In x cl -> end_ cr < end_ x.
Proof.
  split.
  - intros Hctor. unfold _addLeafRecords.
    cbn [setContinued setDataIndex props leafNodeCtorOk].
    now rewrite Hctor.
  - intros n' ctx' H. pose proof (addLeafRecords_post n cr ctx) as Hp.
    rewrite H in Hp. cbn [post fst snd] in Hp.
    destruct Hp as ((Hh & _) & _ & Hdi & k & _ & Hd & Hf & _ & Hhd & Hcl).
    split; [exact Hh|]. split; [exact Hdi|].
    exists (Z.to_nat k). auto.
Qed.

End InsertKeeps.

Lemma scenario_A_returns :
  exists n ctx,
    insert exactLogs ScenarioA.tree 5 ScenarioA.root None ScenarioA.ctx0
    = Ok (n, ctx, true).
Proof. vm_compute. eexists. eexists. reflexivity. Qed.

Lemma insert_consumes_front_witness :
  exists n ctx,
    insert exactLogs ScenarioA.tree 5 ScenarioA.root None ScenarioA.ctx0
    = Ok (n, ctx, true)
    /\ consumed ScenarioA.ctx0 ctx.
Proof.
  destruct scenario_A_returns as (n & ctx & E).
  exists n, ctx. split; [exact E|].
  exact (insert_consumes_front exactLogs ScenarioA.tree 5 ScenarioA.root
           n None ScenarioA.ctx0 ctx true E).
Defined.

Lemma insert_keeps_sound_witness :
  exists n ctx,
    insert exactLogs ScenarioA.tree 5 ScenarioA.root None ScenarioA.ctx0
    = Ok (n, ctx, true)
    /\ sound ScenarioA.tree n.
Proof.
  destruct scenario_A_returns as (n & ctx & E).
  exists n, ctx. split; [exact E|].
  destruct (insert_keeps_sound exactLogs ScenarioA.tree 5 ScenarioA.root
              n None ScenarioA.ctx0 ctx true)
    as [Hnew Hkeep].
  apply Hkeep; [apply (Hnew true 0 100000) | exact E].
Defined.

(** ** Keys and buckets in step *)

Section FrameFacts.

Context {D Smry : Type} {SC : SummaryCtor D Smry}.
Variable num : LogNumerics.
Variable tree : GiveTree.

Local Notation Node := (PineNode D Smry).
Local Notation Slot := (Bucket D Smry).
Local Notation CR := (ChromRegion D).
Local Notation childIs P :=
  (fun b : Slot => match b with Branch c => P c | _ => True end).
Local Notation fresh :=
  (fun b : Slot => notKnownEmpty b /\ childIs unmarked b).

Lemma unmarked_unfold (n : Node) :
  unmarked n
  <-> shaped n /\ Forall notKnownEmpty (values n)
      /\ bucketsAll unmarked (values n).
Proof. destruct n; cbn [unmarked values]; tauto. Qed.

Lemma framed_unfold (n : Node) :
  framed n <-> spans n /\ bucketsAll framed (values n).
Proof. destruct n; cbn [framed values]; tauto. Qed.

Lemma shaped_spans (n : Node) : shaped n -> spans n.
Proof.
  intros (front & Hk & Hl & Hh & _). unfold spans.
  split; [exact Hh|]. rewrite Hk. split; [apply last_last|].
  rewrite length_app. cbn [List.length]. lia.
Qed.

Lemma unmarked_framed : forall n : Node, unmarked n -> framed n.
Proof.
  apply (node_ind (fun n => unmarked n -> framed n)).
  intros r s e d ks vs sm c IH Hu.
  apply unmarked_unfold in Hu. destruct Hu as (Hs & _ & Hb).
  apply framed_unfold. split; [now apply shaped_spans|].
  cbn [values] in *. rewrite bucketsAll_Forall in *.
  rewrite Forall_forall in *. intros b Hin.
  specialize (IH b Hin). specialize (Hb b Hin).
  destruct b; try exact I. now apply IH.
Qed.

Lemma shaped_last_key (n : Node) :
  shaped n ->
  Js.idx (keys n) (Z.of_nat (List.length (values n))) = Some (nend n).
Proof.
  intros (front & Hk & Hl & _). rewrite Hk, <- Hl. apply idx_app_last.
Qed.

Lemma shaped_key_le (n : Node) (i k : Z) :
  shaped n -> Js.idx (keys n) i = Some k ->
  k <= nend n /\ 0 <= i <= Z.of_nat (List.length (values n)).
Proof.
  intros (front & Hk & Hl & _ & Hall) Hi.
  destruct (idx_bounds _ _ _ Hi) as [H0 Hlen].
  rewrite Hk, length_app in Hlen. cbn [List.length] in Hlen.
  split; [|lia].
  apply idx_In in Hi. rewrite Hk in Hi. apply in_app_or in Hi as [Hi|Hi].
  - rewrite Forall_forall in Hall. specialize (Hall _ Hi). lia.
  - destruct Hi as [<-|[]]. lia.
Qed.

(** A key before the end of the node is the key of a bucket. *)
Lemma shaped_key_inside (n : Node) (i k : Z) :
  shaped n -> Js.idx (keys n) i = Some k -> k < nend n ->
  0 <= i /\ (Z.to_nat i < List.length (values n))%nat.
Proof.
  intros Hs Hi Hk. destruct (shaped_key_le n i k Hs Hi) as [_ Hr].
  split; [lia|].
  destruct (Z.eq_dec i (Z.of_nat (List.length (values n)))) as [->|Hne];
    [|lia].
  rewrite (shaped_last_key n Hs) in Hi. injection Hi as <-. lia.
Qed.

Lemma skipKeys_loop_bound (n : Node) (x : Z) (fuel : nat) :
  shaped n -> x < nend n ->
  forall i, 0 <= i -> (Z.to_nat i < List.length (values n))%nat ->
    i <= skipKeys_loop fuel (keys n) x i
    /\ (Z.to_nat (skipKeys_loop fuel (keys n) x i)
        < List.length (values n))%nat.
Proof.
  intros Hs Hx. induction fuel as [|fuel IH]; intros i H0 Hi;
    cbn [skipKeys_loop]; [split; [lia|exact Hi]|].
  destruct (Js.idx (keys n) (i + 1)) as [k|] eqn:Hk; cbn [Js.leU];
    [|split; [lia|exact Hi]].
  destruct (Z.leb_spec k x) as [Hle|_]; [|split; [lia|exact Hi]].
  destruct (shaped_key_inside n (i + 1) k Hs Hk ltac:(lia)) as [H1 H2].
  destruct (IH (i + 1) H1 H2) as [H3 H4]. split; [lia|exact H4].
Qed.

Lemma skipKeys_bound (n : Node) (x i : Z) :
  shaped n -> x < nend n -> 0 <= i ->
  (Z.to_nat i < List.length (values n))%nat ->
  i <= skipKeys (keys n) x i
  /\ (Z.to_nat (skipKeys (keys n) x i) < List.length (values n))%nat.
Proof. intros. now apply skipKeys_loop_bound. Qed.

Lemma splitChild_shaped (n : Node) (i key : Z) (fill : option Slot) :
  shaped n -> 0 <= i -> (Z.to_nat i < List.length (values n))%nat ->
  key < nend n ->
  exists b n',
    Js.idx (values n) i = Some b
    /\ _splitChild n i key fill = Ok n'
    /\ keys n' = Js.splice_in (keys n) (i + 1) key
    /\ values n' = Js.splice_in (values n) (i + 1) (Js.orElse fill b)
    /\ header n' = header n
    /\ shaped n'.
Proof.
  intros (front & Hk & Hl & Hh & Hall) H0 Hi Hkey.
  destruct (idx_in_range (values n) i ltac:(lia)) as [b Hb].
  exists b. eexists. unfold _splitChild. rewrite Hb.
  split; [reflexivity|]. split; [reflexivity|].
  destruct (header_with_values n
              (Js.splice_in (keys n) (i + 1) key)
              (Js.splice_in (values n) (i + 1) (Js.orElse fill b)))
    as (Hhd & Hks & Hvs & Hs & He).
  split; [exact Hks|]. split; [exact Hvs|]. split; [exact Hhd|].
  exists (Js.splice_in front (i + 1) key).
  rewrite Hks, Hvs, Hs, He, !length_splice_in.
  split; [rewrite Hk; apply splice_in_app; lia|].
  split; [now rewrite Hl|]. split.
  - destruct (ends_splice_in (keys n) (i + 1) key 0) as [E _];
      [lia | rewrite Hk, length_app; cbn [List.length]; lia |].
    now rewrite E.
  - now apply Forall_splice_in.
Qed.

Lemma setBucket_inside (n : Node) (i : Z) (b : Slot) :
  0 <= i -> (Z.to_nat i < List.length (values n))%nat ->
  exists n',
    setBucket n i b = Ok n'
    /\ keys n' = keys n
    /\ values n' = Js.assign (values n) i b
    /\ header n' = header n
    /\ (shaped n -> shaped n').
Proof.
  intros H0 Hi. eexists. unfold setBucket.
  replace ((0 <=? i) && (i <? Z.of_nat (List.length (values n)))) with true
    by (symmetry; apply andb_true_iff; split;
        [apply Z.leb_le | apply Z.ltb_lt]; lia).
  split; [reflexivity|].
  destruct (header_with_values n (keys n) (Js.assign (values n) i b))
    as (Hhd & Hks & Hvs & Hs & He).
  split; [exact Hks|]. split; [exact Hvs|]. split; [exact Hhd|].
  intros (front & Hk & Hl & Hh & Hall). exists front.
  rewrite Hks, Hvs, Hs, He, length_assign. auto.
Qed.

Lemma splice_out_shaped (n : Node) (i : Z) :
  shaped n -> 0 < i -> (Z.to_nat i < List.length (values n))%nat ->
  shaped (with_values n (Js.splice_out (keys n) i)
            (Js.splice_out (values n) i)).
Proof.
  intros (front & Hk & Hl & Hh & Hall) H0 Hi.
  destruct (header_with_values n (Js.splice_out (keys n) i)
              (Js.splice_out (values n) i))
    as (Hhd & Hks & Hvs & Hs & He).
  exists (Js.splice_out front i). rewrite Hks, Hvs, Hs, He.
  split; [rewrite Hk; apply splice_out_app; lia|].
  split.
  - pose proof (length_splice_out front i ltac:(lia)).
    pose proof (length_splice_out (values n) i Hi). lia.
  - split; [|now apply Forall_splice_out].
    destruct (ends_splice_out (keys n) i 0) as [E _];
      [lia | rewrite Hk, length_app; cbn [List.length]; lia |].
    now rewrite E.
Qed.

Lemma mergeChild_front (n : Node) (i : Z) (mergeNext : bool) :
  mergeNext = false \/ isKnownEmpty (Js.idx (values n) (i + 1)) = false ->
  0 <= i -> (Z.to_nat i < List.length (values n))%nat ->
  (snd (_mergeChild n i mergeNext) = true
   /\ 0 < i
   /\ fst (_mergeChild n i mergeNext)
      = with_values n (Js.splice_out (keys n) i)
          (Js.splice_out (values n) i))
  \/ (snd (_mergeChild n i mergeNext) = false
      /\ fst (_mergeChild n i mergeNext) = n).
Proof.
  intros Hnext H0 Hi. unfold _mergeChild. cbn [fst snd].
  destruct ((0 <? i) && isKnownEmpty (Js.idx (values n) (i - 1))
            && isKnownEmpty (Js.idx (values n) i)) eqn:Hf.
  - left. split; [reflexivity|].
    apply andb_prop in Hf as [Hf _]. apply andb_prop in Hf as [Hpos _].
    apply Z.ltb_lt in Hpos. split; [exact Hpos|].
    destruct (header_with_values n (Js.splice_out (keys n) i)
                (Js.splice_out (values n) i))
      as (_ & _ & Hvs & _).
    rewrite Hvs. replace (i - 1 + 1) with i by lia.
    rewrite idx_splice_out_at by lia.
    destruct Hnext as [-> | ->]; [reflexivity|].
    now rewrite !andb_false_r.
  - right. split; [reflexivity|].
    destruct Hnext as [-> | ->]; [reflexivity|].
    now rewrite !andb_false_r.
Qed.

Lemma idx_nth_error {A : Type} (l : list A) (i : Z) (x : A) :
  Js.idx l i = Some x -> nth_error l (Z.to_nat i) = Some x.
Proof. unfold Js.idx. now destruct (i <? 0). Qed.

Lemma unmarked_newPineNode (root : bool) (s e : Z) :
  s < e -> unmarked (newPineNode num tree root s e : Node).
Proof.
  intros Hlt. apply unmarked_unfold. split; [|split].
  - exists [s]. cbn. repeat split. constructor; [exact Hlt|constructor].
  - cbn. constructor; [discriminate|constructor].
  - exact I.
Qed.

Lemma header_nend (n m : Node) : header m = header n -> nend m = nend n.
Proof. unfold header. congruence. Qed.

Local Notation mid n m j :=
  (header m = header n /\ shaped m /\ bucketsAll framed (values m)
   /\ 0 <= j /\ Nat.lt (Z.to_nat j) (List.length (values m))).

(** The first step of a round of the two fan-out loops: the bucket that
    holds [x] is split at [x] when it starts before [x]. *)
Lemma split_before (n : Node) (i x : Z) (fill : option Slot)
    (P : Slot -> Prop) :
  shaped n -> bucketsAll framed (values n) ->
  0 <= i -> (Z.to_nat i < List.length (values n))%nat ->
  x < nend n ->
  Forall P (skipn (Z.to_nat i) (values n)) ->
  (forall f, fill = Some f -> P f /\ childIs framed f) ->
  post
    (fun s1 : Node * Z =>
       mid n (fst s1) (snd s1)
       /\ Forall P (skipn (Z.to_nat (snd s1)) (values (fst s1))))
    (fun _ => True)
    (if Js.ltU (Js.idx (keys n) i) x
     then do n' <- _splitChild n i x fill; Ok (n', i + 1)
     else Ok (n, i)).
Proof.
  intros Hs Hf H0 Hi Hx Hall Hfill.
  destruct (Js.ltU (Js.idx (keys n) i) x); cbn [post fst snd].
  2:{ split; [|exact Hall]. split; [reflexivity|].
      split; [assumption|]. split; [assumption|]. split; assumption. }
  destruct (splitChild_shaped n i x fill Hs H0 Hi Hx)
    as (b & n' & Hb & -> & Hks & Hvs & Hh & Hs').
  cbn [bind post fst snd]. rewrite Hvs, length_splice_in.
  assert (Hpb : P b /\ childIs framed b).
  { apply idx_nth_error in Hb. split.
    - exact (Forall_skipn_head _ _ _ _ Hall Hb).
    - apply nth_error_In in Hb. rewrite bucketsAll_Forall in Hf.
      rewrite Forall_forall in Hf. exact (Hf _ Hb). }
  assert (Hpf : P (Js.orElse fill b) /\ childIs framed (Js.orElse fill b)).
  { destruct fill as [f|]; [now apply Hfill | exact Hpb]. }
  split.
  - split; [exact Hh|]. split; [exact Hs'|]. split.
    { rewrite bucketsAll_Forall in *. apply Forall_splice_in; tauto. }
    split; lia.
  - apply Forall_skipn_splice_in; try lia; [|tauto].
    apply (Forall_skipn_le P (Z.to_nat i)); [lia | exact Hall].
Qed.

(** The second step: the bucket is split at [y] when it ends after
    [y]. *)
Lemma split_after (n : Node) (i y : Z) (P : Slot -> Prop) :
  shaped n -> bucketsAll framed (values n) ->
  0 <= i -> (Z.to_nat i < List.length (values n))%nat ->
  y <= nend n ->
  Forall P (skipn (Z.to_nat i) (values n)) ->
  post
    (fun n2 : Node =>
       mid n n2 i
       /\ Forall P (skipn (Z.to_nat i) (values n2))
       /\ exists k, Js.idx (keys n2) (i + 1) = Some k /\ k <= y)
    (fun _ => True)
    (if Js.gtU (Js.idx (keys n) (i + 1)) y
     then _splitChild n i y None
     else Ok n).
Proof.
  intros Hs Hf H0 Hi Hy Hall.
  assert (Hnext : exists k, Js.idx (keys n) (i + 1) = Some k).
  { destruct Hs as (front & Hk & Hl & _).
    apply idx_in_range. rewrite Hk, length_app. cbn [List.length]. lia. }
  destruct Hnext as [k Hk]. rewrite Hk. cbn [Js.gtU].
  destruct (Z.ltb_spec y k) as [Hlt|Hge]; cbn [post].
  2:{ split; [|split; [exact Hall|now exists k]]. split; [reflexivity|].
      split; [assumption|]. split; [assumption|]. split; assumption. }
  destruct (shaped_key_le n (i + 1) k Hs Hk) as [Hkn _].
  destruct (splitChild_shaped n i y None Hs H0 Hi ltac:(lia))
    as (b & n' & Hb & -> & Hks & Hvs & Hh & Hs').
  cbn [post Js.orElse] in *. rewrite Hvs, Hks, length_splice_in.
  assert (Hpb : P b /\ childIs framed b).
  { apply idx_nth_error in Hb. split.
    - exact (Forall_skipn_head _ _ _ _ Hall Hb).
    - apply nth_error_In in Hb. rewrite bucketsAll_Forall in Hf.
      rewrite Forall_forall in Hf. exact (Hf _ Hb). }
  split; [|split].
  - split; [exact Hh|]. split; [exact Hs'|]. split.
    { rewrite bucketsAll_Forall in *. apply Forall_splice_in; tauto. }
    split; lia.
  - apply Forall_skipn_splice_in; try lia; tauto.
  - exists y. split; [|lia]. apply idx_splice_in_at; [lia|].
    destruct Hs as (front & Hk' & Hl & _).
    rewrite Hk', length_app. cbn [List.length]. lia.
Qed.

(** The last step: the bucket is set to [b], and merged with the bucket
    before it when both are KnownEmpty. *)
Lemma fill_framed {A : Type} (f : Node -> Z -> A) (n : Node) (i : Z)
    (b : Slot) (mergeNext : bool) (P : Slot -> Prop) :
  shaped n -> bucketsAll framed (values n) -> childIs framed b ->
  0 <= i -> (Z.to_nat i < List.length (values n))%nat ->
  Forall P (skipn (S (Z.to_nat i)) (values n)) ->
  mergeNext = false
  \/ (forall x, P x -> notKnownEmpty x) ->
  post
    (fun a =>
       exists n'' j,
         a = f n'' j
         /\ mid n n'' j
         /\ Forall P (skipn (Z.to_nat (j + 1)) (values n''))
         /\ Js.idx (keys n'') (j + 1) = Js.idx (keys n) (i + 1))
    (fun _ => True)
    (do n' <- setBucket n i b;
     let '(n'', merged) := _mergeChild n' i mergeNext in
     Ok (f n'' (if merged then i - 1 else i))).
Proof.
  intros Hs Hf Hb H0 Hi Hall Hnext.
  destruct (setBucket_inside n i b H0 Hi)
    as (n' & -> & Hks & Hvs & Hh & Hs').
  specialize (Hs' Hs). cbn [bind].
  assert (Hlen : List.length (values n') = List.length (values n))
    by (rewrite Hvs; apply length_assign).
  assert (Hall' : Forall P (skipn (S (Z.to_nat i)) (values n')))
    by (rewrite Hvs, skipn_assign; exact Hall).
  assert (Hf' : bucketsAll framed (values n')).
  { rewrite Hvs. rewrite bucketsAll_Forall in *. now apply Forall_assign. }
  assert (Hke : mergeNext = false
                \/ isKnownEmpty (Js.idx (values n') (i + 1)) = false).
  { destruct Hnext as [->|Hp]; [now left|right].
    destruct (Js.idx (values n') (i + 1)) as [x|] eqn:Hx; [|reflexivity].
    apply idx_nth_error in Hx.
    replace (Z.to_nat (i + 1)) with (S (Z.to_nat i)) in Hx by lia.
    pose proof (Hp _ (Forall_skipn_head _ _ _ _ Hall' Hx)) as Hne.
    destruct x; try reflexivity. now destruct Hne. }
  pose proof (mergeChild_front n' i mergeNext Hke H0 ltac:(lia)) as Hm.
  destruct (_mergeChild n' i mergeNext) as [n'' merged].
  cbn [fst snd post] in *. eexists. eexists. split; [reflexivity|].
  destruct Hm as [(-> & Hpos & ->)|(-> & ->)].
  - destruct (header_with_values n' (Js.splice_out (keys n') i)
                (Js.splice_out (values n') i))
      as (Hhd & Hks' & Hvs' & _).
    rewrite Hvs', Hks'. replace (i - 1 + 1) with i by lia.
    split; [|split].
    + split; [congruence|].
      split; [apply splice_out_shaped; [exact Hs' | exact Hpos | lia]|].
      split.
      { rewrite bucketsAll_Forall in *. now apply Forall_splice_out. }
      split; [lia|].
      pose proof (length_splice_out (values n') i ltac:(lia)).
      unfold Nat.lt. lia.
    + now apply Forall_skipn_splice_out.
    + rewrite Hks. apply idx_splice_out_at; [lia|].
      destruct Hs as (front & Hk & Hl & _).
      rewrite Hk, length_app. cbn [List.length]. lia.
  - split; [|split].
    + split; [exact Hh|]. split; [exact Hs'|]. split; [exact Hf'|].
      split; [lia|]. unfold Nat.lt. lia.
    + replace (Z.to_nat (i + 1)) with (S (Z.to_nat i)) by lia. exact Hall'.
    + now rewrite Hks.
Qed.

(** The loop of [_addNonLeafRecords] on a node whose buckets from the
    cursor on have not been marked as empty, given what [insert] does on a
    child. *)
Lemma nonleaf_loop_framed
    (ci : Node -> option CR -> Ctx D -> Result (Node * Ctx D * bool)) :
  (forall c cr0 ctx0,
     unmarked c ->
     post (fun r => framed (fst (fst r))) (fun _ => True)
       (ci c (Some cr0) ctx0)) ->
  forall fuel childRes n i cr ctx,
    0 < childRes ->
    shaped n -> bucketsAll framed (values n) ->
    end_ cr <= nend n -> 0 <= i ->
    (start cr < end_ cr -> (Z.to_nat i < List.length (values n))%nat) ->
    Forall fresh (skipn (Z.to_nat i) (values n)) ->
    post (fun r => shaped (fst r) /\ bucketsAll framed (values (fst r)))
      (fun _ => True)
      (_addNonLeafRecords_loop num tree ci fuel childRes n i cr ctx).
Proof.
  intros Hci. induction fuel as [|fuel IH];
    intros childRes n i cr ctx Hres Hs Hf Hend H0 Hi Hall;
    cbn [_addNonLeafRecords_loop].
  - destruct (start cr <? end_ cr); cbn [post fst]; [exact I|now split].
  - destruct (Z.ltb_spec (start cr) (end_ cr)) as [Hlt|Hge];
      cbn [post fst]; [|now split].
    specialize (Hi Hlt). cbv zeta.
    set (rs := fitResolution (inject_Z (start cr)) childRes
                 (Some Js.Math_floor)).
    set (re := Js.Math_min (nend n) _).
    set (i0 := skipKeys (keys n) rs i).
    assert (Hrs : rs <= start cr) by (apply fit_floor_le; exact Hres).
    assert (Hre : re <= nend n) by (unfold re, Js.Math_min; lia).
    assert (Hrsre : rs < re).
    { unfold re, Js.Math_min.
      pose proof (fit_ceil_ge (end_ cr) childRes Hres). lia. }
    destruct (skipKeys_bound n rs i Hs ltac:(lia) H0 Hi) as [Hi0 Hi0'].
    fold i0 in Hi0, Hi0'.
    assert (Hall0 : Forall fresh (skipn (Z.to_nat i0) (values n)))
      by (apply (Forall_skipn_le _ (Z.to_nat i)); [lia | exact Hall]).
    eapply post_bind;
      [apply (split_before n i0 rs None fresh Hs Hf ltac:(lia) Hi0'
                ltac:(lia) Hall0); intros f Hfill; discriminate Hfill|].
    intros [n1 i1] ((Hh1 & Hs1 & Hf1 & H01 & Hi1) & Hall1).
    cbn [fst snd] in *.
    pose proof (header_nend _ _ Hh1) as He1.
    eapply post_bind;
      [apply (split_after n1 i1 re fresh Hs1 Hf1 H01 Hi1 ltac:(lia)
                Hall1)|].
    intros n2 ((Hh2 & Hs2 & Hf2 & _ & Hi2) & Hall2 & (k2 & Hk2 & Hk2re)).
    pose proof (header_nend _ _ Hh2) as He2.
    assert (Hall2' : Forall fresh (skipn (S (Z.to_nat i1)) (values n2)))
      by (apply (Forall_skipn_le _ (Z.to_nat i1)); [lia | exact Hall2]).
    eapply post_bind with
      (P := fun s2 : Node * Ctx D * bool =>
              header (fst (fst s2)) = header n2
              /\ shaped (fst (fst s2))
              /\ bucketsAll framed (values (fst (fst s2)))
              /\ (Z.to_nat i1 < List.length (values (fst (fst s2))))%nat
              /\ Forall fresh
                   (skipn (S (Z.to_nat i1)) (values (fst (fst s2))))
              /\ keys (fst (fst s2)) = keys n2).
    { match goal with |- post _ _ (if ?c then _ else _) => destruct c end;
        [|cbn [post fst snd]; repeat (split; [assumption || reflexivity|]);
          reflexivity].
      assert (Hchild : forall c : Node,
        unmarked c ->
        post
          (fun s2 : Node * Ctx D * bool =>
             header (fst (fst s2)) = header n2
             /\ shaped (fst (fst s2))
             /\ bucketsAll framed (values (fst (fst s2)))
             /\ (Z.to_nat i1 < List.length (values (fst (fst s2))))%nat
             /\ Forall fresh
                  (skipn (S (Z.to_nat i1)) (values (fst (fst s2))))
             /\ keys (fst (fst s2)) = keys n2)
          (fun _ => True)
          (do r <- ci c (Some cr) ctx;
           let '(child', ctx', valid) := r in
           do n' <- setBucket n2 i1 (Branch child');
           Ok (n', ctx', negb valid))).
      { intros c Hc. eapply post_bind; [apply (Hci c cr ctx Hc)|].
        intros [[c' ctx'] valid] Hc'. cbn [fst snd] in Hc'.
        destruct (setBucket_inside n2 i1 (Branch c') H01 Hi2)
          as (n' & -> & Hks & Hvs & Hh & Hs').
        cbn [bind post fst snd]. rewrite Hvs.
        split; [exact Hh|]. split; [now apply Hs'|]. split.
        { rewrite bucketsAll_Forall in *. now apply Forall_assign. }
        split; [now rewrite length_assign|].
        split; [now rewrite skipn_assign | exact Hks]. }
      destruct (idx_in_range (values n2) i1 ltac:(lia)) as [b Hb].
      rewrite Hb.
      destruct b as [| |c|l]; cbn [bind post]; try exact I.
      - apply Hchild. now apply unmarked_newPineNode.
      - apply Hchild. now apply unmarked_newPineNode.
      - apply Hchild. apply idx_nth_error in Hb.
        exact (proj2 (Forall_skipn_head _ _ _ _ Hall2 Hb)). }
    intros [[n3 ctx3] flag] (Hh3 & Hs3 & Hf3 & Hi3 & Hall3 & Hk3).
    cbn [fst snd] in *.
    pose proof (header_nend _ _ Hh3) as He3.
    eapply post_bind with
      (P := fun s3 : Node * Z =>
              header (fst s3) = header n3 /\ shaped (fst s3)
              /\ bucketsAll framed (values (fst s3))
              /\ 0 <= snd s3 + 1
              /\ Forall fresh
                   (skipn (Z.to_nat (snd s3 + 1)) (values (fst s3)))
              /\ Js.idx (keys (fst s3)) (snd s3 + 1) = Some k2).
    { destruct flag.
      - eapply post_impl;
          [apply (fill_framed (fun n'' j => (n'', j)) n3 i1 KnownEmpty true
                    fresh Hs3 Hf3 I H01 Hi3 Hall3);
           right; intros x [Hx _]; exact Hx
          | | auto].
        intros a (n4 & i4 & -> & (A & B & C & E & _) & F & G).
        cbn [fst snd] in *.
        split; [exact A|]. split; [exact B|]. split; [exact C|].
        split; [lia|]. split; [exact F|]. rewrite G, Hk3. exact Hk2.
      - cbn [post fst snd]. split; [reflexivity|].
        split; [exact Hs3|]. split; [exact Hf3|]. split; [lia|].
        split; [|now rewrite Hk3].
        replace (Z.to_nat (i1 + 1)) with (S (Z.to_nat i1)) by lia.
        exact Hall3. }
    intros [n4 i4] (Hh4 & Hs4 & Hf4 & H04 & Hall4 & Hk4).
    cbn [fst snd] in *.
    pose proof (header_nend _ _ Hh4) as He4.
    apply IH; try assumption.
    + cbn [setStart end_]. lia.
    + cbn [setStart start end_]. unfold Js.Math_min. intros Hnext.
      apply (shaped_key_inside n4 (i4 + 1) k2 Hs4 Hk4). lia.
Qed.

(** The loop of [_addLeafRecords]. *)
Lemma leaf_loop_framed (fuel : nat) :
  forall (n : Node) (i : Z) (cr : CR) (ctx : Ctx D) (prev : option Z),
    shaped n -> bucketsAll framed (values n) ->
    end_ cr <= nend n -> 0 <= i ->
    (Z.to_nat i < List.length (values n))%nat ->
    post
      (fun r => shaped (fst (fst (fst r)))
                /\ bucketsAll framed (values (fst (fst (fst r)))))
      (fun _ => True)
      (_addLeafRecords_loop fuel n i cr ctx prev).
Proof.
  induction fuel as [|fuel IH]; intros n i cr ctx prev Hs Hf Hend H0 Hi;
    cbn [_addLeafRecords_loop].
  - destruct (start cr <? end_ cr); cbn [post fst]; [exact I|now split].
  - destruct (Z.ltb_spec (start cr) (end_ cr)) as [Hlt|Hge];
      cbn [post fst]; [|now split].
    destruct (skipKeys_bound n (start cr) i Hs ltac:(lia) H0 Hi)
      as [Hi0 Hi0'].
    set (i0 := skipKeys (keys n) (start cr) i) in *.
    destruct (_traverseData ctx _ _) as [di ctx1]. cbv zeta.
    match goal with
    | |- context [setContinued (setDataIndex ctx1 (Some di)) ?x] =>
        generalize (setContinued (setDataIndex ctx1 (Some di)) x)
    end.
    intros ctx2.
    eapply post_bind;
      [apply (split_before n i0 (start cr) (Some KnownEmpty)
                (fun _ => True) Hs Hf ltac:(lia) Hi0' ltac:(lia));
       [apply Forall_forall; auto
       |intros f Hfill; injection Hfill as <-; split; exact I]|].
    intros [n1 i1] ((Hh1 & Hs1 & Hf1 & H01 & Hi1) & _).
    cbn [fst snd] in *.
    pose proof (header_nend _ _ Hh1) as He1.
    eapply post_bind with
      (P := fun s2 : Node * Z * Ctx D =>
              mid n1 (fst (fst s2)) (snd (fst s2))).
    { assert (Hstay : forall c : Ctx D, post
        (fun s2 : Node * Z * Ctx D => mid n1 (fst (fst s2)) (snd (fst s2)))
        (fun _ => True) (Ok (n1, i1, c))).
      { intros c. cbn [post fst snd]. split; [reflexivity|].
        split; [exact Hs1|]. split; [exact Hf1|]. split; assumption. }
      assert (Hfill : forall k : Z, post
        (fun s2 : Node * Z * Ctx D => mid n1 (fst (fst s2)) (snd (fst s2)))
        (fun _ => True)
        (let cl := Js.orElse (continuedList (props ctx2)) [] in
         do n' <- setBucket n1 i1
                    (match cl with
                     | [] => KnownEmpty
                     | _ => Leaf (mkLeaf k [] cl true)
                     end);
         let '(n'', merged) := _mergeChild n' i1 false in
         Ok (n'', (if merged then i1 - 1 else i1), ctx2))).
      { intros k. cbv zeta.
        eapply post_impl;
          [apply (fill_framed (fun n'' j => (n'', j, ctx2)) n1 i1 _ false
                    (fun _ => True) Hs1 Hf1);
           [now destruct (Js.orElse _ _) | exact H01 | exact Hi1
           | apply Forall_forall; auto | now left]
          | | auto].
        intros a (n'' & j & -> & Hm & _). exact Hm. }
      destruct (Js.idx (data ctx2) di) as [e|];
        destruct (Js.idx (keys n1) i1) as [k|]; try apply Hstay.
      - destruct (start e =? k).
        + destruct (leafInsert k ctx2) as [leaf ctx3].
          destruct (setBucket_inside n1 i1 (Leaf leaf) H01 Hi1)
            as (n' & -> & Hks & Hvs & Hh & Hs').
          cbn [bind post fst snd]. rewrite Hvs.
          split; [exact Hh|]. split; [now apply Hs'|]. split.
          { rewrite bucketsAll_Forall in *. now apply Forall_assign. }
          split; [exact H01|]. unfold Nat.lt. now rewrite length_assign.
        + destruct (k <? end_ cr); [apply Hfill | apply Hstay].
      - destruct (k <? end_ cr); [apply Hfill | apply Hstay]. }
    intros [[n2 i2] ctx3] (Hh2 & Hs2 & Hf2 & H02 & Hi2). cbn [fst snd] in *.
    pose proof (header_nend _ _ Hh2) as He2.
    apply IH; try assumption. cbn [setStart end_]. lia.
Qed.

Lemma leaf_loop_exit (fuel : nat) (n : Node) (i : Z) (cr : CR)
    (ctx : Ctx D) (prev : option Z) :
  end_ cr <= start cr ->
  _addLeafRecords_loop fuel n i cr ctx prev = Ok (n, ctx, prev, cr).
Proof.
  intros H. destruct fuel; cbn [_addLeafRecords_loop];
    destruct (Z.ltb_spec (start cr) (end_ cr)); try lia; reflexivity.
Qed.

(** A split at an index inside the array keeps keys and buckets in step,
    wherever the new key lies. *)
Lemma splitChild_spans (n n' : Node) (index newKey : Z)
    (fill : option Slot) :
  _splitChild n index newKey fill = Ok n' ->
  spans n -> bucketsAll framed (values n) ->
  childIs framed (Js.orElse fill KnownEmpty) ->
  spans n' /\ bucketsAll framed (values n').
Proof.
  unfold _splitChild. destruct (Js.idx (values n) index) as [b|] eqn:Hb;
    [|discriminate].
  intros H (S1 & S2 & S3) Hall Hfill. injection H as <-.
  destruct (idx_bounds _ _ _ Hb) as [Hi Hlen].
  destruct (header_with_values n
              (Js.splice_in (keys n) (index + 1) newKey)
              (Js.splice_in (values n) (index + 1) (Js.orElse fill b)))
    as (Hh & Hk & Hv & Hs & He).
  split.
  - unfold spans. rewrite Hk, Hv, Hs, He.
    destruct (ends_splice_in (keys n) (index + 1) newKey (nstart n))
      as [E1 E2]; [lia | rewrite S3; lia |].
    rewrite E1, E2, !length_splice_in. repeat split; congruence.
  - rewrite Hv. rewrite bucketsAll_Forall in *.
    apply Forall_splice_in; [exact Hall|].
    destruct fill as [f|]; [exact Hfill|]. cbn [Js.orElse].
    rewrite Forall_forall in Hall. apply Hall. eapply idx_In, Hb.
Qed.

Lemma shaped_nonempty (n : Node) :
  shaped n -> nstart n < nend n -> (0 < List.length (values n))%nat.
Proof.
  intros (front & Hk & Hl & Hh & _) Hlt. rewrite <- Hl.
  destruct front as [|k front]; [|cbn; lia].
  rewrite Hk in Hh. cbn in Hh. injection Hh as Hh. lia.
Qed.

(** [_addLeafRecords] on a range clipped to the node. *)
Lemma addLeafRecords_framed (n : Node) (cr : CR) (ctx : Ctx D) :
  shaped n -> bucketsAll framed (values n) ->
  nstart n <= start cr -> end_ cr <= nend n ->
  post (fun r => spans (fst r) /\ bucketsAll framed (values (fst r)))
    (fun _ => True)
    (_addLeafRecords n cr ctx).
Proof.
  intros Hs Hf Hstart Hend. unfold _addLeafRecords.
  match goal with
  | |- context [negb (leafNodeCtorOk (props ?c))] => generalize c
  end.
  intros ctx0. destruct (negb _); [exact I|].
  destruct (Z_lt_le_dec (start cr) (nend n)) as [Hin|Hout].
  - pose proof (shaped_nonempty n Hs ltac:(lia)) as Hne.
    destruct (skipKeys_bound n (start cr) 0 Hs Hin ltac:(lia) ltac:(lia))
      as [Hi0 Hi0'].
    set (i0 := skipKeys (keys n) (start cr) 0) in *.
    eapply post_bind;
      [apply (split_before n i0 (start cr) None (fun _ => True) Hs Hf
                ltac:(lia) Hi0' Hin);
       [apply Forall_forall; auto | intros f Hfill; discriminate Hfill]|].
    intros [n1 i1] ((Hh1 & Hs1 & Hf1 & H01 & Hi1) & _).
    cbn [fst snd] in *.
    pose proof (header_nend _ _ Hh1) as He1.
    eapply post_bind;
      [apply (split_after n1 i1 (end_ cr) (fun _ => True) Hs1 Hf1 H01 Hi1
                ltac:(lia));
       apply Forall_forall; auto|].
    intros n2 ((Hh2 & Hs2 & Hf2 & _ & Hi2) & _).
    pose proof (header_nend _ _ Hh2) as He2.
    eapply post_bind;
      [apply (leaf_loop_framed _ n2 i1 cr ctx0 None Hs2 Hf2 ltac:(lia) H01
                Hi2)|].
    intros [[[n3 ctx3] prev3] cr3] [Hs3 Hf3]. cbn [post fst snd] in *.
    split; [now apply shaped_spans | exact Hf3].
  - pose proof (shaped_spans n Hs) as Hsp.
    eapply post_bind with
      (P := fun s1 : Node * Z =>
              spans (fst s1) /\ bucketsAll framed (values (fst s1))).
    { destruct (Js.ltU _ _); [|now split].
      destruct (_splitChild _ _ _ _) as [n'| |] eqn:E; cbn [bind post fst];
        try exact I.
      now apply (splitChild_spans n n' _ _ _ E). }
    intros [n1 i1] [Hsp1 Hf1]. cbn [fst] in *.
    eapply post_bind with
      (P := fun n2 : Node => spans n2 /\ bucketsAll framed (values n2)).
    { destruct (Js.gtU _ _); [|now split].
      destruct (_splitChild _ _ _ _) as [n'| |] eqn:E; cbn [post];
        try exact I.
      now apply (splitChild_spans n1 n' _ _ _ E). }
    intros n2 [Hsp2 Hf2].
    rewrite leaf_loop_exit by lia. cbn [bind post fst]. now split.
Qed.

Lemma framed_same (n n' : Node) :
  keys n' = keys n -> values n' = values n ->
  nstart n' = nstart n -> nend n' = nend n ->
  (spans n /\ bucketsAll framed (values n)) ->
  spans n' /\ bucketsAll framed (values n').
Proof.
  intros Hk Hv Hs He. unfold spans. now rewrite Hk, Hv, Hs, He.
Qed.

Lemma with_summary_back_buckets (n n' : Node) (sm : option Smry)
    (c : option (JsVal D Smry)) :
  with_summary n' sm c = n ->
  keys n' = keys n /\ values n' = values n
  /\ nstart n' = nstart n /\ nend n' = nend n.
Proof. intros <-. destruct n'. repeat split. Qed.

Lemma updateSummary_framed (n : Node) (chromEntry : option (JsVal D Smry))
    (log : list string) :
  spans n /\ bucketsAll framed (values n) ->
  post (fun r => spans (fst r) /\ bucketsAll framed (values (fst r)))
    (fun _ => True)
    (updateSummary tree n chromEntry log).
Proof.
  intros H. eapply post_impl;
    [apply (updateSummary_post tree n chromEntry log) | | auto].
  intros r (Hback & _).
  destruct (with_summary_back_buckets _ _ _ _ Hback) as (A & B & C & E).
  now apply (framed_same n (fst r)).
Qed.

Lemma insertResolutionEnough_framed (n : Node) (ctx : Ctx D) :
  spans n /\ bucketsAll framed (values n) ->
  post (fun s => spans (fst s) /\ bucketsAll framed (values (fst s)))
    (fun _ => True)
    (insertResolutionEnough tree n ctx).
Proof.
  intros H. unfold insertResolutionEnough.
  destruct (data (setData ctx _)) as [|e rest]; [exact H|].
  destruct (negb (nstart n =? start e) || negb (nend n =? end_ e)).
  - destruct (negb (hasData n)); [|exact H].
    destruct (nend n <=? start e); [|exact I].
    destruct (hasSummaryCtor tree); [|exact I].
    eapply post_bind; [now apply updateSummary_framed|].
    intros r Hr. exact Hr.
  - eapply post_bind; [now apply updateSummary_framed|].
    intros r Hr. exact Hr.
Qed.

Lemma childResolution_pos (n : Node) :
  1 <= scalingFactor tree -> 1 <= leafScalingFactor tree ->
  0 < getChildResolution tree n None.
Proof.
  intros Hsf Hlsf. unfold getChildResolution, generalChildResolution.
  destruct (Z.gtb_spec (reverseDepth n) 0) as [Hd|_]; [|lia].
  rewrite tier_resolution_value by lia.
  apply Z.mul_pos_pos; [lia|]. apply Z.pow_pos_nonneg; lia.
Qed.

(** The outcome of [insert] on a tree in which nothing is marked as
    empty. *)
Lemma insert_framed (fuel : nat) :
  1 <= scalingFactor tree -> 1 <= leafScalingFactor tree ->
  forall (n : Node) (cr : option CR) (ctx : Ctx D),
    unmarked n ->
    post (fun r => framed (fst (fst r))) (fun _ => True)
      (insert num tree fuel n cr ctx).
Proof.
  intros Hsf Hlsf. induction fuel as [|fuel IH]; intros n cr ctx Hu;
    [exact I|].
  cbn [insert]. cbv zeta.
  destruct (match data ctx, cr with
            | [e], None => Some e
            | _, _ => cr
            end) as [c0|]; [|exact I].
  pose proof (unmarked_framed n Hu) as Hfr.
  apply framed_unfold in Hfr.
  apply unmarked_unfold in Hu. destruct Hu as (Hs & Hne & Hb).
  eapply post_bind with
    (P := fun s : Node * Ctx D =>
            spans (fst s) /\ bucketsAll framed (values (fst s))).
  { destruct (resolutionEnough tree n _);
      [now apply insertResolutionEnough_framed|].
    destruct (reverseDepth n >? 0).
    - unfold _addNonLeafRecords.
      eapply post_impl;
        [apply (nonleaf_loop_framed (insert num tree fuel)) | | auto].
      + intros c cr0 ctx0 Hc. now apply IH.
      + now apply childResolution_pos.
      + exact Hs.
      + tauto.
      + cbn [truncateChrRange end_]. lia.
      + lia.
      + cbn [truncateChrRange start end_]. intros Hlt.
        apply shaped_nonempty; [exact Hs | lia].
      + cbn [skipn Z.to_nat]. rewrite bucketsAll_Forall in Hb.
        rewrite Forall_forall in *. intros b Hin. split; [now apply Hne|].
        exact (Hb b Hin).
      + intros [n' ctx'] [Hs' Hf']. cbn [fst] in *.
        split; [now apply shaped_spans | exact Hf'].
    - apply addLeafRecords_framed; try tauto;
        cbn [truncateChrRange start end_]; lia. }
  intros [n1 ctx1] H1. cbn [fst snd] in *.
  eapply post_bind; [now apply updateSummary_framed|].
  intros r Hr. cbn [post fst]. now apply framed_unfold.
Qed.

(** X5. Whatever the data and the range, an insertion that returns leaves
    the root flag, the start, the end and the reverse depth of the node as
    they were (only keys, buckets and the summary are written).  When no
    bucket of the tree is KnownEmpty yet and the keys of every node run
    from its start to its end, one for each bucket and all but the last
    before the end, the keys of every node of the tree that comes back
    still run from its start to its end, with one key more than
    buckets. *)
Theorem insert_keeps_frame (fuel : nat) (n n' : Node) (cr : option CR)
    (ctx ctx' : Ctx D) (v : bool) :
  insert num tree fuel n cr ctx = Ok (n', ctx', v) ->
  header n' = header n
  /\ (1 <= scalingFactor tree -> 1 <= leafScalingFactor tree ->
      unmarked n -> framed n').
Proof.
  intros H. split.
  - pose proof (insert_post num tree fuel n cr ctx) as Hp.
    rewrite H in Hp. cbn [post fst snd] in Hp.
    destruct Hp as ((Hh & _) & _). exact Hh.
  - intros Hsf Hlsf Hu.
    pose proof (insert_framed fuel Hsf Hlsf n cr ctx Hu) as Hp.
    rewrite H in Hp. exact Hp.
Qed.

End FrameFacts.

Lemma insert_keeps_frame_witness :
  exists n ctx,
    insert exactLogs ScenarioA.tree 5 ScenarioA.root None ScenarioA.ctx0
    = Ok (n, ctx, true)
    /\ header n = header ScenarioA.root
    /\ framed n.
Proof.
  destruct scenario_A_returns as (n & ctx & E).
  exists n, ctx. split; [exact E|].
  destruct (insert_keeps_frame exactLogs ScenarioA.tree 5 ScenarioA.root
              n None ScenarioA.ctx0 ctx true E)
    as [Hh Hf].
  split; [exact Hh|]. apply Hf.
  - cbn. lia.
  - cbn. lia.
  - split; [|split; [repeat constructor; discriminate | exact I]].
    exists [0]. cbn. repeat split. repeat constructor.
Defined.

(** ** The ranges [getUncachedRange] reports *)

Section ReportShape.

Context {D Smry : Type}.
Variable num : LogNumerics.
Variable tree : GiveTree.

Local Notation Node := (PineNode D Smry).
Local Notation CR := (ChromRegion D).
Local Notation res cr p := (requestedResolution cr (queryResolution p)).
Local Notation closestFor cr p :=
  (_getClosestResolution (floorLogQuot num) tree
     (inject_Z (res cr p) / fst (normalizeRatio p []))).

Lemma pushRange_shape (c a b rs re lo : Z) (acc : list CR) :
  Forall (taggedWithin c a b) acc ->
  separated acc ->
  Forall (fun r => end_ r <= lo) acc ->
  lo <= rs -> rs < re -> a <= rs -> re <= b ->
  Forall (taggedWithin c a b) (pushRange acc c rs re)
  /\ separated (pushRange acc c rs re)
  /\ Forall (fun r => end_ r <= re) (pushRange acc c rs re).
Proof.
  intros Htag Hsep Hall Hlo Hlt Ha Hb.
  induction acc as [|l t IH].
  - cbn [pushRange separated]. split; [|split; [tauto|]];
      repeat constructor; cbn [start end_ resolution]; lia.
  - apply Forall_cons_iff in Htag as [Hl Htag].
    apply Forall_cons_iff in Hall as [Hle Hall].
    cbn [separated] in Hsep. destruct Hsep as [Hnext Hsep].
    destruct t as [|l2 t'].
    + cbn [pushRange]. destruct Hl as (Hr & Hs & He).
      unfold sameResolution. rewrite Hr, Z.eqb_refl. cbn [andb].
      destruct (end_ l =? rs) eqn:Heq.
      * cbn [separated]. split; [|split; [tauto|]];
          repeat constructor; cbn [setEnd start end_ resolution];
          try assumption; lia.
      * apply Z.eqb_neq in Heq. cbn [separated start].
        split; [|split; [split; [lia | tauto]|]];
          repeat constructor; cbn [start end_ resolution];
          try assumption; lia.
    + specialize (IH Htag Hsep Hall). destruct IH as (I1 & I2 & I3).
      destruct (pushRange_head t' l2 c rs re) as (b' & t'' & Heq & Hst).
      change (pushRange (l :: l2 :: t') c rs re)
        with (l :: pushRange (l2 :: t') c rs re).
      rewrite Heq in *. split; [|split].
      * now constructor.
      * cbn [separated]. split; [lia | exact I2].
      * constructor; [lia | exact I3].
Qed.

Lemma reportAll_shape (cr : CR) (c a b : Z) (gs : list (Z * Z)) :
  0 < c -> start cr < end_ cr ->
  forall acc lo hi,
    chain lo gs hi ->
    a <= Z.max lo
           (fitResolution (inject_Z (start cr)) c (Some Js.Math_floor)) ->
    Z.min hi (fitResolution (inject_Z (end_ cr)) c (Some Js.Math_ceil)) <= b ->
    (forall g, In g gs -> fst g < end_ cr /\ start cr < snd g) ->
    Forall (taggedWithin c a b) acc ->
    separated acc ->
    Forall (fun r => end_ r <= lo) acc ->
    Forall (taggedWithin c a b) (reportAll cr c gs acc)
    /\ separated (reportAll cr c gs acc).
Proof.
  intros Hc Hcr. unfold reportAll.
  induction gs as [|g t IH]; intros acc lo hi Hch Hlo Hhi Hmeet Htag Hsep Hall.
  - cbn [fold_left]. now split.
  - cbn [chain] in Hch. destruct Hch as (Hg0 & Hg & Hch).
    destruct (Hmeet g (or_introl eq_refl)) as [Hge Hsg].
    destruct (retrieve_bounds cr c Hc Hcr (fst g) (snd g) Hg Hge Hsg)
      as (Hb1 & Hb2 & Hb3 & _).
    pose proof (chain_le _ _ _ Hch) as Hgh.
    assert (Hin : a <= fst (retrieveRange cr c (fst g) (snd g))
                  /\ snd (retrieveRange cr c (fst g) (snd g)) <= b).
    { unfold retrieveRange, Js.Math_max, Js.Math_min. cbn [fst snd]. lia. }
    cbn [fold_left].
    destruct (retrieveRange cr c (fst g) (snd g)) as [rs re].
    cbn [fst snd] in *.
    destruct (pushRange_shape c a b rs re lo acc Htag Hsep Hall)
      as (P1 & P2 & P3); try lia.
    apply (IH _ (snd g) hi Hch); try assumption; try lia.
    + intros g' Hg'. apply Hmeet. now right.
    + eapply Forall_impl; [|exact P3]. cbn. intros; lia.
Qed.

Lemma closest_resolution_pos_from_one (flq : Z -> Q -> Z) (t : GiveTree)
    (r : Q) :
  1 <= scalingFactor t -> 1 <= leafScalingFactor t ->
  (forall b x, (1 <= x)%Q -> 0 <= flq b x) ->
  0 < _getClosestResolution flq t r.
Proof.
  intros Hsf Hlsf Hflq. unfold _getClosestResolution.
  destruct (Qle_bool _ _) eqn:Hle; [|lia].
  apply Qle_bool_iff in Hle.
  assert (Hx : (1 <= r / inject_Z (leafScalingFactor t))%Q).
  { apply Qle_shift_div_l.
    - change 0%Q with (inject_Z 0). rewrite <- Zlt_Qlt. lia.
    - rewrite Qmult_1_l. exact Hle. }
  unfold Js.parseInt, Js.Math_floor.
  set (k := flq _ _) in *.
  rewrite (Qfloor_comp _
    (inject_Z (leafScalingFactor t * scalingFactor t ^ k))).
  - rewrite Qfloor_Z.
    apply Z.mul_pos_pos; [lia|]. apply Z.pow_pos_nonneg; [lia|].
    exact (Hflq _ _ Hx).
  - rewrite pow_inject by exact (Hflq _ _ Hx). rewrite inject_Z_mult. ring.
Qed.

(** X10. On a well-formed node, with no earlier result in [props], every
    range [getUncachedRange] reports is tagged with the closest resolution
    [_getClosestResolution (resolution / bufferingRatio)], lies inside the
    node and inside the queried range widened to the grid of that
    resolution, and ends before the next one starts: ranges that touch have
    been merged into one. *)
Theorem uncached_ranges_shape (n : Node) (cr : CR) (p : QueryProps D)
    (log : list string) :
  wellFormed n = true ->
  1 <= scalingFactor tree -> 1 <= leafScalingFactor tree ->
  (forall b x, (1 <= x)%Q -> 0 <= floorLogQuot num b x) ->
  start cr < end_ cr ->
  1 <= res cr p ->
  Js.orElse (_result p) [] = [] ->
  exists l p' log',
    getUncachedRange num tree n (Some cr) p log = Ok (p', log')
    /\ _result p' = Some l
    /\ separated l
    /\ forall r, In r l ->
         resolution r = Some (closestFor cr p)
         /\ nstart n <= start r /\ end_ r <= nend n
         /\ fitResolution (inject_Z (start cr)) (closestFor cr p)
              (Some Js.Math_floor) <= start r
         /\ end_ r <= fitResolution (inject_Z (end_ cr)) (closestFor cr p)
                        (Some Js.Math_ceil).
Proof.
  intros Hwf Hsf Hlsf Hflq Hcr Hres Hacc.
  assert (Hc : 0 < closestFor cr p)
    by (apply closest_resolution_pos_from_one; assumption).
  destruct (gaps_ordered tree (start cr) (end_ cr) (res cr p) Hres n Hwf)
    as (Hch & Hmeet).
  eexists. eexists. eexists.
  split; [apply getUncachedRange_reports; assumption|].
  split; [reflexivity|]. rewrite Hacc.
  set (c := closestFor cr p) in *.
  destruct (reportAll_shape cr c
              (Z.max (nstart n)
                 (fitResolution (inject_Z (start cr)) c (Some Js.Math_floor)))
              (Z.min (nend n)
                 (fitResolution (inject_Z (end_ cr)) c (Some Js.Math_ceil)))
              (gaps tree n (start cr) (end_ cr) (res cr p)) Hc Hcr
              [] (nstart n) (nend n) Hch (Z.le_refl _) (Z.le_refl _) Hmeet
              (Forall_nil _) I (Forall_nil _))
    as (Htag & Hsep).
  split; [exact Hsep|].
  intros r Hr. rewrite Forall_forall in Htag.
  destruct (Htag r Hr) as (Hr1 & Hr2 & Hr3).
  split; [exact Hr1|]. lia.
Qed.

(** X11. A query that lies wholly before or wholly after a well-formed node
    finds nothing missing in it:  [hasUncachedRange] returns [false], and
    [getUncachedRange] returns what [props._result] held, unchanged. *)
Theorem query_outside_node (n : Node) (cr : CR) (p : QueryProps D)
    (log : list string) :
  wellFormed n = true ->
  1 <= res cr p ->
  end_ cr <= nstart n \/ nend n <= start cr ->
  hasUncachedRange tree n (Some cr) p = Ok false
  /\ getUncachedRange num tree n (Some cr) p log
     = Ok (mkQuery (queryResolution p) (Some (fst (normalizeRatio p [])))
             (Some (Js.orElse (_result p) [])),
           log ++ snd (normalizeRatio p [])).
Proof.
  intros Hwf Hres Hout.
  destruct (gaps_ordered tree (start cr) (end_ cr) (res cr p) Hres n Hwf)
    as (Hch & Hmeet).
  assert (Hnone : gaps tree n (start cr) (end_ cr) (res cr p) = []).
  { destruct (gaps tree n (start cr) (end_ cr) (res cr p)) as [|g t];
      [reflexivity|].
    exfalso.
    destruct (chain_In _ _ _ g Hch (or_introl eq_refl)) as (? & ? & ?).
    destruct (Hmeet g (or_introl eq_refl)). lia. }
  split.
  - rewrite (hasUncachedRange_gaps tree cr p Hres n Hwf). now rewrite Hnone.
  - rewrite (getUncachedRange_reports num tree n cr p log Hwf Hres).
    now rewrite Hnone.
Qed.

Lemma pushRange_app (front t : list CR) (c rs re : Z) :
  t <> [] -> pushRange (front ++ t) c rs re = front ++ pushRange t c rs re.
Proof.
  intros Ht. induction front as [|a f IH]; [reflexivity|].
  change ((a :: f) ++ t) with (a :: (f ++ t)).
  destruct (f ++ t) as [|b r] eqn:E.
  - destruct f; [cbn in E; congruence | discriminate].
  - change (pushRange (a :: b :: r) c rs re)
      with (a :: pushRange (b :: r) c rs re).
    rewrite IH. reflexivity.
Qed.

Lemma pushRange_front (front tail0 : list CR) (l : CR) (c rs re : Z) :
  exists l' tail,
    pushRange (front ++ l :: tail0) c rs re = front ++ l' :: tail
    /\ start l' = start l /\ resolution l' = resolution l
    /\ payload l' = payload l.
Proof.
  rewrite pushRange_app by discriminate.
  destruct tail0 as [|b t].
  - cbn [pushRange]. destruct (sameResolution _ _ && _).
    + exists (setEnd l re), []. repeat split.
    + exists l. eexists. repeat split.
  - exists l. eexists. change (pushRange (l :: b :: t) c rs re)
      with (l :: pushRange (b :: t) c rs re).
    repeat split.
Qed.

Lemma reportAll_front (cr : CR) (c : Z) (gs : list (Z * Z)) :
  forall (front tail0 : list CR) (l : CR),
  exists l' tail,
    reportAll cr c gs (front ++ l :: tail0) = front ++ l' :: tail
    /\ start l' = start l /\ resolution l' = resolution l
    /\ payload l' = payload l.
Proof.
  unfold reportAll. induction gs as [|g t IH]; intros front tail0 l.
  - exists l, tail0. repeat split.
  - cbn [fold_left]. destruct (retrieveRange cr c (fst g) (snd g)) as [rs re].
    destruct (pushRange_front front tail0 l c rs re)
      as (l1 & tail1 & -> & H1 & H2 & H3).
    destruct (IH front tail1 l1) as (l2 & tail2 & -> & H4 & H5 & H6).
    exists l2, tail2. repeat split; congruence.
Qed.

(** X12. What [props._result] brings into [getUncachedRange] comes back in
    front of the result: every entry but the last as it was, and the last
    with its start, its resolution and what else it carries as they were
    (its end is moved when the first range found extends it). *)
Theorem seeded_result_in_front (n : Node) (cr : CR) (p : QueryProps D)
    (log : list string) (front : list CR) (l : CR) :
  wellFormed n = true ->
  1 <= res cr p ->
  _result p = Some (front ++ [l]) ->
  exists l' tail p' log',
    getUncachedRange num tree n (Some cr) p log = Ok (p', log')
    /\ _result p' = Some (front ++ l' :: tail)
    /\ start l' = start l /\ resolution l' = resolution l
    /\ payload l' = payload l.
Proof.
  intros Hwf Hres Hseed.
  destruct (reportAll_front cr (closestFor cr p)
              (gaps tree n (start cr) (end_ cr) (res cr p)) front [] l)
    as (l' & tail & Heq & H1 & H2 & H3).
  exists l', tail. eexists. eexists.
  split; [apply getUncachedRange_reports; assumption|].
  cbn [_result]. rewrite Hseed. cbn [Js.orElse]. rewrite Heq.
  repeat split; assumption.
Qed.

End ReportShape.

Lemma uncached_ranges_shape_witness :
  exists l p' log',
    getUncachedRange exactLogs ScenarioA.tree ScenarioA.root
      (Some (mkRegion 20500 25500 (Some 1000) None)) (mkQuery None None None)
      []
    = Ok (p', log')
    /\ _result p' = Some l
    /\ separated l
    /\ forall r, In r l -> 0 <= start r /\ end_ r <= 100000.
Proof.
  destruct (uncached_ranges_shape exactLogs ScenarioA.tree ScenarioA.root
              (mkRegion 20500 25500 (Some 1000) None) (mkQuery None None None)
              [])
    as (l & p' & log' & H1 & H2 & H3 & H4).
  - vm_compute. reflexivity.
  - vm_compute. congruence.
  - vm_compute. congruence.
  - intros b x _. apply floorLog_nonneg.
  - vm_compute. reflexivity.
  - vm_compute. congruence.
  - reflexivity.
  - exists l, p', log'. split; [exact H1|]. split; [exact H2|].
    split; [exact H3|]. intros r Hr. destruct (H4 r Hr) as (_ & Hs & He & _).
    split; [exact Hs | exact He].
Defined.

Lemma query_outside_node_witness :
  hasUncachedRange ScenarioA.tree ScenarioA.root
    (Some (mkRegion 200000 300000 (Some 1) None)) (mkQuery None None None)
  = Ok false.
Proof.
  destruct (query_outside_node exactLogs ScenarioA.tree ScenarioA.root
              (mkRegion 200000 300000 (Some 1) None) (mkQuery None None None)
              [])
    as (H & _).
  - vm_compute. reflexivity.
  - vm_compute. congruence.
  - right. vm_compute. congruence.
  - exact H.
Defined.

Lemma seeded_result_in_front_witness :
  exists l' tail p' log',
    getUncachedRange exactLogs ScenarioA.tree ScenarioA.root
      (Some (mkRegion 0 1000 (Some 1) None))
      (mkQuery None None (Some [mkRegion (-500) 0 (Some 1) None])) []
    = Ok (p', log')
    /\ _result p' = Some ([] ++ l' :: tail)
    /\ start l' = -500.
Proof.
  destruct (seeded_result_in_front exactLogs ScenarioA.tree ScenarioA.root
              (mkRegion 0 1000 (Some 1) None)
              (mkQuery None None (Some [mkRegion (-500) 0 (Some 1) None])) []
              [] (mkRegion (-500) 0 (Some 1) None))
    as (l' & tail & p' & log' & H1 & H2 & H3 & _).
  - vm_compute. reflexivity.
  - vm_compute. congruence.
  - reflexivity.
  - exists l', tail, p', log'. repeat split; assumption.
Defined.

(** ** Inserting no data *)

Ltac zb :=
  repeat match goal with
  | |- context [?a <? ?b] => destruct (Z.ltb_spec a b); try lia
  | |- context [?a <=? ?b] => destruct (Z.leb_spec a b); try lia
  | |- context [?a =? ?b] => destruct (Z.eqb_spec a b); try lia
  end.

Ltac fixnat :=
  repeat match goal with
  | |- context [Pos.to_nat ?p] =>
      let v := eval vm_compute in (Pos.to_nat p) in
      change (Pos.to_nat p) with v
  end.

Ltac head_cbn :=
  match goal with
  | |- bind ?r ?k = ?rhs =>
      let r' := eval cbn in r in
      change (bind r' k = rhs)
  end.

Ltac step := head_cbn; fixnat; head_cbn; zb; cbn [bind].

Section InsertNothing.

Context {D Smry : Type} {SC : SummaryCtor D Smry}.
Variable num : LogNumerics.
Variable tree : GiveTree.

Local Notation Node := (PineNode D Smry).
Local Notation Slot := (Bucket D Smry).
Local Notation CR := (ChromRegion D).

Lemma fit_floor_aligned (x c : Z) :
  0 < c -> (c | x) ->
  fitResolution (inject_Z x) c (Some Js.Math_floor) = x.
Proof.
  intros Hc [k ->]. rewrite fit_floor by assumption.
  now rewrite Z.div_mul by lia.
Qed.

Lemma fit_ceil_aligned (x c : Z) :
  0 < c -> (c | x) ->
  fitResolution (inject_Z x) c (Some Js.Math_ceil) = x.
Proof.
  intros Hc [k ->]. rewrite fit_ceil by assumption.
  rewrite <- Z.mul_opp_l, Z.div_mul by lia. ring.
Qed.

Section Loop.

Variable ci : Node -> option CR -> Ctx D -> Result (Node * Ctx D * bool).
Variables (root : bool) (s e d c b : Z).
Variables (rz : option Z) (py : option D).
Variable ctx : Ctx D.
Hypothesis Hc : 0 < c.
Hypothesis Hbe : b <= e.
Hypothesis Hb : b = e \/ (c | b).
Hypothesis Hdata : data ctx = [].
Hypothesis Hcl : Js.orElse (continuedList (props ctx)) [] = [].

Local Notation N ks vs := (mkNode root s e d ks vs None None : Node).

Lemma empty_loop (fuel : nat) :
  forall (x i : Z) (n : Node),
    (c | x) -> s <= x < b ->
    (x = s /\ n = N [s; e] [Unknown] /\ i = 0)
    \/ (s < x /\ n = N [s; x; e] [KnownEmpty; Unknown] /\ i = 1) ->
    (Z.to_nat ((b - x) / c) + 1 <= fuel)%nat ->
    _addNonLeafRecords_loop num tree ci fuel c n i (mkRegion x b rz py) ctx
    = Ok (N (if b <? e then [s; b; e] else [s; e])
            (if b <? e then [KnownEmpty; Unknown] else [KnownEmpty]),
          ctx).
Proof.
  induction fuel as [|fuel IH]; intros x i n Hx Hxb Hshape Hfuel; [lia|].
  cbn [_addNonLeafRecords_loop start end_].
  replace (x <? b) with true by (symmetry; apply Z.ltb_lt; lia).
  cbv zeta.
  rewrite (fit_floor_aligned x c Hc Hx).
  assert (Hre : Js.Math_min (nend n)
                  (Js.Math_min
                     (fitResolution (inject_Z b) c (Some Js.Math_ceil))
                     (x + c))
                = Z.min b (x + c)).
  { pose proof (fit_ceil_ge b c Hc) as Hge.
    assert (Hn : nend n = e)
      by (destruct Hshape as [(_ & -> & _)|(_ & -> & _)]; reflexivity).
    rewrite Hn. unfold Js.Math_min.
    destruct Hb as [->|Hdiv]; [lia|].
    rewrite (fit_ceil_aligned b c Hc Hdiv). lia. }
  rewrite Hre. rewrite Hdata.
  assert (Hlive : match continuedList (props ctx) with
                  | Some cl => existsb (fun e0 : CR => x <? end_ e0) cl
                  | None => false
                  end = false).
  { destruct (continuedList (props ctx)) as [[|? ?]|]; try reflexivity.
    discriminate Hcl. }
  rewrite Hlive, Z.ltb_irrefl.
  replace (b <? Z.min b (x + c)) with false by (symmetry; apply Z.ltb_ge; lia).
  cbn [orb]. unfold Js.Math_min, setStart. cbn [start end_ resolution payload].
  replace (Z.min (Z.min b (x + c)) b) with (Z.min b (x + c)) by lia.
  assert (Hnext : x + c < b ->
    _addNonLeafRecords_loop num tree ci fuel c
      (N [s; x + c; e] [KnownEmpty; Unknown]) 1 (mkRegion (x + c) b rz py) ctx
    = Ok (N (if b <? e then [s; b; e] else [s; e])
            (if b <? e then [KnownEmpty; Unknown] else [KnownEmpty]),
          ctx)).
  { intros Hlt. apply IH.
    - now apply Z.divide_add_r; [|apply Z.divide_refl].
    - lia.
    - right. repeat split; lia.
    - assert (Hq : (b - x) / c = (b - (x + c)) / c + 1).
      { replace (b - x) with (b - (x + c) + 1 * c) by ring.
        now rewrite Z.div_add by lia. }
      assert (0 <= (b - (x + c)) / c) by (apply Z.div_pos; lia).
      lia. }
  assert (Hstop : forall n0 i0,
    _addNonLeafRecords_loop num tree ci fuel c n0 i0 (mkRegion b b rz py) ctx
    = Ok (n0, ctx)).
  { intros n0 i0. destruct fuel; cbn [_addNonLeafRecords_loop start end_];
      now rewrite Z.ltb_irrefl. }
  destruct (Z_lt_le_dec (x + c) b) as [Hcase|Hcase].
  - replace (Z.min b (x + c)) with (x + c) by lia.
    specialize (Hnext Hcase).
    destruct Hshape as [(-> & -> & ->)|(Hsx & -> & ->)].
    + repeat step; exact Hnext.
    + repeat step; exact Hnext.
  - replace (Z.min b (x + c)) with b by lia.
    destruct Hshape as [(-> & -> & ->)|(Hsx & -> & ->)].
    + repeat step; apply Hstop.
    + repeat step; apply Hstop.
Qed.

End Loop.

(** X13. Inserting no data into a new node above the leaf tier, over a
    range that starts at (or before) the start of the node and ends on the
    grid of the child resolution (or at or after the end of the node), with
    no carried-over entries: no child node is made; the range becomes one
    bucket that is KnownEmpty, and what is left of the node stays one
    Unknown bucket.  Afterwards nothing is missing in that range, at any
    resolution. *)
Theorem insert_nothing_marks_empty (fuel : nat) (root : bool) (s e d : Z)
    (cr : CR) (ctx : Ctx D) :
  let n : Node := mkNode root s e d [s; e] [Unknown] None None in
  let c := getChildResolution tree n None in
  let b := Z.min (end_ cr) e in
  1 <= scalingFactor tree -> 1 <= leafScalingFactor tree -> 0 < d ->
  resolutionEnough tree n
    (Some (requestedResolution cr (propsResolution (props ctx)))) = false ->
  data ctx = [] ->
  Js.orElse (continuedList (props ctx)) [] = [] ->
  start cr <= s -> s < end_ cr -> s < e ->
  (c | s) -> e <= end_ cr \/ (c | end_ cr) ->
  exists n' ctx' v,
    insert num tree (S fuel) n (Some cr) ctx = Ok (n', ctx', v)
    /\ keys n' = (if b <? e then [s; b; e] else [s; e])
    /\ values n' = (if b <? e then [KnownEmpty; Unknown] else [KnownEmpty])
    /\ data ctx' = []
    /\ forall q p, end_ q <= b ->
         hasUncachedRange tree n' (Some q) p = Ok false.
Proof.
  intros n c b Hsf Hlsf Hd Hres Hdata Hcl Hs Hse Hnode Hdiv Hend.
  assert (Hc : 0 < c).
  { destruct (child_resolution_enough D Smry tree n 1 Hsf Hlsf)
      as (_ & _ & Hb & _); [cbn; lia|]. unfold c. lia. }
  assert (Hb : b = e \/ (c | b)).
  { unfold b. destruct Hend as [He|Hdv]; [left; lia|].
    destruct (Z_le_gt_dec (end_ cr) e); [right|left; lia].
    now replace (Z.min (end_ cr) e) with (end_ cr) by lia. }
  assert (Hloop :
    _addNonLeafRecords num tree (insert num tree fuel) n
      (truncateChrRange n cr) ctx
    = Ok (mkNode root s e d (if b <? e then [s; b; e] else [s; e])
            (if b <? e then [KnownEmpty; Unknown] else [KnownEmpty])
            None None,
          ctx)).
  { unfold _addNonLeafRecords, truncateChrRange. cbn [nstart nend n].
    replace (Z.max (start cr) s) with s by lia. fold b. fold c.
    cbn [start end_].
    apply (empty_loop _ root s e d c b (resolution cr) (payload cr) ctx Hc
             ltac:(unfold b; lia) Hb Hdata Hcl);
      [exact Hdiv | unfold b; lia | left; repeat split | lia]. }
  cbn [insert]. rewrite Hdata. rewrite Hres.
  replace (reverseDepth n >? 0) with true
    by (symmetry; apply Z.gtb_lt; exact Hd).
  rewrite Hloop. cbn [bind].
  set (n1 := mkNode root s e d (if b <? e then [s; b; e] else [s; e])
               (if b <? e then [KnownEmpty; Unknown] else [KnownEmpty])
               None None).
  assert (Hupd : exists sm w,
    updateSummary tree n1 None (logged ctx)
    = Ok (with_summary n1 sm w, logged ctx)).
  { unfold updateSummary. destruct (hasSummaryCtor tree).
    - unfold n1. destruct (b <? e); cbn; eexists; eexists; reflexivity.
    - exists None, None. reflexivity. }
  destruct Hupd as (sm & w & ->). cbn [bind fst snd].
  eexists. eexists. eexists. split; [reflexivity|].
  unfold n1. cbn [with_summary keys values].
  split; [reflexivity|]. split; [reflexivity|]. split; [exact Hdata|].
  intros q p Hq.
  destruct (Z.ltb_spec b e); cbn [hasUncachedRange hasUncachedWalk];
    repeat (progress (cbn; zb)); reflexivity.
Qed.

End InsertNothing.

Lemma insert_nothing_marks_empty_witness :
  exists n' ctx' v,
    insert exactLogs ScenarioA.tree 1
      (mkNode true 0 100000 3 [0; 100000] [Unknown] None None)
      (Some (mkRegion 0 10000 None None))
      (mkCtx [] (mkProps None None None false true) [] [])
    = Ok (n', ctx', v)
    /\ keys n' = [0; 10000; 100000]
    /\ values n' = [KnownEmpty; Unknown]
    /\ hasUncachedRange ScenarioA.tree n'
         (Some (mkRegion 0 10000 (Some 100) None)) (mkQuery None None None)
       = Ok false.
Proof.
  destruct (insert_nothing_marks_empty (SC := Count.protocol) exactLogs
              ScenarioA.tree 0 true 0 100000 3 (mkRegion 0 10000 None None)
              (mkCtx [] (mkProps None None None false true) [] []))
    as (n' & ctx' & v & H1 & H2 & H3 & _ & H5).
  - vm_compute. congruence.
  - vm_compute. congruence.
  - reflexivity.
  - reflexivity.
  - reflexivity.
  - reflexivity.
  - vm_compute. congruence.
  - reflexivity.
  - reflexivity.
  - exists 0. reflexivity.
  - right. exists 1. reflexivity.
  - exists n', ctx', v. split; [exact H1|]. split; [exact H2|].
    split; [exact H3|]. apply H5. vm_compute. congruence.
Defined.

(** ** Removal *)

Section RemoveFacts.

Context {D Smry : Type}.
Variable tree : GiveTree.
Variable U : Type.
Variable _compareData : ChromRegion D -> PineNode D Smry -> bool.
Variable clear : PineNode D Smry -> Bucket D Smry -> PineNode D Smry.
Variable callback : option (PineNode D Smry -> U -> PineNode D Smry * U).
Variable leafRemove : DataNode D -> U -> Result (DataNode D * U * bool).

Local Notation Node := (PineNode D Smry).
Local Notation Slot := (Bucket D Smry).
Local Notation CR := (ChromRegion D).
Local Notation rm := (remove _compareData clear callback leafRemove).
Local Notation called n u :=
  (match callback with Some f => f n u | None => (n, u) end).
Local Notation matching n target exactMatch :=
  (nstart n = start target /\ nend n = end_ target
   /\ (exactMatch = false \/ _compareData target n = true)).

Lemma matching_test (n : Node) (target : CR) (exactMatch : bool) :
  (nstart n =? start target) && (nend n =? end_ target)
  && (negb exactMatch || _compareData target n) = true
  <-> matching n target exactMatch.
Proof.
  rewrite !andb_true_iff, orb_true_iff, negb_true_iff, !Z.eqb_eq. tauto.
Qed.

Lemma remove_unfold (n : Node) (target : CR) (exactMatch : bool)
    (convertTo : Slot) (u : U) (log : list string) :
  rm n target exactMatch convertTo u log
  = if (nstart n =? start target) && (nend n =? end_ target)
       && (negb exactMatch || _compareData target n)
    then
      let '(n, u) := called n u in
      Ok (clear n convertTo, u, log, isRoot n)
    else
      let i := locate (keys n) (values n) (start target) 0 in
      do r <-
        removeBelow leafRemove
          (fun c => rm c target exactMatch convertTo)
          (values n) (Z.to_nat i) u log;
      let '(found, u, log) := r in
      let '(n, log) :=
        match found with
        | Some (b, kept) =>
            let n := with_values n (keys n) (Js.assign (values n) i b) in
            (if kept then n
             else fst (_mergeChild
                         (with_values n (keys n)
                            (Js.assign (values n) i convertTo))
                         i true),
             log)
        | None => (n, log ++ ["Data is not found in the tree."%string])
        end in
      Ok (n, u, log, (1 <? Z.of_nat (List.length (values n)))
                     || firstChildHeld n).
Proof. destruct n; reflexivity. Qed.

Lemma summary_with_values (n : Node) (ks : list Z) (vs : list Slot) :
  _summary (with_values n ks vs) = _summary n
  /\ _summaryChromRegion (with_values n ks vs) = _summaryChromRegion n.
Proof. destruct n; split; reflexivity. Qed.

Lemma summary_mergeChild (n : Node) (i : Z) (mergeNext : bool) :
  _summary (fst (_mergeChild n i mergeNext)) = _summary n
  /\ _summaryChromRegion (fst (_mergeChild n i mergeNext))
     = _summaryChromRegion n.
Proof.
  unfold _mergeChild. cbn [fst].
  repeat match goal with
  | |- context [if ?c then _ else _] => destruct c
  end;
  repeat match goal with
  | |- context [with_values ?m ?ks ?vs] =>
      destruct (summary_with_values m ks vs) as [-> ->]
  end; split; reflexivity.
Qed.

(** X14. [remove] never refreshes the summary.  When the range of the node
    is that of the target (and the values agree, or no exact match is asked
    for), the node is handed to the callback and then cleared by the tree
    shell, and the result tells whether the node is the root.  Otherwise the
    node comes back with its root flag, range and reverse depth and with its
    cached summary and wrapper exactly as they were, whatever happened to
    the buckets below; and it is reported as kept exactly when it holds more
    than one bucket, or a first bucket that is a child or a leaf. *)
Theorem remove_keeps_summary (n n' : Node) (target : CR) (exactMatch : bool)
    (convertTo : Slot) (u u' : U) (log log' : list string) (v : bool) :
  rm n target exactMatch convertTo u log = Ok (n', u', log', v) ->
  (matching n target exactMatch ->
   n' = clear (fst (called n u)) convertTo
   /\ u' = snd (called n u)
   /\ log' = log /\ v = isRoot (fst (called n u)))
  /\ (~ matching n target exactMatch ->
      header n' = header n
      /\ _summary n' = _summary n
      /\ _summaryChromRegion n' = _summaryChromRegion n
      /\ hasData n' = hasData n
      /\ v = (1 <? Z.of_nat (List.length (values n'))) || firstChildHeld n').
Proof.
  rewrite remove_unfold.
  destruct ((nstart n =? start target) && (nend n =? end_ target)
            && (negb exactMatch || _compareData target n)) eqn:Hm.
  - intros H. destruct (called n u) as [n0 u0].
    injection H as <- <- <- <-. split; [tauto|].
    intros Hno. exfalso. apply Hno. now apply matching_test.
  - intros H. split.
    { intros Hyes. apply matching_test in Hyes. congruence. }
    intros _. cbv zeta in H.
    destruct (removeBelow _ _ _ _ _ _) as [[[found u1] log1]| |];
      cbn [bind] in H; try discriminate H.
    assert (Hkeep : forall m : Node,
      header m = header n -> _summary m = _summary n ->
      _summaryChromRegion m = _summaryChromRegion n ->
      forall l,
        Ok (m, u1, l, (1 <? Z.of_nat (List.length (values m)))
                      || firstChildHeld m)
        = Ok (n', u', log', v) ->
        header n' = header n
        /\ _summary n' = _summary n
        /\ _summaryChromRegion n' = _summaryChromRegion n
        /\ hasData n' = hasData n
        /\ v = (1 <? Z.of_nat (List.length (values n'))) || firstChildHeld n').
    { intros m Hh Hs Hw l Heq. injection Heq as <- <- <- <-.
      unfold hasData, summary. rewrite Hs. repeat split; assumption. }
    destruct found as [[b kept]|].
    + cbv zeta in H.
      set (n1 := with_values n (keys n)
                   (Js.assign (values n)
                      (locate (keys n) (values n) (start target) 0) b)) in *.
      destruct (header_with_values n (keys n)
                  (Js.assign (values n)
                     (locate (keys n) (values n) (start target) 0) b))
        as (Hh1 & _).
      destruct (summary_with_values n (keys n)
                  (Js.assign (values n)
                     (locate (keys n) (values n) (start target) 0) b))
        as (Hs1 & Hw1).
      fold n1 in Hh1, Hs1, Hw1.
      destruct kept.
      * eapply (Hkeep n1); eassumption.
      * set (n2 := with_values n1 (keys n1) _) in *.
        assert (Hh2 : header n2 = header n)
          by (unfold n2; destruct (header_with_values n1 (keys n1)
                (Js.assign (values n1)
                   (locate (keys n) (values n) (start target) 0) convertTo))
                as (-> & _); exact Hh1).
        assert (Hs2 : _summary n2 = _summary n
                      /\ _summaryChromRegion n2 = _summaryChromRegion n).
        { unfold n2.
          destruct (summary_with_values n1 (keys n1)
                      (Js.assign (values n1)
                         (locate (keys n) (values n) (start target) 0)
                         convertTo)) as (-> & ->).
          now split. }
        destruct Hs2 as [Hs2 Hw2].
        destruct (summary_mergeChild n2
                    (locate (keys n) (values n) (start target) 0) true)
          as (Hs3 & Hw3).
        destruct (preserved_mergeChild tree n2
                    (locate (keys n) (values n) (start target) 0) true)
          as (Hh3 & _).
        eapply (Hkeep (fst (_mergeChild n2 _ true))); try eassumption;
          congruence.
    + eapply (Hkeep n); try reflexivity. exact H.
Qed.

Lemma keys_from_head (child : Node -> bool) (vs : list Slot) :
  forall ks j k0 k,
    bucketsWellFormed child ks vs = true ->
    hd_error ks = Some k0 -> nth_error ks j = Some k -> k0 <= k.
Proof.
  induction vs as [|b vs IH]; intros ks j k0 k Hwf Hhd Hj; cbn in Hwf.
  - destruct ks as [|a [|? ?]]; try discriminate.
    destruct j as [|[|j]]; cbn in Hhd, Hj; try discriminate.
    injection Hhd as <-. injection Hj as <-. lia.
  - destruct ks as [|a [|a1 ks']]; try discriminate.
    apply andb_prop in Hwf as [Hwf Hrest].
    apply andb_prop in Hwf as [Hlt _]. apply Z.ltb_lt in Hlt.
    cbn in Hhd. injection Hhd as <-.
    destruct j as [|j]; cbn in Hj.
    + injection Hj as <-. lia.
    + pose proof (IH (a1 :: ks') j a1 k Hrest eq_refl Hj). lia.
Qed.

Lemma locate_found (child : Node -> bool) (x : Z) (vs : list Slot) :
  forall ks i0 j k0 k1,
    bucketsWellFormed child ks vs = true ->
    nth_error ks j = Some k0 -> nth_error ks (S j) = Some k1 ->
    k0 <= x < k1 ->
    locate ks vs x i0 = i0 + Z.of_nat j.
Proof.
  induction vs as [|b vs IH]; intros ks i0 j k0 k1 Hwf Hj Hj1 Hx;
    cbn in Hwf.
  - destruct ks as [|a [|? ?]]; try discriminate.
    destruct j; cbn in Hj1; discriminate.
  - destruct ks as [|a [|a1 ks']]; try discriminate.
    apply andb_prop in Hwf as [Hwf Hrest].
    apply andb_prop in Hwf as [Hlt _]. apply Z.ltb_lt in Hlt.
    cbn [locate tl hd_error Js.leU].
    destruct (Z.leb_spec a1 x) as [Hle|Hgt].
    + destruct j as [|j].
      * cbn in Hj1. injection Hj1 as <-. lia.
      * cbn in Hj, Hj1.
        rewrite (IH (a1 :: ks') (i0 + 1) j k0 k1 Hrest Hj Hj1 Hx). lia.
    + destruct j as [|j]; [lia|].
      cbn in Hj.
      pose proof (keys_from_head child vs (a1 :: ks') j a1 k0 Hrest
                    eq_refl Hj).
      lia.
Qed.

Lemma locate_past (x : Z) (vs : list Slot) :
  forall ks i0 d,
    bucketsWellFormed wellFormed ks vs = true ->
    last ks d <= x ->
    locate ks vs x i0 = i0 + Z.of_nat (List.length vs).
Proof.
  induction vs as [|b vs IH]; intros ks i0 d Hwf Hx.
  - cbn. lia.
  - cbn in Hwf. destruct ks as [|a [|a1 ks']]; try discriminate.
    apply andb_prop in Hwf as [Hwf Hrest].
    change (last (a :: a1 :: ks') d) with (last (a1 :: ks') d) in Hx.
    destruct (wellFormed_last (a1 :: ks') vs d Hrest) as (k & Hk & Hle).
    cbn in Hk. injection Hk as <-.
    cbn [locate tl hd_error Js.leU].
    destruct (Z.leb_spec a1 x) as [_|Hgt]; [|lia].
    rewrite (IH (a1 :: ks') (i0 + 1) d Hrest Hx).
    cbn [List.length]. lia.
Qed.

Lemma removeBelow_nothing
    (child : Node -> U -> list string -> Result (Node * U * list string * bool))
    (u : U) (log : list string) (vs : list Slot) :
  forall j,
    isPresent (nth_error vs j) = false ->
    removeBelow leafRemove child vs j u log = Ok (None, u, log).
Proof.
  induction vs as [|b vs IH]; intros j Hj; [reflexivity|].
  destruct j as [|j]; cbn in Hj |- *.
  - destruct b; try discriminate; reflexivity.
  - now apply IH.
Qed.

(** X15. Removing what the node does not hold.  On a well-formed node whose
    range is not the one of the target, when the start of the target falls
    into a bucket that is null or false, or at or after the end of the node,
    [remove] leaves the node and the state of the caller as they were, calls
    neither the callback nor [clear], and logs one warning.  The node is
    still reported as kept only if it has more than one bucket or a first
    bucket holding a child or a leaf. *)
Theorem remove_not_found (n : Node) (target : CR) (exactMatch : bool)
    (convertTo : Slot) (u : U) (log : list string) :
  wellFormed n = true ->
  ~ matching n target exactMatch ->
  (exists i k0 k1,
     Js.idx (keys n) i = Some k0 /\ Js.idx (keys n) (i + 1) = Some k1
     /\ k0 <= start target < k1
     /\ isPresent (Js.idx (values n) i) = false)
  \/ nend n <= start target ->
  rm n target exactMatch convertTo u log
  = Ok (n, u, log ++ ["Data is not found in the tree."%string],
        (1 <? Z.of_nat (List.length (values n))) || firstChildHeld n).
Proof.
  intros Hwf Hno Hwhere. rewrite remove_unfold.
  destruct ((nstart n =? start target) && (nend n =? end_ target)
            && (negb exactMatch || _compareData target n)) eqn:Hm.
  { exfalso. apply Hno. now apply matching_test. }
  assert (Hb : bucketsWellFormed wellFormed (keys n) (values n) = true
               /\ last (keys n) (nstart n) = nend n).
  { destruct n as [r s e d ks vs sm sr]. cbn in Hwf |- *.
    apply andb_prop in Hwf as [Hwf Hbs].
    apply andb_prop in Hwf as [_ Hl]. apply Z.eqb_eq in Hl. now split. }
  destruct Hb as [Hb Hlast].
  cbv zeta.
  rewrite removeBelow_nothing; [reflexivity|].
  destruct Hwhere as [(i & k0 & k1 & Hi & Hi1 & Hx & Hempty)|Hpast].
  - unfold Js.idx in Hi, Hi1, Hempty.
    destruct (Z.ltb_spec i 0) as [|Hpos]; [discriminate|].
    destruct (Z.ltb_spec (i + 1) 0) as [|_]; [lia|].
    replace (Z.to_nat (i + 1)) with (S (Z.to_nat i)) in Hi1 by lia.
    rewrite (locate_found wellFormed (start target) (values n) (keys n) 0
               (Z.to_nat i) k0 k1 Hb Hi Hi1 Hx).
    replace (Z.to_nat (0 + Z.of_nat (Z.to_nat i))) with (Z.to_nat i) by lia.
    exact Hempty.
  - rewrite (locate_past (start target) (values n) (keys n) 0
               (nstart n) Hb) by lia.
    replace (Z.to_nat (0 + Z.of_nat (List.length (values n))))
      with (List.length (values n)) by lia.
    assert (E : nth_error (values n) (List.length (values n)) = None)
      by (apply nth_error_None; lia).
    now rewrite E.
Qed.

End RemoveFacts.

Lemma scenario_D_returns :
  exists n,
    remove (fun _ _ => true) ScenarioD.clear None (fun _ _ => Unmodelled)
      ScenarioD.holding ScenarioA.E false KnownEmpty tt []
    = Ok (n, tt, [], true).
Proof. vm_compute. eexists. reflexivity. Qed.

Lemma remove_keeps_summary_witness :
  exists n,
    remove (fun _ _ => true) ScenarioD.clear None (fun _ _ => Unmodelled)
      ScenarioD.holding ScenarioA.E false KnownEmpty tt []
    = Ok (n, tt, [], true)
    /\ header n = header ScenarioD.holding
    /\ _summary n = _summary ScenarioD.holding
    /\ hasData n = hasData ScenarioD.holding.
Proof.
  destruct scenario_D_returns as (n & E).
  exists n. split; [exact E|].
  destruct (remove_keeps_summary ScenarioA.tree unit (fun _ _ => true)
              ScenarioD.clear None (fun _ _ => Unmodelled)
              ScenarioD.holding n ScenarioA.E false KnownEmpty tt tt [] []
              true E)
    as [_ Hkeep].
  destruct Hkeep as (Hh & Hs & _ & Hd & _).
  - intros [_ [Hend _]]. discriminate Hend.
  - split; [exact Hh|]. split; [exact Hs|exact Hd].
Defined.

Lemma remove_not_found_witness :
  remove (fun _ _ => true) ScenarioD.clear None (fun _ _ => Unmodelled)
    ScenarioD.holding ScenarioD.elsewhere false KnownEmpty tt []
  = Ok (ScenarioD.holding, tt, ["Data is not found in the tree."%string],
        true).
Proof.
  apply (remove_not_found unit (fun _ _ => true) ScenarioD.clear None
           (fun _ _ => Unmodelled) ScenarioD.holding ScenarioD.elsewhere
           false KnownEmpty tt []).
  - reflexivity.
  - intros [Hstart _]. discriminate Hstart.
  - left. exists 1, 10000, 100000.
    split; [reflexivity|]. split; [reflexivity|].
    split; [cbn; lia|reflexivity].
Defined.
